(** * Ranand33/database: a B-tree index (btree.c) and a MapReduce engine
    (mapreduce.c), embedded in Rocq and checked against the specification.

  The C programs are embedded shallowly.  Heap effects, [exit] and
  undefined behaviour are explicit: a computation is a function from a
  program state to an [outcome].  Node storage of the B-tree is
  represented by the tree value itself (node pointers are uniquely owned
  in btree.c); payload blocks live in an explicit heap, because the
  claims about payload ownership depend on aliasing. *)

From Stdlib Require Import ZArith Lia String Ascii.
From Stdlib Require Import DecimalString DecimalZ.
From Stdlib.Strings Require Import Byte.
From stdpp Require Import base option list gmap strings sorting.

Local Open Scope Z_scope.
#[local] Unset Elimination Schemes.

(** ** Computations with state, [exit] and undefined behaviour *)

Module Exec.

Inductive outcome (S A : Type) : Type :=
  | Returned (a : A) (s : S)       (* the call returns [a] *)
  | Exited (status : Z) (s : S)    (* the process terminates: exit(status) *)
  | Undefined                      (* C undefined behaviour *)
  | OutOfFuel.                     (* recursion budget of the model used up *)
Arguments Returned {S A} a s.
Arguments Exited {S A} status s.
Arguments Undefined {S A}.
Arguments OutOfFuel {S A}.

Definition M (S A : Type) : Type := S → outcome S A.

Definition ret {S A} (a : A) : M S A := λ s, Returned a s.

Definition bind {S A B} (m : M S A) (k : A → M S B) : M S B :=
  λ s, match m s with
       | Returned a s' => k a s'
       | Exited c s' => Exited c s'
       | Undefined => Undefined
       | OutOfFuel => OutOfFuel
       end.

Definition get {S} : M S S := λ s, Returned s s.
Definition put {S} (s : S) : M S unit := λ _, Returned tt s.
Definition exit {S A} (status : Z) : M S A := λ s, Exited status s.
Definition undefined {S A} : M S A := λ _, Undefined.
Definition out_of_fuel {S A} : M S A := λ _, OutOfFuel.

(** Reading through a pointer or an index: [None] is a null pointer or a
    slot outside the initialised part of an array. *)
Definition deref {S A} (o : option A) : M S A :=
  match o with Some a => ret a | None => undefined end.

(** A condition the C code relies on without checking it. *)
Definition require {S} (b : bool) : M S unit :=
  if b then ret tt else undefined.

Definition EXIT_FAILURE : Z := 1.

End Exec.
Import Exec.

Declare Scope exec_scope.
Delimit Scope exec_scope with exec.
Notation "x <- m ;; k" := (bind m (λ x, k))
  (at level 100, m at next level, right associativity) : exec_scope.
Notation "m ;;; k" := (bind m (λ _, k))
  (at level 100, right associativity) : exec_scope.
Local Open Scope exec_scope.

(** ** btree.c *)

Module BTree.

(** [#define ORDER 5] *)
Definition ORDER : nat := 5.

Abbreviation loc := positive.

(** [typedef struct { void* data; size_t data_size; } Value;]
    [data = None] is the null pointer. *)
Record Value := mkValue { data : option loc; data_size : nat }.

(** [typedef struct { int key; Value value; } KeyValue;] *)
Record KeyValue := mkKV { key : Z; value : Value }.

(** [struct BTreeNode]: [keys] holds the occupied slots [0, num_keys) of
    the array [keys[ORDER - 1]], [children] the child pointers the node
    owns (slots [0, num_keys] of [children[ORDER]] for an internal node,
    none for a leaf, whose slots are all NULL). *)
Inductive BTreeNode : Type :=
  Node { is_leaf : bool; keys : list KeyValue; children : list BTreeNode }.

Definition num_keys (n : BTreeNode) : nat := length (keys n).

(** [typedef struct { BTreeNode* root; int min_degree; } BTree;] *)
Record BTree := mkTree { root : option BTreeNode; min_degree : nat }.

(** Program state: the payload heap, the outcomes of the allocation
    requests still to come ([false] = the allocator returns NULL; an
    exhausted list means every further request succeeds), and what was
    written to stderr. *)
Record world := mkWorld {
  heap : gmap loc (list byte);
  alloc_oracle : list bool;
  stderr : list string
}.

Definition next_alloc_ok (w : world) : bool :=
  match alloc_oracle w with false :: _ => false | _ => true end.

Definition consume_alloc (w : world) : world :=
  mkWorld (heap w) (tail (alloc_oracle w)) (stderr w).

(** [malloc(sizeof(BTreeNode))]: only success or failure is observable,
    the node itself is the tree value. *)
Definition malloc_node : M world bool :=
  λ w, Returned (next_alloc_ok w) (consume_alloc w).

(** [malloc(n)] for a payload: a block of [n] bytes at an address that is
    not in use.  Its initial contents are indeterminate in C; every caller
    overwrites the whole block before reading it. *)
Definition malloc (n : nat) : M world (option loc) :=
  λ w, if next_alloc_ok w
       then let p := fresh (dom (heap w)) in
            Returned (Some p)
              (mkWorld (<[p := replicate n "000"%byte]> (heap w))
                       (alloc_oracle (consume_alloc w)) (stderr w))
       else Returned None (consume_alloc w).

(** [free(p)]: a no-op on NULL, undefined on a pointer that is not a live
    block. *)
Definition free (p : option loc) : M world unit :=
  match p with
  | None => ret tt
  | Some a => λ w, match heap w !! a with
                   | Some _ => Returned tt
                       (mkWorld (delete a (heap w)) (alloc_oracle w) (stderr w))
                   | None => Undefined
                   end
  end.

(** [memcpy(dst, src, n)]: reads [n] bytes of the source block, which must
    hold at least that many. *)
Definition memcpy (dst : loc) (src : option loc) (n : nat) : M world unit :=
  λ w, match src ≫= (λ a, heap w !! a), heap w !! dst with
       | Some bytes, Some old =>
           if decide (n ≤ length bytes ∧ n ≤ length old)%nat
           then Returned tt
                  (mkWorld (<[dst := take n bytes ++ drop n old]> (heap w))
                           (alloc_oracle w) (stderr w))
           else Undefined
       | _, _ => Undefined
       end.

Definition eprint (msg : string) : M world unit :=
  λ w, Returned tt (mkWorld (heap w) (alloc_oracle w) (stderr w ++ [msg])).

Definition alloc_failed {A} : M world A :=
  eprint "Memory allocation failed" ;;; exit EXIT_FAILURE.

(** [btree_create]: [min_degree] is the ceiling of [ORDER / 2]. *)
Definition btree_create : M world BTree :=
  ok <- malloc_node ;;
  if ok : bool
  then ret (mkTree None (ORDER / 2 + (if (ORDER mod 2 =? 0)%nat then 0 else 1))%nat)
  else alloc_failed.

(** [btree_create_node]: no keys, every child pointer NULL. *)
Definition btree_create_node (leaf : bool) : M world BTreeNode :=
  ok <- malloc_node ;;
  if ok : bool then ret (Node leaf [] []) else alloc_failed.

(** The scan [i = 0; while (i < num_keys && key > keys[i].key) i++]. *)
Fixpoint scan_up (key : Z) (ks : list KeyValue) : nat :=
  match ks with
  | kv :: ks' => if (BTree.key kv <? key) then S (scan_up key ks') else 0%nat
  | [] => 0%nat
  end.

(** The scan [i = num_keys - 1; while (i >= 0 && key < keys[i].key) i--]
    with the counter kept as [i + 1]; the result is the final [i + 1]. *)
Fixpoint scan_down_from (i1 : nat) (key : Z) (ks : list KeyValue) : nat :=
  match i1 with
  | O => O
  | S i => match ks !! i with
           | Some kv => if (key <? BTree.key kv) then scan_down_from i key ks
                        else S i
           | None => S i
           end
  end.

Definition scan_down (key : Z) (ks : list KeyValue) : nat :=
  scan_down_from (length ks) key ks.

(** [l] with [x] placed at index [i] and the later elements moved one slot
    up: the shifting loops of the insertion paths. *)
Definition insert_at {A} (i : nat) (x : A) (l : list A) : list A :=
  take i l ++ x :: drop i l.

(** The [n] array slots starting at [i]; [None] when they are not all
    initialised. *)
Definition slots {A} (i n : nat) (l : list A) : option (list A) :=
  if decide (i + n ≤ length l)%nat then Some (take n (drop i l)) else None.

(** A node must fit [keys[ORDER - 1]] and [children[ORDER]]. *)
Definition fits (n : BTreeNode) : bool :=
  bool_decide (length (keys n) ≤ ORDER - 1)%nat
  && bool_decide (length (children n) ≤ ORDER)%nat.

(** [btree_split_child(parent, index)] *)
Definition btree_split_child (parent : BTreeNode) (index : nat)
  : M world BTreeNode :=
  child <- deref (children parent !! index) ;;
  new_child <- btree_create_node (is_leaf child) ;;
  (* new_child->num_keys = ORDER / 2 - 1;
     new_child->keys[j] = child->keys[j + ORDER / 2] *)
  right_keys <- deref (slots (ORDER / 2) (ORDER / 2 - 1) (keys child)) ;;
  (* new_child->children[j] = child->children[j + ORDER / 2], j < ORDER / 2 *)
  right_children <-
    (if is_leaf child then ret (children new_child)
     else deref (slots (ORDER / 2) (ORDER / 2) (children child))) ;;
  let new_child := Node (is_leaf new_child) right_keys right_children in
  (* parent->keys[index] = child->keys[ORDER / 2 - 1] *)
  up <- deref (keys child !! (ORDER / 2 - 1)%nat) ;;
  (* child->num_keys = ORDER / 2 - 1 *)
  let child := Node (is_leaf child) (take (ORDER / 2 - 1) (keys child))
                 (if is_leaf child then children child
                  else take (ORDER / 2) (children child)) in
  require (bool_decide (index ≤ num_keys parent)%nat) ;;;
  let parent := Node (is_leaf parent)
                  (insert_at index up (keys parent))
                  (insert_at (index + 1) new_child
                     (<[index := child]> (children parent))) in
  require (fits parent) ;;;
  ret parent.

(** The payload copy of the insertion paths:
    [p = malloc(data_size); if (p == NULL) exit; memcpy(p, data, data_size)]. *)
Definition copy_payload (data : option loc) (data_size : nat) : M world Value :=
  p <- malloc data_size ;;
  match p with
  | None => alloc_failed
  | Some q => memcpy q data data_size ;;; ret (mkValue (Some q) data_size)
  end.

(** [btree_insert_non_full(node, key, data, data_size)]; [fuel] bounds the
    depth of the recursion. *)
Fixpoint btree_insert_non_full (fuel : nat) (node : BTreeNode) (key : Z)
    (data : option loc) (data_size : nat) : M world BTreeNode :=
  match fuel with
  | O => out_of_fuel
  | S fuel =>
      if is_leaf node then
        let i1 := scan_down key (keys node) in
        require (bool_decide (num_keys node < ORDER - 1)%nat) ;;;
        v <- copy_payload data data_size ;;
        ret (Node (is_leaf node) (insert_at i1 (mkKV key v) (keys node))
               (children node))
      else
        let i := scan_down key (keys node) in
        child <- deref (children node !! i) ;;
        if (num_keys child =? ORDER - 1)%nat then
          node <- btree_split_child node i ;;
          up <- deref (keys node !! i) ;;
          let i := if (BTree.key up <? key) then S i else i in
          child <- deref (children node !! i) ;;
          child <- btree_insert_non_full fuel child key data data_size ;;
          ret (Node (is_leaf node) (keys node) (<[i := child]> (children node)))
        else
          child <- btree_insert_non_full fuel child key data data_size ;;
          ret (Node (is_leaf node) (keys node) (<[i := child]> (children node)))
  end.

(** Number of levels below and including [n]. *)
Fixpoint height (n : BTreeNode) : nat :=
  S (foldr Nat.max O (height <$> children n)).

(** [btree_insert(tree, key, data, data_size)]; a NULL [tree] is [None].
    The recursion gets the height of the tree as its budget. *)
Definition btree_insert (tree : option BTree) (key : Z) (data : option loc)
    (data_size : nat) : M world (option BTree) :=
  match tree with
  | None => ret None
  | Some t =>
      match root t with
      | None =>
          r <- btree_create_node true ;;
          v <- copy_payload data data_size ;;
          ret (Some (mkTree (Some (Node (is_leaf r) [mkKV key v] (children r)))
                       (min_degree t)))
      | Some r =>
          if (num_keys r =? ORDER - 1)%nat then
            new_root <- btree_create_node false ;;
            let new_root := Node (is_leaf new_root) (keys new_root) [r] in
            new_root <- btree_split_child new_root 0 ;;
            k0 <- deref (keys new_root !! O) ;;
            let i := if (BTree.key k0 <? key) then 1%nat else 0%nat in
            child <- deref (children new_root !! i) ;;
            child <- btree_insert_non_full (height r) child key data data_size ;;
            ret (Some (mkTree
                         (Some (Node (is_leaf new_root) (keys new_root)
                                  (<[i := child]> (children new_root))))
                         (min_degree t)))
          else
            r <- btree_insert_non_full (height r) r key data data_size ;;
            ret (Some (mkTree (Some r) (min_degree t)))
      end
  end.

(** [btree_search_node(node, key)]: the outer [None] is a dereference of a
    NULL child, the inner one the NULL result. *)
Fixpoint btree_search_node (node : BTreeNode) (key : Z)
  : option (option Value) :=
  let i := scan_up key (keys node) in
  match keys node !! i with
  | Some kv =>
      if (key =? BTree.key kv) then Some (Some (value kv))
      else if is_leaf node then Some None
      else mjoin (((λ c, btree_search_node c key) <$> children node) !! i)
  | None =>
      if is_leaf node then Some None
      else mjoin (((λ c, btree_search_node c key) <$> children node) !! i)
  end.

(** [btree_search(tree, key)] *)
Definition btree_search (tree : option BTree) (key : Z)
  : option (option Value) :=
  match tree ≫= root with
  | None => Some None
  | Some r => btree_search_node r key
  end.

(** In-order walk shared by the traversal and the abstraction function:
    child 0, key 0, child 1, key 1, ..., last child; a missing child
    contributes nothing. *)
Fixpoint in_order {A} (subs : list (list A)) (ks : list A) : list A :=
  match ks with
  | [] => default [] (head subs)
  | k :: ks => default [] (head subs) ++ k :: in_order (tail subs) ks
  end.

(** [btree_traverse_node(node, level)]: the printed (level, key) lines. *)
Fixpoint btree_traverse_node (node : BTreeNode) (level : nat)
  : list (nat * Z) :=
  in_order
    (if is_leaf node then []
     else (λ c, btree_traverse_node c (S level)) <$> children node)
    ((λ kv, (level, BTree.key kv)) <$> keys node).

(** [btree_traverse(tree)] *)
Definition btree_traverse (tree : option BTree) : list (nat * Z) :=
  match tree ≫= root with
  | None => []
  | Some r => btree_traverse_node r 0
  end.

(** [btree_remove_from_leaf(node, idx)] *)
Definition btree_remove_from_leaf (node : BTreeNode) (idx : nat)
  : M world BTreeNode :=
  kv <- deref (keys node !! idx) ;;
  free (data (value kv)) ;;;
  ret (Node (is_leaf node) (delete idx (keys node)) (children node)).

(** The walk of [btree_get_predecessor]:
    [while (!cur->is_leaf) cur = cur->children[cur->num_keys]], then the
    last key of the leaf. *)
Fixpoint rightmost_key (cur : BTreeNode) : option Z :=
  if is_leaf cur
  then (if decide (num_keys cur = O) then None
        else key <$> keys cur !! (num_keys cur - 1)%nat)
  else mjoin ((rightmost_key <$> children cur) !! num_keys cur).

(** [btree_get_predecessor(node, idx)] *)
Definition btree_get_predecessor (node : BTreeNode) (idx : nat) : option Z :=
  children node !! idx ≫= rightmost_key.

(** The walk of [btree_get_successor], down the first children. *)
Fixpoint leftmost_key (cur : BTreeNode) : option Z :=
  if is_leaf cur then key <$> keys cur !! O
  else mjoin ((leftmost_key <$> children cur) !! O).

(** [btree_get_successor(node, idx)] *)
Definition btree_get_successor (node : BTreeNode) (idx : nat) : option Z :=
  children node !! (idx + 1)%nat ≫= leftmost_key.

(** The rebalancing steps below touch neither the payload heap nor the
    allocator: they are functions from the parent node to the parent node
    as the call leaves it, [None] when the C code would read or write a
    slot outside the node (undefined behaviour). *)

(** A write to [children[num_keys + 1]] of a node that owns the child
    slots [0, num_keys]. *)
Definition owns_children (n : BTreeNode) : bool :=
  bool_decide (length (children n) = S (num_keys n)).

(** [btree_borrow_from_prev(node, idx)] *)
Definition btree_borrow_from_prev (node : BTreeNode) (idx : nat)
  : option BTreeNode :=
  child ← children node !! idx;
  _ ← guard (idx ≠ O);
  sibling ← children node !! (idx - 1)%nat;
  down ← keys node !! (idx - 1)%nat;
  _ ← guard (num_keys sibling ≠ O);
  up ← keys sibling !! (num_keys sibling - 1)%nat;
  moved ← (if is_leaf child then Some []
           else c ← children sibling !! num_keys sibling; Some [c]);
  let child' := Node (is_leaf child) (down :: keys child)
                  (moved ++ children child) in
  let sibling' := Node (is_leaf sibling)
                    (take (num_keys sibling - 1) (keys sibling))
                    (if is_leaf child then children sibling
                     else take (num_keys sibling) (children sibling)) in
  _ ← guard (fits child');
  Some (Node (is_leaf node) (<[(idx - 1)%nat := up]> (keys node))
          (<[idx := child']> (<[(idx - 1)%nat := sibling']> (children node)))).

(** [btree_borrow_from_next(node, idx)] *)
Definition btree_borrow_from_next (node : BTreeNode) (idx : nat)
  : option BTreeNode :=
  child ← children node !! idx;
  sibling ← children node !! (idx + 1)%nat;
  down ← keys node !! idx;
  moved ← (if is_leaf child then Some []
           else _ ← guard (owns_children child);
                c ← children sibling !! O; Some [c]);
  up ← keys sibling !! O;
  let child' := Node (is_leaf child) (keys child ++ [down])
                  (children child ++ moved) in
  let sibling' := Node (is_leaf sibling) (drop 1 (keys sibling))
                    (if is_leaf sibling then children sibling
                     else drop 1 (children sibling)) in
  _ ← guard (fits child');
  Some (Node (is_leaf node) (<[idx := up]> (keys node))
          (<[idx := child']> (<[(idx + 1)%nat := sibling']> (children node)))).

(** [btree_merge_children(node, idx)] *)
Definition btree_merge_children (node : BTreeNode) (idx : nat)
  : option BTreeNode :=
  child ← children node !! idx;
  sibling ← children node !! (idx + 1)%nat;
  down ← keys node !! idx;
  moved ← (if is_leaf child then Some []
           else _ ← guard (owns_children child);
                slots O (S (num_keys sibling)) (children sibling));
  let child' := Node (is_leaf child) (keys child ++ down :: keys sibling)
                  (children child ++ moved) in
  _ ← guard (fits child');
  Some (Node (is_leaf node) (delete idx (keys node))
          (<[idx := child']> (delete (idx + 1)%nat (children node)))).

(** [btree_fill_child(node, idx)] *)
Definition btree_fill_child (node : BTreeNode) (idx : nat)
  : option BTreeNode :=
  prev_rich ← (if decide (idx = O) then Some false
               else p ← children node !! (idx - 1)%nat;
                    Some (bool_decide (ORDER / 2 ≤ num_keys p)%nat));
  if prev_rich : bool then btree_borrow_from_prev node idx
  else
    next_rich ← (if decide (idx = num_keys node) then Some false
                 else n ← children node !! (idx + 1)%nat;
                      Some (bool_decide (ORDER / 2 ≤ num_keys n)%nat));
    if next_rich : bool then btree_borrow_from_next node idx
    else if decide (idx = num_keys node)
         then _ ← guard (idx ≠ O); btree_merge_children node (idx - 1)
         else btree_merge_children node idx.

(** The slot [keys[i].value.data = NULL]. *)
Definition clear_data (i : nat) (ks : list KeyValue) : list KeyValue :=
  alter (λ kv, mkKV (key kv) (mkValue None (data_size (value kv)))) i ks.

Definition set_child (node : BTreeNode) (i : nat) (c : BTreeNode) : BTreeNode :=
  Node (is_leaf node) (keys node) (<[i := c]> (children node)).

(** [btree_remove_from_non_leaf(node, idx)]; [delete_from_node] is the
    mutually recursive [btree_delete_from_node]. *)
Definition btree_remove_from_non_leaf
    (delete_from_node : BTreeNode → Z → M world (bool * BTreeNode))
    (node : BTreeNode) (idx : nat) : M world BTreeNode :=
  kv <- deref (keys node !! idx) ;;
  left <- deref (children node !! idx) ;;
  if decide (ORDER / 2 ≤ num_keys left)%nat then
    pred <- deref (btree_get_predecessor node idx) ;;
    free (data (value kv)) ;;;
    last <- deref (keys left !! (num_keys left - 1)%nat) ;;
    let node := Node (is_leaf node)
                  (<[idx := mkKV pred (value last)]> (keys node))
                  (children node) in
    let left := Node (is_leaf left)
                  (clear_data (num_keys left - 1) (keys left))
                  (children left) in
    r <- delete_from_node left pred ;;
    ret (set_child node idx r.2)
  else
    right <- deref (children node !! (idx + 1)%nat) ;;
    if decide (ORDER / 2 ≤ num_keys right)%nat then
      succ <- deref (btree_get_successor node idx) ;;
      free (data (value kv)) ;;;
      first <- deref (keys right !! O) ;;
      let node := Node (is_leaf node)
                    (<[idx := mkKV succ (value first)]> (keys node))
                    (children node) in
      let right := Node (is_leaf right) (clear_data O (keys right))
                     (children right) in
      r <- delete_from_node right succ ;;
      ret (set_child node (idx + 1) r.2)
    else
      node <- deref (btree_merge_children node idx) ;;
      merged <- deref (children node !! idx) ;;
      r <- delete_from_node merged (key kv) ;;
      ret (set_child node idx r.2).

(** [btree_delete_from_node(node, key)]: the result and the node as the
    call leaves it. *)
Fixpoint btree_delete_from_node (fuel : nat) (node : BTreeNode) (key : Z)
  : M world (bool * BTreeNode) :=
  match fuel with
  | O => out_of_fuel
  | S fuel =>
      let idx := scan_up key (keys node) in
      if bool_decide (BTree.key <$> keys node !! idx = Some key) then
        node <- (if is_leaf node then btree_remove_from_leaf node idx
                 else btree_remove_from_non_leaf
                        (btree_delete_from_node fuel) node idx) ;;
        ret (true, node)
      else if is_leaf node then ret (false, node)
      else
        let flag := bool_decide (idx = num_keys node) in
        child <- deref (children node !! idx) ;;
        node <- (if decide (num_keys child < ORDER / 2)%nat
                 then deref (btree_fill_child node idx) else ret node) ;;
        let idx := if flag && bool_decide (num_keys node < idx)%nat
                   then (idx - 1)%nat else idx in
        child <- deref (children node !! idx) ;;
        r <- btree_delete_from_node fuel child key ;;
        ret (r.1, set_child node idx r.2)
  end.

(** [btree_delete(tree, key)]: the result and the tree as the call leaves
    it.  The recursion gets the height of the tree as its budget. *)
Definition btree_delete (tree : option BTree) (key : Z)
  : M world (bool * option BTree) :=
  match tree with
  | None => ret (false, None)
  | Some t =>
      match root t with
      | None => ret (false, tree)
      | Some r =>
          res <- btree_delete_from_node (height r) r key ;;
          let r := res.2 in
          if decide (num_keys r = O) then
            ret (res.1, Some (mkTree (if is_leaf r then None
                                      else children r !! O)
                                (min_degree t)))
          else ret (res.1, Some (mkTree (Some r) (min_degree t)))
      end
  end.

(** [btree_destroy_node(node)]: the children in the slots [0, num_keys]
    first, then the payload of every key, then the node itself; a NULL
    child is skipped. *)
Fixpoint btree_destroy_node (node : BTreeNode) : M world unit :=
  (if is_leaf node then ret tt
   else foldr (λ destroy_child rest, destroy_child ;;; rest) (ret tt)
          (take (S (num_keys node)) (btree_destroy_node <$> children node))) ;;;
  foldr (λ kv rest, free (data (value kv)) ;;; rest) (ret tt) (keys node).

(** [btree_destroy(tree)] *)
Definition btree_destroy (tree : option BTree) : M world unit :=
  match tree with
  | None => ret tt
  | Some t => match root t with
              | Some r => btree_destroy_node r
              | None => ret tt
              end
  end.

(** [btree_print_node(node, level)]: the printed lines, each as its level,
    the keys between the brackets and whether "(Leaf)" follows. *)
Fixpoint btree_print_node (node : BTreeNode) (level : nat)
  : list (nat * list Z * bool) :=
  (level, BTree.key <$> keys node, is_leaf node)
  :: (if is_leaf node then []
      else concat (take (S (num_keys node))
                     ((λ c, btree_print_node c (S level)) <$> children node))).

(** [btree_print(tree)] *)
Definition btree_print (tree : option BTree) : list (nat * list Z * bool) :=
  match tree ≫= root with
  | None => []
  | Some r => btree_print_node r 0
  end.

End BTree.

(** ** mapreduce.c *)

Module MapReduce.

Definition MAX_THREADS : Z := 16.
Definition MAX_KEY_LENGTH : nat := 128.
Definition MAX_VALUE_LENGTH : nat := 1024.
Definition INITIAL_BUCKET_SIZE : Z := 64.
Definition PARTITIONS : Z := 16.

(** [size_t] and [unsigned int] arithmetic wraps. *)
Definition wrap64 (x : Z) : Z := x mod 2 ^ 64.
Definition wrap32 (x : Z) : Z := x mod 2 ^ 32.

(** The C string stored in a character buffer: the characters before the
    first NUL. *)
Fixpoint c_str (buf : string) : string :=
  match buf with
  | EmptyString => EmptyString
  | String c rest => if Ascii.eqb c zero then EmptyString
                     else String c (c_str rest)
  end.

(** [strncpy(dst, src, n - 1); dst[n - 1] = 0] into a [char dst[n]]. *)
Definition bounded_copy (n : nat) (src : string) : string :=
  String.substring 0 (n - 1) (c_str src).

(** [typedef struct { char key[MAX_KEY_LENGTH]; char value[MAX_VALUE_LENGTH]; } KeyValue;] *)
Record KeyValue := mkKV { key : string; value : string }.

Definition sizeof_KeyValue : Z :=
  Z.of_nat MAX_KEY_LENGTH + Z.of_nat MAX_VALUE_LENGTH.

(** [typedef struct { KeyValue* data; size_t size; size_t capacity; } KeyValueList;]
    [data = None] is the null pointer, [Some l] a block whose initialised
    slots [0, size) are [l]; [size] is the length of [l]. *)
Record KeyValueList := mkList { data : option (list KeyValue); capacity : Z }.

Definition items (l : KeyValueList) : list KeyValue := default [] (data l).
Definition size (l : KeyValueList) : Z := Z.of_nat (length (items l)).

(** [typedef struct { KeyValueList kvs; pthread_mutex_t mutex; } Partition;]
    The mutex carries no data. *)
Record Partition := mkPartition { kvs : KeyValueList }.

(** User callbacks, as the pairs they emit, in order, through
    [add_kv_pair] on the list they are handed. *)
Definition map_fn : Type := string → string → list (string * string).
Definition reduce_fn : Type := string → list string → list (string * string).

(** [MapReduceContext]; [barrier_count] is the party count the phase
    barrier was initialised with. *)
Record MapReduceContext := mkCtx {
  input : KeyValueList;
  output : KeyValueList;
  partitions : list Partition;
  map_function : option map_fn;
  reduce_function : option reduce_fn;
  num_threads : Z;
  barrier_count : Z
}.

(** Program state: outcomes of the allocation and thread-creation
    requests still to come ([false] = failure, exhausted = success), the
    stderr lines (as their format strings), and the worker threads created
    so far.  The progress messages on stdout are not recorded. *)
Record world := mkWorld {
  alloc_oracle : list bool;
  thread_oracle : list bool;
  stderr : list string;
  spawned : list Z
}.

Definition next_ok (o : list bool) : bool :=
  match o with false :: _ => false | _ => true end.

(** [malloc] and [realloc], observed as success or failure. *)
Definition allocate : M world bool :=
  λ w, Returned (next_ok (alloc_oracle w))
         (mkWorld (tail (alloc_oracle w)) (thread_oracle w) (stderr w) (spawned w)).

Definition sizeof_int : Z := 4.

(** What a [MapReduceContext] takes at least: its two lists alone, each a
    pointer and two [size_t]; the barrier lies behind them. *)
Definition min_sizeof_MapReduceContext : Z := 2 * (3 * 8).

(** [worker_thread(arg)], the start routine of a worker, up to its first
    barrier; [arg] points to a block of [arg_size] bytes.  No key was ever
    created, so [pthread_getspecific(0)] gives NULL in the new thread and
    [arg] itself is taken for the context. *)
Definition worker_thread (arg_size : Z) : M world unit :=
  (* int thread_id = *(int* )arg; *)
  require (bool_decide (sizeof_int ≤ arg_size)) ;;;
  (* ctx = (MapReduceContext* )arg;
     pthread_barrier_wait(&ctx->phase_barrier); *)
  require (bool_decide (min_sizeof_MapReduceContext ≤ arg_size)).

(** [pthread_create(&ctx->threads[i], NULL, worker_thread, arg) == 0],
    [arg] being the [malloc(sizeof(int))] block of the thread id.  The new
    thread starts [worker_thread] at once; undefined behaviour in it is
    undefined behaviour of the program. *)
Definition pthread_create (i : Z) : M world bool :=
  λ w, if next_ok (thread_oracle w)
       then (worker_thread sizeof_int ;;; ret true)
              (mkWorld (alloc_oracle w) (tail (thread_oracle w))
                 (stderr w) (spawned w ++ [i]))
       else Returned false (mkWorld (alloc_oracle w) (tail (thread_oracle w))
                              (stderr w) (spawned w)).

Definition eprint (msg : string) : M world unit :=
  λ w, Returned tt (mkWorld (alloc_oracle w) (thread_oracle w)
                      (stderr w ++ [msg]) (spawned w)).

(** [create_kv_list] *)
Definition create_kv_list : M world KeyValueList :=
  ok <- allocate ;;
  if ok : bool then ret (mkList (Some []) INITIAL_BUCKET_SIZE)
  else eprint "Failed to allocate memory for KeyValueList" ;;;
       exit EXIT_FAILURE.

(** [free_kv_list] *)
Definition free_kv_list (list : option KeyValueList) : option KeyValueList :=
  match list with
  | Some l => match data l with
              | Some _ => Some (mkList None 0)
              | None => Some l
              end
  | None => None
  end.

(** [add_kv_pair(list, key, value)]: the list as the call leaves it. *)
Definition add_kv_pair (list : option KeyValueList) (key value : option string)
  : M world (option KeyValueList) :=
  match list, key, value with
  | Some l, Some k, Some v =>
      l <- (if decide (capacity l ≤ size l) then
              let cap := wrap64 (capacity l * 2) in
              ok <- allocate ;;   (* realloc(data, cap * sizeof(KeyValue)) *)
              if ok : bool
              then ret (mkList (Some (items l)) cap)
              else eprint "Failed to reallocate memory for KeyValueList" ;;;
                   exit EXIT_FAILURE
            else ret l) ;;
      (* data[size] must lie inside the block of
         capacity * sizeof(KeyValue) bytes *)
      require (bool_decide (size l < capacity l
                            ∧ capacity l * sizeof_KeyValue < 2 ^ 64
                            ∧ is_Some (data l))) ;;;
      ret (Some (mkList
                   (Some (items l ++ [mkKV (bounded_copy MAX_KEY_LENGTH k)
                                        (bounded_copy MAX_VALUE_LENGTH v)]))
                   (capacity l)))
  | _, _, _ => ret list
  end.

(** [init_mapreduce(ctx, num_threads, map_fn, reduce_fn)]: the context as
    initialised.  [ctx] is [None] for a null pointer, else the previous
    contents of the structure, all of which are overwritten. *)
Definition init_mapreduce (ctx : option MapReduceContext) (n : Z)
    (map : option map_fn) (reduce : option reduce_fn)
  : M world MapReduceContext :=
  match ctx, map, reduce with
  | Some _, Some _, Some _ =>
      let threads := if bool_decide (0 < n ∧ n ≤ MAX_THREADS)
                     then n else MAX_THREADS in
      inp <- create_kv_list ;;
      out <- create_kv_list ;;
      parts <- (fix loop (k : nat) : M world (list Partition) :=
                  match k with
                  | O => ret []
                  | S k => l <- create_kv_list ;;
                           rest <- loop k ;;
                           ret (mkPartition l :: rest)
                  end) (Z.to_nat PARTITIONS) ;;
      ret (mkCtx inp out parts map reduce threads (threads + 1))
  | _, _, _ =>
      eprint "Invalid MapReduce initialization" ;;; exit EXIT_FAILURE
  end.

Section Platform.

(** Whether plain [char] is a signed type is implementation-defined. *)
Variable char_is_signed : bool.

(** The value of [int c = *str]. *)
Definition char_to_int (c : ascii) : Z :=
    let b := Z.of_N (N_of_ascii c) in
    if char_is_signed && (128 <=? b) then b - 256 else b.

(** One round of the loop of [hash_string]:
      [hash = ((hash << 5) + hash) + c] on [unsigned int]. *)
Definition hash_step (hash : Z) (c : ascii) : Z :=
    wrap32 (wrap32 (wrap32 (Z.shiftl hash 5) + hash) + wrap32 (char_to_int c)).

(** [hash_string]: [while ((c = *str++))] stops at the terminator. *)
Fixpoint hash_loop (hash : Z) (str : string) : Z :=
    match str with
    | EmptyString => hash
    | String c rest => if Ascii.eqb c zero then hash
                       else hash_loop (hash_step hash c) rest
    end.

Definition hash_string (str : string) : Z := hash_loop 5381 str.

(** [hash_string(key) % PARTITIONS] *)
Definition partition_index (kv : KeyValue) : Z :=
    hash_string (key kv) mod PARTITIONS.

(** The inner loop of [run_map_phase]: each pair of the map output goes
      to [partitions[partition_index]] through [add_kv_pair]. *)
Fixpoint route (parts : list Partition) (map_output : list KeyValue)
    : M world (list Partition) :=
    match map_output with
    | [] => ret parts
    | kv :: rest =>
        let p := Z.to_nat (partition_index kv) in
        part <- deref (parts !! p) ;;
        l <- add_kv_pair (Some (kvs part)) (Some (key kv)) (Some (value kv)) ;;
        l <- deref l ;;
        route (<[p := mkPartition l]> parts) rest
    end.

(** The calls [add_kv_pair(output, k, v)] a callback makes. *)
Fixpoint emit_all (out : KeyValueList) (pairs : list (string * string))
    : M world KeyValueList :=
    match pairs with
    | [] => ret out
    | (k, v) :: rest =>
        l <- add_kv_pair (Some out) (Some k) (Some v) ;;
        l <- deref l ;;
        emit_all l rest
    end.

(** The body of the outer loop of [run_map_phase] for one input pair. *)
Definition map_one (f : map_fn) (parts : list Partition) (kv : KeyValue)
    : M world (list Partition) :=
    map_output <- create_kv_list ;;
    map_output <- emit_all map_output (f (key kv) (value kv)) ;;
    route parts (items map_output).

Fixpoint map_range (f : map_fn) (parts : list Partition)
      (inputs : list KeyValue) : M world (list Partition) :=
    match inputs with
    | [] => ret parts
    | kv :: rest => parts <- map_one f parts kv ;; map_range f parts rest
    end.

(** [run_map_phase(ctx, thread_id)], run on its own: the mutexes only
      order the appends of different workers. *)
Definition run_map_phase (ctx : MapReduceContext) (thread_id : Z)
    : M world MapReduceContext :=
    require (bool_decide (0 < num_threads ctx)) ;;;
    let items_per_thread := size (input ctx) / num_threads ctx in
    let start_index := wrap64 (thread_id * items_per_thread) in
    let end_index := if bool_decide (thread_id = num_threads ctx - 1)
                     then size (input ctx)
                     else wrap64 ((thread_id + 1) * items_per_thread) in
    (* input.data[i] is read for every i in [start_index, end_index) *)
    require (bool_decide (end_index ≤ size (input ctx))) ;;;
    f <- deref (map_function ctx) ;;
    parts <- map_range f (partitions ctx)
               (take (Z.to_nat (end_index - start_index))
                  (drop (Z.to_nat start_index) (items (input ctx)))) ;;
    ret (mkCtx (input ctx) (output ctx) parts (map_function ctx)
           (reduce_function ctx) (num_threads ctx) (barrier_count ctx)).

End Platform.

Section Run.

(** What the worker threads and the coordinator do between the first
      barrier and the last join.  It is concurrent code and is not
      embedded here; [run_mapreduce] is stated for any behaviour of it. *)
Variable phases : MapReduceContext → M world MapReduceContext.

(** The thread creation loop of [run_mapreduce]. *)
Fixpoint spawn_workers (i : Z) (todo : nat) : M world bool :=
    match todo with
    | O => ret true
    | S todo =>
        ok <- allocate ;;      (* int* thread_id = malloc(sizeof(int)) *)
        if ok : bool then
          ok <- pthread_create i ;;
          if ok : bool then spawn_workers (i + 1) todo
          else eprint "Failed to create worker thread %d" ;;; ret false
        else eprint "Failed to allocate thread ID" ;;; ret false
    end.

(** [run_mapreduce(ctx)]: the returned status and the context. *)
Definition run_mapreduce (ctx : option MapReduceContext)
    : M world (Z * option MapReduceContext) :=
    match ctx with
    | None => eprint "No input data for MapReduce" ;;; ret (-1, ctx)
    | Some c =>
        if decide (size (input c) = 0)
        then eprint "No input data for MapReduce" ;;; ret (-1, ctx)
        else
          ok <- spawn_workers 0 (Z.to_nat (num_threads c)) ;;
          if ok : bool
          then c <- phases c ;; ret (0, Some c)
          else ret (-1, ctx)
    end.

End Run.

(** [strcmp(a, b)]: the order of the two C strings by their characters
    as [unsigned char].  The C standard fixes only the sign of the result,
    which is what is kept. *)
Definition strcmp (a b : string) : comparison :=
  String.compare (c_str a) (c_str b).

(** [compare_keys], the comparison [sort_kv_list] hands to [qsort]. *)
Definition compare_keys (kv1 kv2 : KeyValue) : comparison :=
  strcmp (key kv1) (key kv2).

(** The grouping loop of [run_reduce_phase]:
      [while (j < partition->size
              && strcmp(partition->data[j].key, current_key) == 0)]
    over the pairs from index [j] on; it returns the values list and the
    pairs from the final [j] on. *)
Fixpoint collect_values (current_key : string) (values : KeyValueList)
    (rest : list KeyValue) : M world (KeyValueList * list KeyValue) :=
  match rest with
  | [] => ret (values, [])
  | kv :: rest' =>
      match strcmp (key kv) current_key with
      | Eq =>
          l <- add_kv_pair (Some values) (Some EmptyString) (Some (value kv)) ;;
          values <- deref l ;;
          collect_values current_key values rest'
      | _ => ret (values, rest)
      end
  end.

(** The loop [for (size_t i = 0; i < partition->size; )] over the pairs
    from index [i] on.  Every round moves [i] forward, so the length of
    the partition is fuel enough. *)
Fixpoint reduce_keys (fuel : nat) (reduce : option reduce_fn)
    (out : KeyValueList) (rest : list KeyValue) : M world KeyValueList :=
  match rest with
  | [] => ret out
  | kv :: _ =>
      match fuel with
      | O => out_of_fuel
      | S fuel =>
          values <- create_kv_list ;;
          r <- collect_values (key kv) values rest ;;
          reduce_output <- create_kv_list ;;
          g <- deref reduce ;;
          reduce_output <-
            emit_all reduce_output (g (key kv) (value <$> items r.1)) ;;
          out <- emit_all out ((λ kv, (key kv, value kv))
                                 <$> items reduce_output) ;;
          reduce_keys fuel reduce out r.2
      end
  end.

(** The loop [for (size_t p = start_partition; p < end_partition; p++)]. *)
Fixpoint reduce_partitions (reduce : option reduce_fn)
    (parts : list Partition) (out : KeyValueList) (ps : list Z)
  : M world KeyValueList :=
  match ps with
  | [] => ret out
  | p :: ps =>
      part <- deref (parts !! Z.to_nat p) ;;
      out <- reduce_keys (length (items (kvs part))) reduce out
               (items (kvs part)) ;;
      reduce_partitions reduce parts out ps
  end.

(** [run_reduce_phase(ctx, thread_id)], run on its own: the mutex only
    orders the appends of different workers.  [PARTITIONS / num_threads]
    is a division of [int]s; the products are taken in [size_t]. *)
Definition run_reduce_phase (ctx : MapReduceContext) (thread_id : Z)
  : M world MapReduceContext :=
  require (bool_decide (num_threads ctx ≠ 0)) ;;;
  let partitions_per_thread := wrap64 (PARTITIONS ÷ num_threads ctx) in
  let start_partition := wrap64 (thread_id * partitions_per_thread) in
  (* num_threads - 1 and thread_id + 1 are computed in int *)
  require (bool_decide (- 2 ^ 31 < num_threads ctx)) ;;;
  require (bool_decide (thread_id = num_threads ctx - 1
                        ∨ thread_id + 1 < 2 ^ 31)) ;;;
  let end_partition := if bool_decide (thread_id = num_threads ctx - 1)
                       then PARTITIONS
                       else wrap64 ((thread_id + 1) * partitions_per_thread) in
  out <- reduce_partitions (reduce_function ctx) (partitions ctx) (output ctx)
           (seqZ start_partition (end_partition - start_partition)) ;;
  ret (mkCtx (input ctx) out (partitions ctx) (map_function ctx)
         (reduce_function ctx) (num_threads ctx) (barrier_count ctx)).

(** [int] is 32 bits wide, as [unsigned int] is in [hash_string]. *)
Definition INT_MIN : Z := - 2 ^ 31.
Definition INT_MAX : Z := 2 ^ 31 - 1.
Definition int_range (z : Z) : bool := (INT_MIN <=? z) && (z <=? INT_MAX).

(** [isspace] in the C locale, which is in effect: the program never
    calls [setlocale]. *)
Definition isspace (c : ascii) : bool :=
  let n := Z.of_N (N_of_ascii c) in (9 <=? n) && (n <=? 13) || (n =? 32).

Definition digit_value (c : ascii) : option Z :=
  let n := Z.of_N (N_of_ascii c) in
  if (48 <=? n) && (n <=? 57) then Some (n - 48) else None.

Fixpoint skip_spaces (s : string) : string :=
  match s with
  | String c rest => if isspace c then skip_spaces rest else s
  | EmptyString => s
  end.

(** The decimal digits at the start of [s], read from the left. *)
Fixpoint digits_value (acc : Z) (s : string) : Z :=
  match s with
  | String c rest =>
      match digit_value c with
      | Some d => digits_value (acc * 10 + d) rest
      | None => acc
      end
  | EmptyString => acc
  end.

(** The number [strtol(s, NULL, 10)] reads: white space, an optional
    sign, digits; 0 when there is no digit. *)
Definition decimal_value (s : string) : Z :=
  match skip_spaces s with
  | String c rest =>
      if Ascii.eqb c "-" then - digits_value 0 rest
      else if Ascii.eqb c "+" then digits_value 0 rest
      else digits_value 0 (String c rest)
  | EmptyString => 0
  end.

(** [atoi(s)]: [None] is the undefined behaviour for a number that is no
    [int]. *)
Definition atoi (s : string) : option Z :=
  let v := decimal_value s in if int_range v then Some v else None.

(** The characters [sprintf(buf, "%d", n)] writes. *)
Definition sprintf_d (n : Z) : string := NilZero.string_of_int (Z.to_int n).

(** The loop [count += atoi(values->data[i].value)] of the two reduce
    callbacks; [None] is undefined behaviour ([atoi], or overflow of the
    [int] sum). *)
Fixpoint sum_counts (count : Z) (values : list string) : option Z :=
  match values with
  | [] => Some count
  | v :: values =>
      n ← atoi v;
      if int_range (count + n) then sum_counts (count + n) values else None
  end.

(** [word_count_reduce(key, values, output)]: the pairs it emits. *)
Definition word_count_reduce (key : string) (values : list string)
  : option (list (string * string)) :=
  count ← sum_counts 0 values;
  Some [(key, sprintf_d count)].

(** [char_freq_reduce(key, values, output)]: the same code. *)
Definition char_freq_reduce (key : string) (values : list string)
  : option (list (string * string)) :=
  count ← sum_counts 0 values;
  Some [(key, sprintf_d count)].

Definition MAX_LINE_LENGTH : nat := 4096.

Definition newline : ascii := "010"%char.

(** [fgets(line, n, file)] on the unread rest of the file: the characters
    it stores (at most [n - 1], up to and with the first newline) and
    what stays unread; [None] at the end of the file. *)
Fixpoint fgets_chars (room : nat) (rest : string) : string * string :=
  match room, rest with
  | S room, String c rest' =>
      if Ascii.eqb c newline then (String c EmptyString, rest')
      else let r := fgets_chars room rest' in (String c r.1, r.2)
  | _, _ => (EmptyString, rest)
  end.

Definition fgets (n : nat) (rest : string) : option (string * string) :=
  match rest with
  | EmptyString => None
  | _ => Some (fgets_chars (n - 1) rest)
  end.

(** [len = strlen(line); if (len > 0 && line[len-1] == '\n') line[len-1] = '\0';]
    on the C string in [line]. *)
Fixpoint chop_newline (line : string) : string :=
  match line with
  | EmptyString => EmptyString
  | String c EmptyString =>
      if Ascii.eqb c newline then EmptyString else line
  | String c rest => String c (chop_newline rest)
  end.

(** The loop [while (fgets(line, sizeof(line), file))] of
    [load_data_from_file].  Every round reads at least one character, so
    the length of the file is fuel enough. *)
Fixpoint load_lines (fuel : nat) (input : KeyValueList) (line_number : Z)
    (rest : string) : M world KeyValueList :=
  match fgets MAX_LINE_LENGTH rest with
  | None => ret input
  | Some r =>
      match fuel with
      | O => out_of_fuel
      | S fuel =>
          let line := chop_newline (c_str r.1) in
          (* line_number++ on an int *)
          require (bool_decide (line_number < INT_MAX)) ;;;
          l <- add_kv_pair (Some input) (Some (sprintf_d line_number))
                 (Some line) ;;
          l <- deref l ;;
          load_lines fuel l (line_number + 1) r.2
      end
  end.

(** [load_data_from_file(ctx, filename)] for a context that is there;
    [file] is what [fopen(filename, "r")] finds: [None] when it fails,
    else the characters of the file. *)
Definition load_data_from_file (ctx : MapReduceContext) (file : option string)
  : M world MapReduceContext :=
  match file with
  | None => eprint "Failed to open input file: %s" ;;; ret ctx
  | Some contents =>
      inp <- load_lines (String.length contents) (input ctx) 0 contents ;;
      ret (mkCtx inp (output ctx) (partitions ctx) (map_function ctx)
             (reduce_function ctx) (num_threads ctx) (barrier_count ctx))
  end.

End MapReduce.

(** ** Specification-level definitions for btree.c *)

Module BTreeSpec.
Import BTree.

(** The B-tree [btree_create] returns. *)
Definition empty_tree : BTree := mkTree None 3.

(** A caller whose record lives at address 1; the scenarios insert its
      first byte. *)
Definition dummy_payload : loc := 1%positive.
Definition start_world : world :=
  mkWorld {[ dummy_payload := ["*"%byte; "+"%byte] ]} [] [].

(** [btree_insert(tree, k, data, data_size)] for each [k] in turn. *)
Fixpoint insert_keys (ks : list Z) (data : option loc) (data_size : nat)
    (tree : option BTree) : M world (option BTree) :=
  match ks with
  | [] => ret tree
  | k :: ks => tree <- btree_insert tree k data data_size ;;
               insert_keys ks data data_size tree
  end.

(** The keys in the order [btree_traverse] prints them. *)
Definition traversal_keys (tree : option BTree) : list Z :=
  snd <$> btree_traverse tree.

(** Number of levels of the tree. *)
Definition depth (tree : option BTree) : nat :=
  from_option height O (tree ≫= root).

Definition root_keys (tree : option BTree) : list Z :=
  from_option (λ r, key <$> keys r) [] (tree ≫= root).

(** The nodes below the root, and the least number of keys one holds. *)
Fixpoint nodes (n : BTreeNode) : list BTreeNode :=
  n :: concat (nodes <$> children n).

Definition non_root_nodes (tree : option BTree) : list BTreeNode :=
  from_option (λ r, concat (nodes <$> children r)) [] (tree ≫= root).

(** The key/value slots of a subtree in key order: the abstraction of
      [btree_traverse_node]. *)
Fixpoint elems (n : BTreeNode) : list KeyValue :=
  in_order (if is_leaf n then [] else elems <$> children n) (keys n).

Definition tree_elems (tree : option BTree) : list KeyValue :=
  from_option elems [] (tree ≫= root).

(** The part of an in-order walk before child [i]: child 0, key 0, ...,
      child [i - 1], key [i - 1]. *)
Fixpoint walk_prefix {A} (subs : list (list A)) (ks : list A) : list A :=
  match subs, ks with
  | s :: subs, k :: ks => s ++ k :: walk_prefix subs ks
  | _, _ => []
  end.

(** A subtree all of whose leaves are [h] levels down, every node holding
      between 1 and ORDER - 1 keys and an internal node one child more than
      keys: the shape every tree built by [btree_insert] and [btree_delete]
      has. *)
Fixpoint shaped (h : nat) (n : BTreeNode) : Prop :=
  (1 ≤ num_keys n ≤ ORDER - 1)%nat
  ∧ match h with
    | O => is_leaf n = true ∧ children n = []
    | S h => is_leaf n = false
             ∧ length (children n) = S (num_keys n)
             ∧ Forall (shaped h) (children n)
    end.

(** Keys in ascending order (equal keys allowed: [btree_insert] does not
      reject a key that is present). *)
Definition ordered (l : list KeyValue) : Prop :=
  StronglySorted Z.le (key <$> l).

(** The payload blocks the slots point to. *)
Definition payloads (l : list KeyValue) : list loc :=
  omap (λ kv, data (value kv)) l.

(** Every non-null payload pointer is a live block, and no two slots share
      one. *)
Definition owned (w : world) (l : list KeyValue) : Prop :=
  NoDup (payloads l) ∧ ∀ p, p ∈ payloads l → is_Some (heap w !! p).

(** A B-tree as the operations of btree.c build it. *)
Definition well_formed (w : world) (tree : option BTree) : Prop :=
  match tree ≫= root with
  | None => True
  | Some r => (∃ h, shaped h r) ∧ ordered (elems r) ∧ owned w (elems r)
  end.

(** The key/value contents of the tree: each key with the bytes of its
      payload block. *)
Definition contents (w : world) (tree : option BTree)
    : list (Z * option (list byte)) :=
  (λ kv, (key kv, data (value kv) ≫= (λ p, heap w !! p))) <$> tree_elems tree.

(** Every node of the subtree has its own keys in ascending order and does
      not hold [key]: what the search for [key] relies on along any path. *)
Fixpoint key_free (h : nat) (key : Z) (n : BTreeNode) : Prop :=
  ordered (keys n)
  ∧ (key ∉ BTree.key <$> keys n)
  ∧ match h with
    | O => True
    | S h => Forall (key_free h key) (children n)
    end.

(** No allocation request fails. *)
Definition allocations_succeed (w : world) : Prop :=
  Forall (λ b, b = true) (alloc_oracle w).

(** The tree and the program state the insertions of 10, 20, 5, 6, 12 lead
      to from [start_world]: root [6] over the leaves [5] and [10; 12].
      Block 1 is the caller's record, block 3 the payload of the lost key 20. *)
Definition slot (k : Z) (p : loc) : KeyValue := mkKV k (mkValue (Some p) 1).

Definition sample_world : world :=
  mkWorld
    (<[1%positive := ["*"%byte; "+"%byte]]>
     (<[2%positive := ["*"%byte]]> (<[3%positive := ["*"%byte]]>
     (<[4%positive := ["*"%byte]]> (<[5%positive := ["*"%byte]]>
     (<[6%positive := ["*"%byte]]> ∅))))))
    [] [].

Definition sample_btree : BTree :=
  mkTree
    (Some (Node false [slot 6 5]
             [Node true [slot 5 4] [];
              Node true [slot 10 2; slot 12 6] []]))
    3.

Definition sample_tree : option BTree := Some sample_btree.

(** A node as [shaped] describes it, except that it may hold no key: the
    root as a deletion leaves it before [btree_delete] replaces it. *)
Definition shaped_top (h : nat) (n : BTreeNode) : Prop :=
  (num_keys n ≤ ORDER - 1)%nat
  ∧ match h with
    | O => is_leaf n = true ∧ children n = []
    | S h => is_leaf n = false
             ∧ length (children n) = S (num_keys n)
             ∧ Forall (shaped h) (children n)
    end.

(** The program state in which a failed allocation ends the process: the
    request is used up and the message is on stderr. *)
Definition out_of_memory (w : world) : world :=
  mkWorld (heap w) (tail (alloc_oracle w))
    (stderr w ++ ["Memory allocation failed"%string]).

(** The program state after the blocks [freed] have been released. *)
Definition release (freed : list loc) (w : world) : world :=
  mkWorld (foldr delete (heap w) freed) (alloc_oracle w) (stderr w).

(** What a deletion with result [b] leaves of a walk [l]: for [true] the
    keys of [l] without one occurrence of [key], for [false] the walk
    itself, which does not hold [key]. *)
Definition removed (key : Z) (b : bool) (l l' : list KeyValue) : Prop :=
  if b
  then ∃ k1 k2, BTree.key <$> l = k1 ++ key :: k2
                ∧ BTree.key <$> l' = k1 ++ k2
  else l' = l ∧ key ∉ BTree.key <$> l.

(** What [btree_delete_from_node] makes of a subtree [n] of height [h] in
    the state [w]: the node keeps its shape but for one key at the top, and
    every payload block of the subtree is afterwards still in the subtree
    or among the blocks released. *)
Definition deletion (key : Z) (h : nat) (n : BTreeNode) (w : world)
    (b : bool) (n' : BTreeNode) (w' : world) : Prop :=
  shaped_top h n' ∧ (num_keys n ≤ S (num_keys n'))%nat
  ∧ removed key b (elems n) (elems n')
  ∧ ∃ freed, w' = release freed w
             ∧ payloads (elems n) ≡ₚ freed ++ payloads (elems n')
             ∧ (b = false → freed = []).

(** Every node of the tree. *)
Definition tree_nodes (tree : option BTree) : list BTreeNode :=
  from_option nodes [] (tree ≫= root).

(** The slot [btree_insert] adds for [key] when the payload copy is the
    block [p]. *)
Definition new_slot (key : Z) (p : loc) (data_size : nat) : KeyValue :=
  mkKV key (mkValue (Some p) data_size).

(** A client of the index: insertions of caller records and deletions. *)
Inductive op : Type :=
  | Insert (key : Z) (record : loc) (data_size : nat)
  | Delete (key : Z).

Fixpoint run_ops (ops : list op) (tree : option BTree)
  : M world (option BTree) :=
  match ops with
  | [] => ret tree
  | Insert k record n :: ops =>
      tree <- btree_insert tree k (Some record) n ;; run_ops ops tree
  | Delete k :: ops =>
      r <- btree_delete tree k ;; run_ops ops r.2
  end.

(** The client from the creation of the index on. *)
Definition index_session (ops : list op) : M world (option BTree) :=
  tree <- btree_create ;; run_ops ops (Some tree).

(** The record an insertion reads is a block of the caller holding at
    least [data_size] bytes. *)
Definition reads_from (caller : gmap loc (list byte)) (o : op) : Prop :=
  match o with
  | Insert _ record n =>
      ∃ bytes, caller !! record = Some bytes ∧ (n ≤ length bytes)%nat
  | Delete _ => True
  end.

End BTreeSpec.

(** ** Specification-level definitions for mapreduce.c *)

Module MapReduceSpec.
Import MapReduce.

(** The hash as the specification words it:
    [h ← 5381; for each byte c: h ← h·33 + c], modulo [2^32]. *)
Definition djb2 (cs : list Z) : Z :=
  fold_left (λ h c, (h * 33 + c) mod 2 ^ 32) cs 5381.

(** A character as the byte it is, and as the value a signed [char]
    gives it (two's complement). *)
Definition byte_value (c : ascii) : Z := Z.of_N (N_of_ascii c).
Definition signed_char_value (c : ascii) : Z :=
  if 128 <=? byte_value c then byte_value c - 256 else byte_value c.

(** The pair [add_kv_pair] stores for the arguments [k] and [v]. *)
Definition stored (k v : string) : KeyValue :=
  mkKV (bounded_copy MAX_KEY_LENGTH k) (bounded_copy MAX_VALUE_LENGTH v).

(** A list as [create_kv_list] and [add_kv_pair] leave it, small enough
    for its doubled byte size to be a [size_t]. *)
Definition kv_list_ok (l : KeyValueList) : Prop :=
  is_Some (data l) ∧ 0 < capacity l ∧ size l ≤ capacity l
  ∧ 2 * capacity l * sizeof_KeyValue < 2 ^ 64.

(** No allocation request fails. *)
Definition allocations_succeed (w : world) : Prop :=
  Forall (λ b, b = true) (alloc_oracle w).

(** A configuration the contract of configure rules out. *)
Definition invalid_configuration (n : Z) (map : option map_fn)
    (reduce : option reduce_fn) : Prop :=
  ¬ (1 ≤ n ≤ MAX_THREADS) ∨ map = None ∨ reduce = None.

Definition some_context : MapReduceContext :=
  mkCtx (mkList None 0) (mkList None 0) [] None None 0 0.

Definition quiet_world : world := mkWorld [] [] [] [].

Definition no_map : map_fn := λ _ _, [].
Definition no_reduce : reduce_fn := λ _ _, [].

(** A live list whose capacity is the initial one or came from doubling
    when the list was full: what [create_kv_list] and [add_kv_pair] make. *)
Definition roomy (l : KeyValueList) : Prop :=
  is_Some (data l) ∧ size l ≤ capacity l
  ∧ (∃ j : nat, capacity l = INITIAL_BUCKET_SIZE * 2 ^ Z.of_nat j)
  ∧ (capacity l = INITIAL_BUCKET_SIZE ∨ capacity l < 2 * size l).

(** A number of pairs far below what overflows the byte size of a list. *)
Definition list_bound : Z := 2 ^ 50.

(** The pairs a callback emits, as [add_kv_pair] stores them. *)
Definition stored_pairs (pairs : list (string * string)) : list KeyValue :=
  (λ p, stored p.1 p.2) <$> pairs.

(** A pair as [add_kv_pair] stores it: both strings fit their buffers and
    hold no NUL. *)
Definition is_stored (kv : KeyValue) : Prop :=
  stored (key kv) (value kv) = kv.

(** The context [run_map_phase] returns: only the partitions change. *)
Definition with_partitions (ctx : MapReduceContext) (parts : list Partition)
  : MapReduceContext :=
  mkCtx (input ctx) (output ctx) parts (map_function ctx)
    (reduce_function ctx) (num_threads ctx) (barrier_count ctx).

(** The map phases of the workers in [ids], one after the other. *)
Fixpoint run_map_phases (sgn : bool) (ctx : MapReduceContext) (ids : list Z)
  : M world MapReduceContext :=
  match ids with
  | [] => ret ctx
  | id :: ids => ctx <- run_map_phase sgn ctx id ;; run_map_phases sgn ctx ids
  end.

(** Everything the map callback emits for the input pairs, in order. *)
Definition emitted (f : map_fn) (inputs : list KeyValue) : list KeyValue :=
  inputs ≫= λ kv, stored_pairs (f (key kv) (value kv)).

(** The runs of neighbouring pairs with the same key, each with the key
    buffer of its first pair and its values in order. *)
Fixpoint runs_from (current_key : string) (values : list string)
    (l : list KeyValue) : list (string * list string) :=
  match l with
  | [] => [(current_key, values)]
  | kv :: rest =>
      match strcmp (key kv) current_key with
      | Eq => runs_from current_key (values ++ [value kv]) rest
      | _ => (current_key, values) :: runs_from (key kv) [value kv] rest
      end
  end.

Definition key_runs (l : list KeyValue) : list (string * list string) :=
  match l with
  | [] => []
  | kv :: rest => runs_from (key kv) [value kv] rest
  end.

(** What the reduce callback emits for the runs, as stored; it is handed
    the values as the values list holds them. *)
Definition reduced (g : reduce_fn) (runs : list (string * list string))
  : list KeyValue :=
  runs ≫= λ r, stored_pairs (g r.1 (bounded_copy MAX_VALUE_LENGTH <$> r.2)).

(** The context [run_reduce_phase] returns: only the output changes. *)
Definition with_output (ctx : MapReduceContext) (out : KeyValueList)
  : MapReduceContext :=
  mkCtx (input ctx) out (partitions ctx) (map_function ctx)
    (reduce_function ctx) (num_threads ctx) (barrier_count ctx).

(** The reduce phases of the workers in [ids], one after the other. *)
Fixpoint run_reduce_phases (ctx : MapReduceContext) (ids : list Z)
  : M world MapReduceContext :=
  match ids with
  | [] => ret ctx
  | id :: ids => ctx <- run_reduce_phase ctx id ;; run_reduce_phases ctx ids
  end.

(** A text file: the lines, each ended by a newline, then the characters
    after the last newline (none when the file ends in a newline). *)
Definition text_of (lines : list string) (last : string) : string :=
  foldr (λ l rest, l +:+ String newline rest) last lines.

Definition no_newline (l : string) : Prop :=
  newline ∉ list_ascii_of_string l.

(** The lines [load_data_from_file] finds in [text_of lines last]. *)
Definition lines_of (lines : list string) (last : string) : list string :=
  lines ++ match last with EmptyString => [] | _ => [last] end.

(** A list sorted by [compare_keys], as [qsort] leaves it. *)
Definition sorted_by_key (l : list KeyValue) : Prop :=
  StronglySorted (λ a b, compare_keys a b ≠ Gt) l.

End MapReduceSpec.

(** * Reasoning about computations *)

Module ExecFacts.

Lemma bind_returned {S A B} (m : M S A) (k : A → M S B) s b s' :
  bind m k s = Returned b s' →
  ∃ a s1, m s = Returned a s1 ∧ k a s1 = Returned b s'.
Proof. unfold bind. destruct (m s); try done. eauto. Qed.

Lemma bind_step {S A B} (m : M S A) (k : A → M S B) s a s1 :
  m s = Returned a s1 → bind m k s = k a s1.
Proof. unfold bind. by intros ->. Qed.

Lemma ret_returned {S A} (a b : A) (s s' : S) :
  ret a s = Returned b s' → a = b ∧ s = s'.
Proof. by intros [= -> ->]. Qed.

Lemma deref_returned {S A} (o : option A) (s s' : S) a :
  deref o s = Returned a s' → o = Some a ∧ s = s'.
Proof. destruct o; [|done]. by intros [= -> ->]. Qed.

Lemma deref_step {S A} (o : option A) (s : S) a :
  o = Some a → deref o s = Returned a s.
Proof. by intros ->. Qed.

Lemma require_returned {S} (b : bool) (s s' : S) u :
  require b s = Returned u s' → b = true ∧ s = s'.
Proof. destruct b; [|done]. by intros [= _ ->]. Qed.

Lemma require_step {S} (b : bool) (s : S) :
  b = true → require b s = Returned tt s.
Proof. by intros ->. Qed.

End ExecFacts.
Import ExecFacts.

(** * Theorems about btree.c *)

Module BTreeFacts.
Import BTree BTreeSpec.

(** ** In-order walks *)

Section InOrder.
Context {A : Type}.
Implicit Types (subs : list (list A)) (ks : list A).

Lemma in_order_no_subs ks : in_order [] ks = ks.
Proof. induction ks as [|k ks IH]; simpl; [done|by rewrite IH]. Qed.

Lemma in_order_cons s subs ks :
  in_order (s :: subs) ks = s ++ in_order ([] :: subs) ks.
Proof. destruct ks; simpl; [by rewrite app_nil_r|done]. Qed.

Lemma in_order_app sl kl subs ks :
  length sl = length kl →
  in_order (sl ++ subs) (kl ++ ks) = walk_prefix sl kl ++ in_order subs ks.
Proof.
  revert kl. induction sl as [|s sl IH]; intros [|k kl] Hlen; try done.
  simpl in *. rewrite IH by lia. by rewrite <- app_assoc.
Qed.

Lemma in_order_snoc subs ks m k :
  length subs = S (length ks) →
  in_order (subs ++ [m]) (ks ++ [k]) = in_order subs ks ++ k :: m.
Proof.
  intros Hlen.
  destruct (decide (subs = [])) as [->|Hne]; [done|].
  destruct (exists_last Hne) as (sl & s & ->).
  rewrite length_app in Hlen. simpl in Hlen.
  assert (length sl = length ks) as Hl by lia.
  rewrite <- app_assoc, (in_order_app sl ks) by done.
  rewrite <- (app_nil_r ks) at 2. rewrite (in_order_app sl ks) by done.
  simpl. by rewrite <- !app_assoc.
Qed.

Lemma walk_prefix_snoc sl kl (s : list A) (k : A) :
  length sl = length kl →
  walk_prefix (sl ++ [s]) (kl ++ [k]) = walk_prefix sl kl ++ s ++ [k].
Proof.
  revert kl. induction sl as [|s0 sl IH]; intros [|k0 kl] Hlen; try done.
  simpl in *. rewrite IH by lia. by rewrite <- !app_assoc.
Qed.

End InOrder.

(** ** The abstraction function *)

Lemma elems_leaf n : is_leaf n = true → elems n = keys n.
Proof. destruct n as [l ks cs]. simpl. intros ->. apply in_order_no_subs. Qed.

Lemma elems_internal n :
  is_leaf n = false → elems n = in_order (elems <$> children n) (keys n).
Proof. destruct n as [l ks cs]. simpl. by intros ->. Qed.

(** The walk of an internal node around its child [c]. *)
Lemma elems_around n cl c cr kl kr :
  is_leaf n = false → children n = cl ++ c :: cr → keys n = kl ++ kr →
  length kl = length cl →
  elems n = walk_prefix (elems <$> cl) kl ++ elems c
            ++ in_order ([] :: (elems <$> cr)) kr.
Proof.
  intros Hl Hc Hk Hlen. rewrite (elems_internal _ Hl), Hc, Hk.
  rewrite fmap_app, fmap_cons, in_order_app by by rewrite length_fmap.
  by rewrite in_order_cons.
Qed.

(** ** Arrays cut around an index *)

Section Middle.
Context {A : Type}.
Implicit Types (l : list A) (x y z : A).

Lemma lookup_mid l1 x l2 : (l1 ++ x :: l2) !! length l1 = Some x.
Proof. by apply list_lookup_middle. Qed.

Lemma lookup_mid_next l1 x y l2 : (l1 ++ x :: y :: l2) !! S (length l1) = Some y.
Proof.
  rewrite (cons_middle x), app_assoc.
  apply list_lookup_middle. rewrite length_app. simpl. lia.
Qed.

Lemma delete_mid_next l1 x y l2 :
  delete (S (length l1)) (l1 ++ x :: y :: l2) = l1 ++ x :: l2.
Proof.
  rewrite (cons_middle x), app_assoc.
  replace (S (length l1)) with (length (l1 ++ [x]))
    by (rewrite length_app; simpl; lia).
  by rewrite delete_middle, <- app_assoc.
Qed.

Lemma insert_mid l1 x z l2 : <[length l1 := z]> (l1 ++ x :: l2) = l1 ++ z :: l2.
Proof. rewrite insert_app_r_alt by lia. by rewrite Nat.sub_diag. Qed.

Lemma insert_mid_next l1 x y z l2 :
  <[S (length l1) := z]> (l1 ++ x :: y :: l2) = l1 ++ x :: z :: l2.
Proof.
  rewrite insert_app_r_alt by lia.
  by replace (S (length l1) - length l1)%nat with 1%nat by lia.
Qed.

Lemma take_mid l1 l2 : take (length l1) (l1 ++ l2) = l1.
Proof. by rewrite take_app_length. Qed.

Lemma drop_mid l1 l2 : drop (length l1) (l1 ++ l2) = l2.
Proof. by rewrite drop_app_length. Qed.

Lemma split_at l i : (i ≤ length l)%nat →
  ∃ l1 l2, l = l1 ++ l2 ∧ length l1 = i.
Proof.
  intros Hi. exists (take i l), (drop i l).
  split; [by rewrite take_drop|]. rewrite length_take. lia.
Qed.

Lemma split_last l n : length l = S n →
  ∃ l1 x, l = l1 ++ [x] ∧ length l1 = n.
Proof.
  intros Hl. destruct (decide (l = [])) as [->|Hne]; [done|].
  destruct (exists_last Hne) as (l1 & x & ->). exists l1, x. split; [done|].
  rewrite length_app in Hl. simpl in Hl. lia.
Qed.

Lemma split_first l n : length l = S n →
  ∃ x l2, l = x :: l2 ∧ length l2 = n.
Proof. destruct l as [|x l2]; [done|]. intros [= <-]. eauto. Qed.

End Middle.

(** ** Shape *)

Lemma shaped_keys h n : shaped h n → (1 ≤ num_keys n ≤ ORDER - 1)%nat.
Proof. destruct h; simpl; tauto. Qed.

Lemma shaped_leaf_iff h n : shaped h n → (is_leaf n = true ↔ h = O).
Proof.
  destruct h; simpl; intros (_ & Hl & _); rewrite Hl; split; try done.
Qed.

Lemma slots_all {A} (l : list A) n : length l = n → slots 0 n l = Some l.
Proof.
  intros <-. unfold slots. rewrite decide_True by (simpl; lia).
  by rewrite drop_0, firstn_all.
Qed.

(** Arithmetic on key counts, and the capacity guards. *)
Ltac counts :=
  unfold num_keys, ORDER in *; cbn [keys children is_leaf] in *;
  rewrite ?length_app, ?length_cons, ?length_take, ?length_drop in *;
  simpl in *; lia.

Ltac guards :=
  unfold fits, owns_children; cbn [keys children is_leaf];
  rewrite ?andb_True; repeat split; apply bool_decide_pack; counts.

(** ** Merging two children *)

Lemma merge_children_spec h lf kl down kr cl c sib cr :
  length kl = length cl → shaped h c → shaped h sib →
  (num_keys c + num_keys sib + 1 ≤ ORDER - 1)%nat →
  ∃ m, btree_merge_children
         (Node lf (kl ++ down :: kr) (cl ++ c :: sib :: cr)) (length cl)
       = Some (Node lf (kl ++ kr) (cl ++ m :: cr))
       ∧ shaped h m
       ∧ elems m = elems c ++ down :: elems sib.
Proof.
  intros Hlen Hc Hs Hfit. unfold btree_merge_children. cbn [children keys is_leaf].
  rewrite lookup_mid. cbn [mbind option_bind].
  rewrite Nat.add_1_r, lookup_mid_next. cbn [mbind option_bind].
  rewrite <- Hlen, lookup_mid. cbn [mbind option_bind].
  assert (∀ m, Node lf (delete (length kl) (kl ++ down :: kr))
                 (<[length kl := m]> (delete (S (length kl)) (cl ++ c :: sib :: cr)))
               = Node lf (kl ++ kr) (cl ++ m :: cr)) as Hres.
  { intros m. by rewrite delete_middle, Hlen, delete_mid_next, insert_mid. }
  destruct h as [|h]; simpl in Hc, Hs.
  - destruct Hc as (Hkc & Hlc & Hcc), Hs as (Hks & Hls & Hcs).
    rewrite Hlc. cbn [mbind option_bind].
    rewrite option_guard_True.
    2:{ rewrite Hcc. guards. }
    rewrite Hres. eexists. split; [done|]. split.
    + simpl. rewrite Hcc. split_and!; try done; counts.
    + rewrite (elems_leaf c), (elems_leaf sib) by done.
      by rewrite elems_leaf.
  - destruct Hc as (Hkc & Hlc & Hnc & Hcc), Hs as (Hks & Hls & Hns & Hcs).
    rewrite Hlc. cbn [mbind option_bind].
    rewrite option_guard_True by guards.
    rewrite slots_all by done. cbn [mbind option_bind].
    rewrite option_guard_True.
    2:{ guards. }
    rewrite Hres. eexists. split; [done|]. split.
    + simpl. split_and!; try done; try counts. by apply Forall_app.
    + rewrite (elems_internal c), (elems_internal sib) by done.
      rewrite elems_internal by done. cbn [children keys].
      rewrite fmap_app.
      destruct (split_last (elems <$> children c) (length (keys c)))
        as (sl & s & -> & Hsl); [by rewrite length_fmap|].
      rewrite <- app_assoc, in_order_app by done.
      rewrite <- (app_nil_r (keys c)) at 2. rewrite in_order_app by done.
      simpl. by rewrite <- !app_assoc.
Qed.

(** ** Borrowing a key through the parent *)

Lemma borrow_from_prev_spec h lf kl down kr cl sib c cr :
  length kl = length cl → shaped h sib → shaped h c →
  (2 ≤ num_keys sib)%nat → (num_keys c + 1 ≤ ORDER - 1)%nat →
  ∃ up sib' c',
    btree_borrow_from_prev
      (Node lf (kl ++ down :: kr) (cl ++ sib :: c :: cr)) (S (length cl))
    = Some (Node lf (kl ++ up :: kr) (cl ++ sib' :: c' :: cr))
    ∧ shaped h sib' ∧ shaped h c'
    ∧ elems sib' ++ up :: elems c' = elems sib ++ down :: elems c
    ∧ (∃ pre, elems c' = pre ++ elems c)
    ∧ (2 ≤ num_keys c')%nat.
Proof.
  intros Hlen Hs Hc Hrich Hfit. unfold btree_borrow_from_prev.
  cbn [children keys is_leaf].
  replace (S (length cl) - 1)%nat with (length cl) by lia.
  rewrite lookup_mid_next. cbn [mbind option_bind].
  rewrite option_guard_True by done.
  rewrite lookup_mid, <- Hlen, lookup_mid. cbn [mbind option_bind].
  rewrite option_guard_True by lia.
  assert (∀ up s' c',
            Node lf (<[length kl := up]> (kl ++ down :: kr))
              (<[S (length kl) := c']> (<[length kl := s']> (cl ++ sib :: c :: cr)))
            = Node lf (kl ++ up :: kr) (cl ++ s' :: c' :: cr)) as Hres.
  { intros up s' c'. by rewrite insert_mid, Hlen, insert_mid, insert_mid_next. }
  destruct (split_last (keys sib) (num_keys sib - 1)) as (ks0 & up & Hks & Hks0);
    [unfold num_keys in *; lia|].
  assert (keys sib !! (num_keys sib - 1)%nat = Some up) as ->.
  { rewrite Hks, <- Hks0. apply lookup_mid. }
  cbn [mbind option_bind].
  assert (take (num_keys sib - 1) (keys sib) = ks0) as ->.
  { rewrite Hks, <- Hks0. apply take_mid. }
  destruct h as [|h]; simpl in Hc, Hs.
  - destruct Hc as (Hkc & Hlc & Hcc), Hs as (Hk & Hls & Hcs).
    rewrite Hlc. cbn [mbind option_bind].
    rewrite option_guard_True by (rewrite Hcc; guards).
    rewrite Hres. eexists _, _, _. split; [done|].
    split_and!.
    + simpl. split_and!; try done; counts.
    + simpl. rewrite Hcc. split_and!; try done; counts.
    + rewrite !elems_leaf by done. cbn [keys]. rewrite Hks.
      by rewrite <- app_assoc.
    + rewrite !elems_leaf by done. cbn [keys]. by exists [down].
    + counts.
  - destruct Hc as (Hkc & Hlc & Hnc & Hcc), Hs as (Hk & Hls & Hns & Hcs).
    rewrite Hlc.
    destruct (split_last (children sib) (num_keys sib)) as (cs0 & m & Hcs0 & Hl0);
      [done|].
    assert (children sib !! num_keys sib = Some m) as ->.
    { rewrite Hcs0, <- Hl0. apply lookup_mid. }
    cbn [mbind option_bind].
    assert (take (num_keys sib) (children sib) = cs0) as ->.
    { rewrite Hcs0, <- Hl0. apply take_mid. }
    rewrite option_guard_True by guards.
    rewrite Hres. eexists _, _, _. split; [done|].
    rewrite Hcs0 in Hcs. apply Forall_app in Hcs as [Hcs Hm].
    rewrite Forall_singleton in Hm.
    split_and!.
    + simpl. split_and!; try done; counts.
    + simpl. split_and!; try done; try counts. by constructor.
    + rewrite (elems_internal sib), (elems_internal c) by done.
      rewrite !elems_internal by done. cbn [children keys].
      rewrite Hcs0, Hks, !fmap_app. cbn [fmap list_fmap].
      rewrite in_order_snoc by (rewrite length_fmap; counts).
      cbn [app fmap list_fmap in_order head tail default].
      by rewrite <- !app_assoc.
    + rewrite (elems_internal c) by done. rewrite elems_internal by done.
      cbn [children keys app fmap list_fmap in_order head tail default].
      by exists (elems m ++ [down]); rewrite <- app_assoc.
    + counts.
Qed.

Lemma borrow_from_next_spec h lf kl down kr cl c sib cr :
  length kl = length cl → shaped h c → shaped h sib →
  (2 ≤ num_keys sib)%nat → (num_keys c + 1 ≤ ORDER - 1)%nat →
  ∃ up c' sib',
    btree_borrow_from_next
      (Node lf (kl ++ down :: kr) (cl ++ c :: sib :: cr)) (length cl)
    = Some (Node lf (kl ++ up :: kr) (cl ++ c' :: sib' :: cr))
    ∧ shaped h c' ∧ shaped h sib'
    ∧ elems c' ++ up :: elems sib' = elems c ++ down :: elems sib
    ∧ (∃ post, elems c' = elems c ++ post)
    ∧ (2 ≤ num_keys c')%nat.
Proof.
  intros Hlen Hc Hs Hrich Hfit. unfold btree_borrow_from_next.
  cbn [children keys is_leaf].
  rewrite Nat.add_1_r, lookup_mid, lookup_mid_next, <- Hlen, lookup_mid.
  cbn [mbind option_bind].
  assert (∀ up s' c',
            Node lf (<[length kl := up]> (kl ++ down :: kr))
              (<[length kl := c']> (<[S (length kl) := s']> (cl ++ c :: sib :: cr)))
            = Node lf (kl ++ up :: kr) (cl ++ c' :: s' :: cr)) as Hres.
  { intros up s' c'. by rewrite insert_mid, Hlen, insert_mid_next, insert_mid. }
  destruct (split_first (keys sib) (num_keys sib - 1)) as (up & ks1 & Hks & Hks1);
    [unfold num_keys in *; lia|].
  rewrite Hks. cbn [lookup list_lookup drop].
  destruct h as [|h]; simpl in Hc, Hs.
  - destruct Hc as (Hkc & Hlc & Hcc), Hs as (Hk & Hls & Hcs).
    rewrite Hlc, Hls. cbn [mbind option_bind].
    rewrite option_guard_True by (rewrite Hcc; guards).
    rewrite Hres. eexists _, _, _. split; [done|].
    split_and!.
    + simpl. rewrite Hcc. split_and!; try done; counts.
    + simpl. split_and!; try done; counts.
    + rewrite !elems_leaf by done. cbn [keys]. rewrite Hks.
      by rewrite <- app_assoc.
    + rewrite !elems_leaf by done. cbn [keys]. by exists [down].
    + counts.
  - destruct Hc as (Hkc & Hlc & Hnc & Hcc), Hs as (Hk & Hls & Hns & Hcs).
    rewrite Hlc, Hls.
    destruct (split_first (children sib) (num_keys sib)) as (m & cs1 & Hcs1 & Hl1);
      [done|].
    rewrite option_guard_True by guards.
    rewrite Hcs1. cbn [lookup list_lookup drop mbind option_bind].
    rewrite option_guard_True by guards.
    rewrite Hres. eexists _, _, _. split; [done|].
    rewrite Hcs1 in Hcs. apply Forall_cons in Hcs as [Hm Hcs].
    split_and!.
    + simpl. split_and!; try done; try counts.
      apply Forall_app. split; [done|by constructor].
    + simpl. split_and!; try done; counts.
    + rewrite (elems_internal sib), (elems_internal c) by done.
      rewrite !elems_internal by done. cbn [children keys].
      rewrite Hcs1, Hks, !fmap_app. cbn [fmap list_fmap].
      rewrite in_order_snoc by (rewrite length_fmap; counts).
      cbn [app fmap list_fmap in_order head tail default].
      by rewrite <- !app_assoc.
    + rewrite (elems_internal c) by done. rewrite elems_internal by done.
      cbn [children keys]. rewrite fmap_app. cbn [fmap list_fmap].
      rewrite in_order_snoc by (rewrite length_fmap; counts). eauto.
    + counts.
Qed.

(** ** Walks of a node cut around one or two children *)

Lemma split_two {A} (l : list A) i x y :
  l !! i = Some x → l !! S i = Some y →
  ∃ l1 l2, l = l1 ++ x :: y :: l2 ∧ length l1 = i.
Proof.
  intros Hx Hy. apply list_elem_of_split_length in Hx as (l1 & l2 & -> & ->).
  exists l1. rewrite lookup_app_r in Hy by lia.
  replace (S (length l1) - length l1)%nat with 1%nat in Hy by lia.
  destruct l2 as [|y' l2]; [done|]. simpl in Hy. injection Hy as ->. eauto.
Qed.

Lemma split_key {A} (l : list A) i : (i < length l)%nat →
  ∃ l1 x l2, l = l1 ++ x :: l2 ∧ length l1 = i.
Proof.
  intros Hi. destruct (lookup_lt_is_Some_2 l i Hi) as [x Hx].
  apply list_elem_of_split_length in Hx as (l1 & l2 & -> & ->). eauto.
Qed.

Lemma elems_one kl kr cl c cr :
  length kl = length cl →
  elems (Node false (kl ++ kr) (cl ++ c :: cr))
  = walk_prefix (elems <$> cl) kl ++ elems c
    ++ in_order ([] :: (elems <$> cr)) kr.
Proof. intros. by apply elems_around. Qed.

Lemma elems_two kl k kr cl a b cr :
  length kl = length cl →
  elems (Node false (kl ++ k :: kr) (cl ++ a :: b :: cr))
  = walk_prefix (elems <$> cl) kl ++ (elems a ++ k :: elems b)
    ++ in_order ([] :: (elems <$> cr)) kr.
Proof.
  intros Hlen. rewrite elems_one by done. cbn [fmap list_fmap].
  cbn [in_order head tail default app]. rewrite in_order_cons.
  by rewrite <- !app_assoc.
Qed.

(** ** Filling an under-full child *)

Lemma fill_child_spec h n idx c :
  shaped (S h) n → children n !! idx = Some c →
  (num_keys c < ORDER / 2)%nat →
  ∃ n1 tgt c1,
    btree_fill_child n idx = Some n1
    ∧ tgt = (if bool_decide (idx = num_keys n)
                && bool_decide (num_keys n1 < idx)%nat
             then (idx - 1)%nat else idx)
    ∧ children n1 !! tgt = Some c1
    ∧ shaped h c1
    ∧ is_leaf n1 = false
    ∧ (tgt ≤ num_keys n1)%nat
    ∧ elems n1 = elems n
    ∧ (∀ x, x ∈ elems c → x ∈ elems c1).
Proof.
  destruct n as [lf ks cs]. cbn [shaped children keys is_leaf].
  intros (Hk & -> & Hn & Hcs) Hc Hpoor.
  unfold num_keys in Hk, Hn |- *. cbn [keys] in Hk, Hn |- *.
  assert (idx ≤ length ks)%nat as Hidx by (apply lookup_lt_Some in Hc; lia).
  assert (shaped h c) as Hsc by (eapply Forall_lookup_1; eauto).
  change (ORDER / 2)%nat with 2%nat in *.
  unfold btree_fill_child. cbn [children keys].
  change (num_keys (Node false ks cs)) with (length ks).
  change (ORDER / 2)%nat with 2%nat.
  (* is there a previous sibling with a key to spare? *)
  assert (∃ b, (if decide (idx = O) then Some false
                else p ← cs !! (idx - 1)%nat; Some (bool_decide (2 ≤ num_keys p)%nat))
               = Some b
               ∧ (b = true → idx ≠ O ∧ ∃ p, cs !! (idx - 1)%nat = Some p
                                         ∧ (2 ≤ num_keys p)%nat)
               ∧ (b = false → idx ≠ O → ∃ p, cs !! (idx - 1)%nat = Some p
                                         ∧ (num_keys p < 2)%nat))
    as (prev_rich & -> & Hprev1 & Hprev0).
  { destruct (decide (idx = O)); [by eexists|].
    destruct (lookup_lt_is_Some_2 cs (idx - 1)) as [p Hp]; [lia|].
    rewrite Hp. eexists. split; [done|]. split; intros Hb.
    - apply bool_decide_eq_true in Hb. eauto.
    - apply bool_decide_eq_false in Hb. intros _. exists p. split; [done|lia]. }
  cbn [mbind option_bind].
  destruct prev_rich.
  { (* borrow from the previous sibling *)
    destruct Hprev1 as (Hz & prev & Hprev & Hrich); [done|].
    assert (cs !! S (idx - 1) = Some c) as Hc1
      by (by replace (S (idx - 1)) with idx by lia).
    destruct (split_two cs (idx - 1) prev c Hprev Hc1) as (cl & cr & -> & Hcl).
    destruct (split_key ks (idx - 1)) as (kl & down & kr & -> & Hkl); [lia|].
    assert (idx = S (length cl)) as -> by lia.
    assert (length kl = length cl) as Hlen by lia.
    assert (shaped h prev) as Hsp.
    { apply Forall_app in Hcs as [_ Hcs]. by apply Forall_cons in Hcs as [? _]. }
    destruct (borrow_from_prev_spec h false kl down kr cl prev c cr)
      as (up & sib' & c' & Hrun & Hs' & Hc' & Hel & [pre Hpre] & _);
      [done|done|done|done|counts|].
    rewrite Hrun. eexists _, (S (length cl)), c'. split; [done|].
    split.
    { rewrite (bool_decide_eq_false_2 (_ < _)%nat); [by rewrite andb_false_r|].
      counts. }
    split_and!; [apply lookup_mid_next|done|done|counts| |].
    - rewrite (elems_two kl up kr cl sib' c' cr),
        (elems_two kl down kr cl prev c cr) by done.
      by rewrite Hel.
    - intros x Hx. rewrite Hpre. apply elem_of_app. by right. }
  (* is there a next sibling with a key to spare? *)
  assert (∃ b, (if decide (idx = length ks) then Some false
                else p ← cs !! (idx + 1)%nat; Some (bool_decide (2 ≤ num_keys p)%nat))
               = Some b
               ∧ (b = true → idx ≠ length ks ∧ ∃ p, cs !! S idx = Some p
                                         ∧ (2 ≤ num_keys p)%nat)
               ∧ (b = false → idx ≠ length ks → ∃ p, cs !! S idx = Some p
                                         ∧ (num_keys p < 2)%nat))
    as (next_rich & -> & Hnext1 & Hnext0).
  { destruct (decide (idx = length ks)); [by eexists|].
    rewrite Nat.add_1_r.
    destruct (lookup_lt_is_Some_2 cs (S idx)) as [p Hp]; [lia|].
    rewrite Hp. eexists. split; [done|]. split; intros Hb.
    - apply bool_decide_eq_true in Hb. eauto.
    - apply bool_decide_eq_false in Hb. intros _. exists p. split; [done|lia]. }
  cbn [mbind option_bind].
  destruct next_rich.
  { (* borrow from the next sibling *)
    destruct Hnext1 as (Hz & sib & Hsib & Hrich); [done|].
    destruct (split_two cs idx c sib Hc Hsib) as (cl & cr & -> & Hcl).
    destruct (split_key ks idx) as (kl & down & kr & -> & Hkl); [lia|].
    subst idx.
    assert (shaped h sib) as Hss.
    { apply Forall_app in Hcs as [_ Hcs]. apply Forall_cons in Hcs as [_ Hcs].
      by apply Forall_cons in Hcs as [? _]. }
    destruct (borrow_from_next_spec h false kl down kr cl c sib cr)
      as (up & c' & sib' & Hrun & Hc' & Hs' & Hel & [post Hpost] & _);
      [done|done|done|done|counts|].
    rewrite Hrun. eexists _, (length cl), c'. split; [done|].
    split; [by rewrite bool_decide_eq_false_2 by (rewrite length_app; simpl; lia)|].
    split_and!; [apply lookup_mid|done|done|counts| |].
    - rewrite (elems_two kl up kr cl c' sib' cr),
        (elems_two kl down kr cl c sib cr) by done.
      by rewrite Hel.
    - intros x Hx. rewrite Hpost. apply elem_of_app. by left. }
  clear Hprev1 Hnext1. specialize (Hprev0 eq_refl). specialize (Hnext0 eq_refl).
  destruct (decide (idx = length ks)) as [Hlast|Hlast].
  - (* the last child: merge it into its previous sibling *)
    rewrite option_guard_True by lia.
    destruct Hprev0 as (prev & Hprev & Hpp); [lia|].
    assert (cs !! S (idx - 1) = Some c) as Hc1
      by (by replace (S (idx - 1)) with idx by lia).
    destruct (split_two cs (idx - 1) prev c Hprev Hc1) as (cl & cr & -> & Hcl).
    destruct (split_key ks (idx - 1)) as (kl & down & kr & -> & Hkl); [lia|].
    assert (length kl = length cl) as Hlen by lia.
    assert (shaped h prev) as Hsp.
    { apply Forall_app in Hcs as [_ Hcs]. by apply Forall_cons in Hcs as [? _]. }
    destruct (merge_children_spec h false kl down kr cl prev c cr)
      as (m & Hrun & Hm & Hel); [done|done|done|counts|].
    assert (idx = S (length cl)) as -> by lia.
    replace (S (length cl) - 1)%nat with (length cl) by lia.
    rewrite Hrun. eexists _, (length cl), m. split; [done|].
    split.
    { rewrite bool_decide_eq_true_2 by done.
      by rewrite bool_decide_eq_true_2 by counts. }
    split_and!; [apply lookup_mid|done|done|counts| |].
    + rewrite (elems_one kl kr cl m cr), (elems_two kl down kr cl prev c cr) by done.
      by rewrite Hel.
    + intros x Hx. rewrite Hel. rewrite elem_of_app, elem_of_cons. auto.
  - (* merge the next sibling into the child *)
    destruct Hnext0 as (sib & Hsib & Hsp); [done|].
    destruct (split_two cs idx c sib Hc Hsib) as (cl & cr & -> & Hcl).
    destruct (split_key ks idx) as (kl & down & kr & -> & Hkl); [lia|].
    subst idx.
    assert (shaped h sib) as Hss.
    { apply Forall_app in Hcs as [_ Hcs]. apply Forall_cons in Hcs as [_ Hcs].
      by apply Forall_cons in Hcs as [? _]. }
    destruct (merge_children_spec h false kl down kr cl c sib cr)
      as (m & Hrun & Hm & Hel); [done|done|done|counts|].
    rewrite Hrun. eexists _, (length cl), m. split; [done|].
    split; [by rewrite bool_decide_eq_false_2 by done|].
    split_and!; [apply lookup_mid|done|done|counts| |].
    + rewrite (elems_one kl kr cl m cr), (elems_two kl down kr cl c sib cr) by done.
      by rewrite Hel.
    + intros x Hx. rewrite Hel. apply elem_of_app. by left.
Qed.

(** ** Children inside the walk of their parent *)

Lemma child_infix n i c :
  is_leaf n = false → children n !! i = Some c → (i ≤ num_keys n)%nat →
  ∃ pre post, elems n = pre ++ elems c ++ post.
Proof.
  intros Hl Hc Hi.
  apply list_elem_of_split_length in Hc as (cl & cr & Hcs & ->).
  destruct (split_at (keys n) (length cl) Hi) as (kl & kr & Hks & Hlen).
  eexists _, _. by apply (elems_around n cl c cr kl kr).
Qed.

Lemma elems_set_child n i c c' :
  is_leaf n = false → children n !! i = Some c → (i ≤ num_keys n)%nat →
  elems c' = elems c → elems (set_child n i c') = elems n.
Proof.
  intros Hl Hc Hi Hel.
  apply list_elem_of_split_length in Hc as (cl & cr & Hcs & ->).
  destruct (split_at (keys n) (length cl) Hi) as (kl & kr & Hks & Hlen).
  rewrite (elems_around n cl c cr kl kr) by done.
  rewrite (elems_around (set_child n (length cl) c') cl c' cr kl kr); try done.
  - by rewrite Hel.
  - cbn [set_child children]. rewrite Hcs. apply insert_mid.
Qed.

(** ** Ordered walks and the scan for a key *)

Lemma ordered_infix pre l post : ordered (pre ++ l ++ post) → ordered l.
Proof.
  unfold ordered. rewrite !fmap_app. intros H.
  apply StronglySorted_app_1_r in H. by apply StronglySorted_app_1_l in H.
Qed.

Lemma scan_up_bound key ks : (scan_up key ks ≤ length ks)%nat.
Proof. induction ks as [|kv ks IH]; simpl; [lia|]. case_match; simpl; lia. Qed.

Lemma scan_up_before key ks :
  Forall (λ kv, BTree.key kv < key) (take (scan_up key ks) ks).
Proof.
  induction ks as [|kv ks IH]; simpl; [constructor|].
  destruct (BTree.key kv <? key) eqn:E; simpl; [|constructor].
  constructor; [lia|done].
Qed.

Lemma scan_up_stop key ks kv :
  ks !! scan_up key ks = Some kv → key ≤ BTree.key kv.
Proof.
  induction ks as [|k0 ks IH]; simpl; [done|].
  destruct (BTree.key k0 <? key) eqn:E; simpl; [done|].
  intros [= <-]. lia.
Qed.

(** A key that occurs in an ordered slot array is where the scan stops. *)
Lemma scan_up_finds key ks :
  ordered ks → key ∈ BTree.key <$> ks →
  BTree.key <$> ks !! scan_up key ks = Some key.
Proof.
  unfold ordered. induction ks as [|k0 ks IH]; simpl.
  - intros _ H. by apply elem_of_nil in H.
  - intros Hs Hin. apply StronglySorted_cons in Hs as [Hall Hs].
    destruct (BTree.key k0 <? key) eqn:E; simpl.
    + apply elem_of_cons in Hin as [->|Hin]; [lia|]. by apply IH.
    + apply elem_of_cons in Hin as [->|Hin]; [done|].
      rewrite Forall_forall in Hall. apply Hall in Hin. f_equal. lia.
Qed.

(** An absent key is not where the scan stops. *)
Lemma scan_up_absent key (ks : list KeyValue) :
  key ∉ BTree.key <$> ks →
  BTree.key <$> ks !! scan_up key ks ≠ Some key.
Proof.
  intros Hnot Hfound. apply Hnot.
  destruct (ks !! scan_up key ks) as [kv|] eqn:E; [|done].
  simpl in Hfound. injection Hfound as <-.
  apply list_elem_of_fmap_2. by eapply list_elem_of_lookup_2.
Qed.

(** In an ordered internal node, a key the scan does not find in the node
    can only be in the child the scan points to. *)
Lemma descend_member n key c :
  is_leaf n = false → ordered (elems n) →
  children n !! scan_up key (keys n) = Some c →
  BTree.key <$> keys n !! scan_up key (keys n) ≠ Some key →
  key ∈ BTree.key <$> elems n → key ∈ BTree.key <$> elems c.
Proof.
  intros Hl Hord Hc Hnot Hin.
  pose proof (scan_up_bound key (keys n)) as Hi.
  pose proof (scan_up_before key (keys n)) as Hbefore.
  pose proof (scan_up_stop key (keys n)) as Hstop.
  set (i := scan_up key (keys n)) in *.
  pose proof Hc as Hc'.
  apply list_elem_of_split_length in Hc' as (cl & cr & Hcs & Hicl).
  assert (keys n = take i (keys n) ++ drop i (keys n)) as Hks
    by by rewrite take_drop.
  assert (length (take i (keys n)) = length cl) as Hlen
    by (rewrite length_take; lia).
  rewrite (elems_around n cl c cr _ _ Hl Hcs Hks Hlen) in Hin, Hord.
  unfold ordered in Hord. rewrite !fmap_app in Hin, Hord.
  apply elem_of_app in Hin as [Hin|Hin].
  { (* before the child: everything is below the last key scanned *)
    exfalso.
    destruct (decide (take i (keys n) = [])) as [E|E].
    { rewrite E in Hin. destruct (elems <$> cl); simpl in Hin;
        by apply elem_of_nil in Hin. }
    destruct (exists_last E) as (kl & k & Ekl).
    rewrite Ekl in Hbefore, Hlen, Hin, Hord.
    apply Forall_app in Hbefore as [_ Hk]. rewrite Forall_singleton in Hk.
    rewrite length_app in Hlen. simpl in Hlen.
    destruct (split_last (elems <$> cl) (length kl)) as (sl & s & Esl & Hsl);
      [rewrite length_fmap; lia|].
    rewrite Esl, walk_prefix_snoc in Hin, Hord by done.
    rewrite !fmap_app in Hin, Hord. cbn [fmap list_fmap] in Hin, Hord.
    apply StronglySorted_app_1_l in Hord.
    rewrite app_assoc in Hin, Hord. apply elem_of_app in Hin as [Hin|Hin].
    - eapply (StronglySorted_app_1_elem_of _ _ _ key (BTree.key k)) in Hord;
        [lia|done|apply list_elem_of_here].
    - apply list_elem_of_singleton in Hin. lia. }
  apply elem_of_app in Hin as [Hin|Hin]; [done|].
  (* after the child: everything is above the key the scan stopped at *)
  exfalso. apply StronglySorted_app_1_r, StronglySorted_app_1_r in Hord.
  destruct (drop i (keys n)) as [|k kr] eqn:E.
  { simpl in Hin. by apply elem_of_nil in Hin. }
  assert (keys n !! i = Some k) as Hk.
  { rewrite <- (take_drop i (keys n)), E, lookup_app_r by (rewrite length_take; lia).
    rewrite length_take. by replace (i - i `min` length (keys n))%nat with O by lia. }
  specialize (Hstop k Hk). rewrite Hk in Hnot. simpl in Hnot.
  simpl in Hin, Hord. apply StronglySorted_cons in Hord as [Hall _].
  rewrite Forall_forall in Hall.
  apply elem_of_cons in Hin as [->|Hin]; [done|].
  apply Hall in Hin. assert (BTree.key k = key) as <- by lia. done.
Qed.

(** ** Payload ownership *)

Lemma payloads_app l1 l2 : payloads (l1 ++ l2) = payloads l1 ++ payloads l2.
Proof. apply omap_app. Qed.

Lemma owned_sublist w l l' :
  owned w l → payloads l' `sublist_of` payloads l → owned w l'.
Proof.
  intros [Hnd Hlive] Hsub. split; [by eapply sublist_NoDup|].
  intros p Hp. apply Hlive. by eapply sublist_subseteq.
Qed.

Lemma owned_infix w pre l post : owned w (pre ++ l ++ post) → owned w l.
Proof.
  intros H. eapply owned_sublist; [done|]. rewrite !payloads_app.
  by apply sublist_inserts_l, sublist_inserts_r.
Qed.

(** Releasing the payload of one slot leaves every other slot owned. *)
Lemma free_owned w l1 kv l2 :
  owned w (l1 ++ kv :: l2) →
  ∃ w', free (data (value kv)) w = Returned tt w'
        ∧ ∀ l', payloads l' `sublist_of` payloads (l1 ++ l2) → owned w' l'.
Proof.
  intros [Hnd Hlive]. rewrite payloads_app in Hnd, Hlive.
  unfold payloads at 2 in Hnd. unfold payloads at 2 in Hlive.
  cbn [omap list_omap] in Hnd, Hlive.
  destruct (data (value kv)) as [p|] eqn:Ep; cbn [free].
  - destruct (Hlive p) as [blk Hblk].
    { apply elem_of_app. right. apply list_elem_of_here. }
    rewrite Hblk. eexists. split; [done|]. intros l' Hsub.
    apply NoDup_app in Hnd as (Hn1 & Hdisj & Hn2).
    apply NoDup_cons in Hn2 as [Hp2 Hn2].
    assert (NoDup (payloads (l1 ++ l2))) as Hnd'.
    { rewrite payloads_app. apply NoDup_app. split_and!; [done| |done].
      intros x Hx Hx2. apply (Hdisj x Hx). by apply elem_of_cons; right. }
    split; [by eapply sublist_NoDup|].
    intros q Hq. cbn [heap]. apply (sublist_subseteq _ _ Hsub) in Hq.
    assert (q ≠ p) as Hne.
    { intros ->. rewrite payloads_app in Hq. apply elem_of_app in Hq as [Hq|Hq].
      - apply (Hdisj p Hq). apply list_elem_of_here.
      - done. }
    rewrite lookup_delete_ne by done. apply Hlive.
    rewrite payloads_app in Hq. apply elem_of_app in Hq as [Hq|Hq];
      apply elem_of_app; [by left|right; by apply elem_of_cons; right].
  - eexists. split; [done|]. intros l' Hsub.
    eapply owned_sublist; [|done]. split; by rewrite payloads_app.
Qed.

(** Clearing the data pointer of a slot only removes a payload. *)
Lemma payloads_clear_data subs ks i :
  payloads (in_order subs (clear_data i ks))
  `sublist_of` payloads (in_order subs ks).
Proof.
  revert subs i. induction ks as [|k ks IH]; intros subs i; [done|].
  destruct i as [|i]; cbn [clear_data alter list_alter in_order];
    rewrite !payloads_app; apply sublist_app; try done.
  - unfold payloads. cbn [omap list_omap data value].
    destruct (data (value k)); [by apply sublist_cons|done].
  - unfold payloads. cbn [omap list_omap].
    destruct (data (value k)); [apply sublist_skip|]; apply IH.
Qed.

Lemma elems_clear_data n i :
  payloads (elems (Node (is_leaf n) (clear_data i (keys n)) (children n)))
  `sublist_of` payloads (elems n).
Proof.
  destruct n as [lf ks cs]. cbn [is_leaf keys children].
  destruct lf.
  - rewrite !elems_leaf by done. cbn [keys].
    pose proof (payloads_clear_data [] ks i) as H.
    by rewrite !in_order_no_subs in H.
  - rewrite !elems_internal by done. apply payloads_clear_data.
Qed.

Lemma shaped_clear_data h n i :
  shaped h n → shaped h (Node (is_leaf n) (clear_data i (keys n)) (children n)).
Proof.
  destruct h; simpl; unfold num_keys, clear_data; cbn [keys];
    rewrite length_alter; tauto.
Qed.

(** ** The walks to the neighbouring keys *)

Lemma rightmost_key_shaped h : ∀ n, shaped h n → is_Some (rightmost_key n).
Proof.
  induction h as [|h IH]; intros [lf ks cs]; cbn [shaped is_leaf keys children];
    unfold num_keys; cbn [keys rightmost_key is_leaf children].
  - intros (Hk & -> & _). unfold num_keys. cbn [keys].
    rewrite decide_False by lia.
    destruct (lookup_lt_is_Some_2 ks (length ks - 1)) as [kv ->]; [lia|].
    by eexists.
  - intros (Hk & -> & Hn & Hcs). unfold num_keys. cbn [keys].
    destruct (lookup_lt_is_Some_2 cs (length ks)) as [c Hc]; [lia|].
    rewrite list_lookup_fmap, Hc. cbn [fmap option_fmap option_map mjoin option_join].
    apply IH. by eapply Forall_lookup_1.
Qed.

Lemma leftmost_key_shaped h : ∀ n, shaped h n → is_Some (leftmost_key n).
Proof.
  induction h as [|h IH]; intros [lf ks cs]; cbn [shaped is_leaf keys children];
    unfold num_keys; cbn [keys leftmost_key is_leaf children].
  - intros (Hk & -> & _).
    destruct (lookup_lt_is_Some_2 ks 0) as [kv ->]; [lia|]. by eexists.
  - intros (Hk & -> & Hn & Hcs).
    destruct (lookup_lt_is_Some_2 cs 0) as [c Hc]; [lia|].
    rewrite list_lookup_fmap, Hc. cbn [fmap option_fmap option_map mjoin option_join].
    apply IH. by eapply Forall_lookup_1.
Qed.

(** ** Removing a key from an internal node *)

Lemma remove_from_non_leaf_returns h rec n idx kv w :
  shaped (S h) n → owned w (elems n) → keys n !! idx = Some kv →
  (∀ c k w0, shaped h c → owned w0 (elems c) →
             ∃ r w1, rec c k w0 = Returned r w1) →
  ∃ n' w', btree_remove_from_non_leaf rec n idx w = Returned n' w'.
Proof.
  destruct n as [lf ks cs]. cbn [shaped children keys is_leaf].
  unfold num_keys. cbn [keys].
  intros (Hk & -> & Hn & Hcs) Hown Hkv Hrec.
  assert (idx < length ks)%nat as Hidx by by eapply lookup_lt_Some.
  destruct (lookup_lt_is_Some_2 cs idx) as [left Hleft]; [lia|].
  destruct (lookup_lt_is_Some_2 cs (S idx)) as [right Hright]; [lia|].
  destruct (split_two cs idx left right Hleft Hright) as (cl & cr & -> & Hcl).
  apply list_elem_of_split_length in Hkv as (kl & kr & -> & Hkl).
  assert (length kl = length cl) as Hlen by lia.
  assert (idx = length cl) as -> by lia. clear Hkl Hcl Hidx.
  rewrite (elems_two kl kv kr cl left right cr) in Hown by done.
  apply Forall_app in Hcs as [_ Hcs]. apply Forall_cons in Hcs as [Hsl Hcs].
  apply Forall_cons in Hcs as [Hsr _].
  unfold btree_remove_from_non_leaf. cbn [keys children is_leaf].
  rewrite <- Hlen, lookup_mid, Hlen, lookup_mid. cbn [deref bind ret].
  change (ORDER / 2)%nat with 2%nat.
  destruct (decide (2 ≤ num_keys left)%nat) as [Hrich|Hpoor].
  { (* the predecessor comes up *)
    unfold btree_get_predecessor. cbn [children]. rewrite lookup_mid.
    cbn [mbind option_bind].
    destruct (rightmost_key_shaped h left Hsl) as [pred ->]. cbn [deref bind ret].
    rewrite <- !app_assoc in Hown. cbn [app] in Hown.
    rewrite (app_assoc _ (elems left)) in Hown.
    destruct (free_owned w _ kv _ Hown) as (w1 & Hfree & Hown1).
    rewrite (bind_step _ _ _ _ _ Hfree).
    destruct (lookup_lt_is_Some_2 (keys left) (num_keys left - 1)) as [last ->];
      [unfold num_keys in *; lia|].
    cbn [deref bind ret].
    destruct (Hrec (Node (is_leaf left) (clear_data (num_keys left - 1) (keys left))
                      (children left)) pred w1) as (r & w2 & Hr).
    - by apply shaped_clear_data.
    - apply Hown1. etrans; [apply elems_clear_data|].
      rewrite !payloads_app. apply sublist_inserts_r, sublist_inserts_l. done.
    - rewrite (bind_step _ _ _ _ _ Hr). eauto. }
  rewrite Nat.add_1_r, lookup_mid_next. cbn [deref bind ret].
  destruct (decide (2 ≤ num_keys right)%nat) as [Hrich|Hpoor2].
  { (* the successor comes up *)
    unfold btree_get_successor. cbn [children].
    rewrite Nat.add_1_r, lookup_mid_next. cbn [mbind option_bind].
    destruct (leftmost_key_shaped h right Hsr) as [succ ->]. cbn [deref bind ret].
    rewrite <- !app_assoc in Hown. cbn [app] in Hown.
    rewrite (app_assoc _ (elems left)) in Hown.
    destruct (free_owned w _ kv _ Hown) as (w1 & Hfree & Hown1).
    rewrite (bind_step _ _ _ _ _ Hfree).
    destruct (lookup_lt_is_Some_2 (keys right) 0) as [first ->];
      [unfold num_keys in *; lia|].
    cbn [deref bind ret].
    destruct (Hrec (Node (is_leaf right) (clear_data 0 (keys right))
                      (children right)) succ w1) as (r & w2 & Hr).
    - by apply shaped_clear_data.
    - apply Hown1. etrans; [apply elems_clear_data|].
      rewrite !payloads_app. apply sublist_inserts_l, sublist_inserts_r. done.
    - rewrite (bind_step _ _ _ _ _ Hr). eauto. }
  (* both neighbours are poor: merge around the key *)
  destruct (merge_children_spec h false kl kv kr cl left right cr)
    as (m & Hrun & Hm & Hel); [done|done|done|counts|].
  rewrite Hrun. cbn [deref bind ret children]. rewrite lookup_mid.
  cbn [deref bind ret].
  destruct (Hrec m (key kv) w) as (r & w2 & Hr); [done| |].
  - rewrite Hel. by apply owned_infix in Hown.
  - rewrite (bind_step _ _ _ _ _ Hr). eauto.
Qed.

(** ** Deleting below a node *)

Lemma remove_from_leaf_returns n idx kv w :
  keys n !! idx = Some kv → owned w (keys n) →
  ∃ n' w', btree_remove_from_leaf n idx w = Returned n' w'.
Proof.
  intros Hkv Hown. unfold btree_remove_from_leaf. rewrite Hkv.
  cbn [deref bind ret].
  apply list_elem_of_split_length in Hkv as (kl & kr & Hks & _).
  rewrite Hks in Hown.
  destruct (free_owned w _ kv _ Hown) as (w1 & Hfree & _).
  rewrite (bind_step _ _ _ _ _ Hfree). cbn [ret]. eauto.
Qed.

Lemma delete_from_node_spec h : ∀ fuel n key w,
  (h < fuel)%nat → shaped h n → owned w (elems n) →
  ∃ b n' w',
    btree_delete_from_node fuel n key w = Returned (b, n') w'
    ∧ (b = false → w' = w ∧ elems n' = elems n)
    ∧ (key ∉ BTree.key <$> elems n → b = false)
    ∧ (ordered (elems n) → key ∈ BTree.key <$> elems n → b = true).
Proof.
  induction h as [|h IH]; intros [|fuel] n key w Hfuel Hs Hown; try lia;
    cbn [btree_delete_from_node].
  - (* a leaf *)
    destruct Hs as (Hk & Hl & Hc). rewrite Hl.
    pose proof (elems_leaf n Hl) as Hel.
    case_bool_decide as Hfound.
    + destruct (keys n !! scan_up key (keys n)) as [kv|] eqn:Hkv; [|done].
      rewrite Hel in Hown.
      destruct (remove_from_leaf_returns n _ kv w Hkv Hown) as (n' & w' & Hrun).
      rewrite (bind_step _ _ _ _ _ Hrun). cbn [ret].
      eexists true, _, _. split; [done|]. split_and!; try done.
      intros Hnot. exfalso. apply Hnot. rewrite Hel.
      simpl in Hfound. injection Hfound as <-.
      apply list_elem_of_fmap_2. by eapply list_elem_of_lookup_2.
    + cbn [ret]. eexists false, n, w. split; [done|]. split_and!; try done.
      rewrite Hel. intros Hord Hin. by apply scan_up_finds in Hin.
  - (* an internal node *)
    pose proof Hs as (Hk & Hl & Hn & Hcs). rewrite Hl.
    case_bool_decide as Hfound.
    + destruct (keys n !! scan_up key (keys n)) as [kv|] eqn:Hkv; [|done].
      destruct (remove_from_non_leaf_returns h (btree_delete_from_node fuel)
                  n (scan_up key (keys n)) kv w Hs Hown Hkv) as (n' & w' & Hrun).
      { intros c k w0 Hc Hown0.
        destruct (IH fuel c k w0) as (b & c' & w1 & Hr & _); [lia|done|done|].
        eauto. }
      rewrite (bind_step _ _ _ _ _ Hrun). cbn [ret].
      eexists true, _, _. split; [done|]. split_and!; try done.
      intros Hnot. exfalso. apply Hnot.
      simpl in Hfound. injection Hfound as <-.
      apply list_elem_of_fmap_2.
      apply list_elem_of_split_length in Hkv as (kl & kr & Hks & Hlen).
      destruct (lookup_lt_is_Some_2 (children n) (length kl)) as [c Hc];
        [pose proof (scan_up_bound (BTree.key kv) (keys n));
         unfold num_keys in *; lia|].
      apply list_elem_of_split_length in Hc as (cl & cr & Hcs' & Hlen').
      rewrite (elems_around n cl c cr kl (kv :: kr)) by done.
      rewrite !elem_of_app. right. right. cbn [in_order head tail default app].
      apply list_elem_of_here.
    + pose proof (scan_up_bound key (keys n)) as Hidx.
      set (idx := scan_up key (keys n)) in *.
      destruct (lookup_lt_is_Some_2 (children n) idx) as [c Hc];
        [unfold num_keys in *; lia|].
      rewrite Hc. cbn [deref bind ret].
      assert (shaped h c) as Hsc by by eapply Forall_lookup_1.
      (* the node and the child to descend into, after the optional fill *)
      assert (∃ n1 tgt c1,
                (if decide (num_keys c < ORDER / 2)%nat
                 then deref (btree_fill_child n idx) else ret n) w
                = Returned n1 w
                ∧ tgt = (if bool_decide (idx = num_keys n)
                            && bool_decide (num_keys n1 < idx)%nat
                         then (idx - 1)%nat else idx)
                ∧ children n1 !! tgt = Some c1 ∧ shaped h c1
                ∧ is_leaf n1 = false ∧ (tgt ≤ num_keys n1)%nat
                ∧ elems n1 = elems n
                ∧ (∀ x, x ∈ elems c → x ∈ elems c1))
        as (n1 & tgt & c1 & Hfill & Htgt & Hc1 & Hsc1 & Hl1 & Hi1 & Hel1 & Hsub).
      { destruct (decide (num_keys c < ORDER / 2)%nat) as [Hpoor|Hrich].
        - destruct (fill_child_spec h n idx c Hs Hc Hpoor)
            as (n1 & tgt & c1 & Hrun & ?). rewrite Hrun. by exists n1, tgt, c1.
        - exists n, idx, c. split; [done|]. split.
          { rewrite (bool_decide_eq_false_2 (_ < _)%nat)
              by (unfold num_keys; lia).
            by rewrite andb_false_r. }
          split_and!; done. }
      rewrite (bind_step _ _ _ _ _ Hfill). rewrite <- Htgt, Hc1.
      cbn [deref bind ret].
      destruct (child_infix n1 tgt c1 Hl1 Hc1 Hi1) as (pre & post & Hinfix).
      destruct (IH fuel c1 key w) as (b & c' & w' & Hrun & Hno & Habs & Hpres);
        [lia|done| |].
      { apply (owned_infix w pre _ post). by rewrite <- Hinfix, Hel1. }
      rewrite (bind_step _ _ _ _ _ Hrun). cbn [ret fst snd].
      eexists b, _, w'. split; [done|]. split_and!.
      * intros Hb. destruct (Hno Hb) as [-> Hel']. split; [done|].
        rewrite <- Hel1. by apply elems_set_child with c1.
      * intros Hnot. apply Habs. intros Hin. apply Hnot.
        rewrite <- Hel1, Hinfix, !fmap_app, !elem_of_app. auto.
      * intros Hord Hin. apply Hpres.
        { apply (ordered_infix pre _ post). by rewrite <- Hinfix, Hel1. }
        pose proof (descend_member n key c Hl Hord Hc Hfound Hin) as Hinc.
        apply list_elem_of_fmap in Hinc as (x & -> & Hx).
        apply list_elem_of_fmap_2. by apply Hsub.
Qed.

(** ** The recursion budget of the public operations *)

Lemma shaped_height h : ∀ n, shaped h n → height n = S h.
Proof.
  induction h as [|h IH]; intros [lf ks cs]; cbn [shaped children height].
  - by intros (_ & _ & ->).
  - intros (_ & _ & Hn & Hcs). f_equal.
    destruct cs as [|c cs]; [done|]. clear Hn.
    apply Forall_cons in Hcs as [Hc Hcs]. cbn [fmap list_fmap foldr].
    rewrite (IH c Hc).
    induction Hcs as [|c' cs Hc' _ IHcs]; cbn [fmap list_fmap foldr]; [lia|].
    rewrite (IH c' Hc'). lia.
Qed.

(** ** Deleting from a tree *)

(** A root left without keys is replaced by its first child; the walk of
    the tree is the walk of the root either way. *)
Lemma collapse_root_elems r :
  num_keys r = O →
  from_option elems [] (if is_leaf r then None else children r !! O) = elems r.
Proof.
  destruct r as [lf ks cs]. unfold num_keys. cbn [keys is_leaf children].
  destruct ks; [|done]. intros _. destruct lf; [done|].
  rewrite elems_internal by done. by destruct cs.
Qed.

(** C5: on a well-formed tree [btree_delete] of a key that is not in the
    tree returns false and leaves the program state, the key/value slots of
    the tree and hence its contents as they were (the tree may have been
    rebalanced on the way down); [btree_delete] of a key that is in the
    tree returns true. *)
Theorem c5_delete_result tree key w :
  well_formed w tree →
  (key ∉ BTree.key <$> tree_elems tree →
   ∃ tree', btree_delete tree key w = Returned (false, tree') w
            ∧ tree_elems tree' = tree_elems tree
            ∧ contents w tree' = contents w tree)
  ∧ (key ∈ BTree.key <$> tree_elems tree →
     ∃ tree' w', btree_delete tree key w = Returned (true, tree') w').
Proof.
  unfold well_formed, contents, tree_elems, btree_delete.
  destruct tree as [t|]; cbn [mbind option_bind].
  2:{ intros _. split; [by eexists|]. intros H. by apply elem_of_nil in H. }
  destruct (root t) as [r|] eqn:Hroot; cbn [from_option].
  2:{ intros _. split.
      - intros _. eexists. split; [done|]. cbn [mbind option_bind].
        by rewrite Hroot.
      - intros H. by apply elem_of_nil in H. }
  intros ([h Hs] & Hord & Hown).
  destruct (delete_from_node_spec h (height r) r key w)
    as (b & r' & w' & Hrun & Hno & Habs & Hpres);
    [rewrite (shaped_height h r Hs); lia|done|done|].
  rewrite (bind_step _ _ _ _ _ Hrun). cbn [fst snd].
  assert (∃ tree', (if decide (num_keys r' = O)
                    then ret (b, Some (mkTree (if is_leaf r' then None
                                               else children r' !! O)
                                         (min_degree t)))
                    else ret (b, Some (mkTree (Some r') (min_degree t)))) w'
                   = Returned (b, tree') w'
                   ∧ from_option elems [] (tree' ≫= root) = elems r')
    as (tree' & -> & Hel).
  { destruct (decide (num_keys r' = O)) as [Hz|Hz]; eexists; (split; [done|]).
    - cbn [mbind option_bind root]. by apply collapse_root_elems.
    - done. }
  split.
  - intros Hnot. rewrite (Habs Hnot) in *. destruct (Hno eq_refl) as [-> Hsame].
    exists tree'. split; [done|]. rewrite Hel, Hsame. done.
  - intros Hin. rewrite (Hpres Hord Hin). eauto.
Qed.

Example sample_tree_reached :
  insert_keys [10; 20; 5; 6; 12] (Some dummy_payload) 1 (Some empty_tree)
    start_world
  = Returned sample_tree sample_world.
Proof. vm_compute. reflexivity. Qed.

Lemma sample_tree_well_formed : well_formed sample_world sample_tree.
Proof.
  unfold well_formed, sample_tree. cbn [mbind option_bind root].
  split_and!.
  - exists 1%nat. cbn. unfold num_keys, ORDER. cbn.
    split_and!; try done; try lia.
    repeat constructor; cbn; lia.
  - unfold ordered. cbn. repeat constructor; lia.
  - split.
    + apply (bool_decide_unpack _). by vm_compute.
    + apply Forall_forall. apply (bool_decide_unpack _). by vm_compute.
Qed.

Lemma c5_delete_result_witness :
  well_formed sample_world sample_tree
  ∧ (∃ tree', btree_delete sample_tree 7 sample_world
              = Returned (false, tree') sample_world
              ∧ tree_elems tree' = tree_elems sample_tree)
  ∧ (∃ tree' w', btree_delete sample_tree 10 sample_world
                 = Returned (true, tree') w').
Proof.
  pose proof sample_tree_well_formed as Hwf. split; [exact Hwf|].
  split.
  - destruct (c5_delete_result sample_tree 7 sample_world Hwf) as [Habsent _].
    destruct Habsent as (tree' & Hrun & Hsame & _).
    + apply (bool_decide_unpack _). by vm_compute.
    + by exists tree'.
  - destruct (c5_delete_result sample_tree 10 sample_world Hwf) as [_ Hpresent].
    apply Hpresent. apply (bool_decide_unpack _). by vm_compute.
Defined.



(** ** The two scans agree on ordered slots without the key *)

Lemma scan_up_app key l1 l2 :
  Forall (λ kv, BTree.key kv < key) l1 →
  (∀ kv, head l2 = Some kv → key ≤ BTree.key kv) →
  scan_up key (l1 ++ l2) = length l1.
Proof.
  intros H1 H2. induction H1 as [|kv l1 Hkv _ IH]; cbn [app scan_up length].
  - destruct l2 as [|kv l2]; [done|]. cbn [scan_up].
    specialize (H2 kv eq_refl). by rewrite (proj2 (Z.ltb_ge _ _)) by lia.
  - by rewrite (proj2 (Z.ltb_lt _ _)), IH by lia.
Qed.

Lemma scan_down_from_app key l1 l2 j :
  Forall (λ kv, key < BTree.key kv) l2 →
  (∀ kv, last l1 = Some kv → BTree.key kv ≤ key) →
  (j ≤ length l2)%nat →
  scan_down_from (length l1 + j) key (l1 ++ l2) = length l1.
Proof.
  intros H2 H1 Hj. induction j as [|j IH].
  - rewrite Nat.add_0_r. destruct (decide (l1 = [])) as [->|Hne]; [done|].
    destruct (exists_last Hne) as (l0 & kv & ->).
    rewrite length_app. cbn [length]. rewrite Nat.add_1_r. cbn [scan_down_from].
    rewrite <- app_assoc. cbn [app]. rewrite lookup_mid.
    specialize (H1 kv (last_snoc _ _)).
    by rewrite (proj2 (Z.ltb_ge _ _)) by lia.
  - rewrite Nat.add_succ_r. cbn [scan_down_from].
    destruct (lookup_lt_is_Some_2 l2 j) as [kv Hkv]; [lia|].
    rewrite lookup_app_r by lia.
    replace (length l1 + j - length l1)%nat with j by lia. rewrite Hkv.
    rewrite Forall_forall in H2.
    pose proof (H2 kv (list_elem_of_lookup_2 _ _ _ Hkv)).
    rewrite (proj2 (Z.ltb_lt _ _)) by lia. apply IH. lia.
Qed.

Lemma scan_down_app key l1 l2 :
  Forall (λ kv, key < BTree.key kv) l2 →
  (∀ kv, last l1 = Some kv → BTree.key kv ≤ key) →
  scan_down key (l1 ++ l2) = length l1.
Proof.
  intros H2 H1. unfold scan_down. rewrite length_app.
  by apply scan_down_from_app.
Qed.

(** Ordered slots without [key] fall into those below and those above it. *)
Lemma ordered_absent_split key ks :
  ordered ks → key ∉ BTree.key <$> ks →
  ∃ l1 l2, ks = l1 ++ l2
           ∧ Forall (λ kv, BTree.key kv < key) l1
           ∧ Forall (λ kv, key < BTree.key kv) l2.
Proof.
  unfold ordered. induction ks as [|k ks IH]; cbn [fmap list_fmap].
  - intros _ _. by exists [], [].
  - intros Hs Hnot. apply StronglySorted_cons in Hs as [Hall Hs].
    apply not_elem_of_cons in Hnot as [Hne Hnot].
    destruct (decide (BTree.key k < key)) as [Hlt|Hge].
    + destruct (IH Hs Hnot) as (l1 & l2 & -> & H1 & H2).
      exists (k :: l1), l2. split; [done|]. split; [by constructor|done].
    + exists [], (k :: ks). split; [done|]. split; [constructor|].
      constructor; [lia|]. rewrite Forall_fmap in Hall.
      eapply Forall_impl; [exact Hall|]. simpl. intros kv Hkv. lia.
Qed.

Lemma below_last key (l1 : list KeyValue) :
  Forall (λ kv, BTree.key kv < key) l1 →
  ∀ kv, last l1 = Some kv → BTree.key kv ≤ key.
Proof.
  intros H kv Hlast. rewrite Forall_forall in H.
  assert (kv ∈ l1) as Hin.
  { destruct (decide (l1 = [])) as [->|Hne]; [done|].
    destruct (exists_last Hne) as (l0 & x & ->). rewrite last_snoc in Hlast.
    injection Hlast as ->. apply elem_of_app. right. apply list_elem_of_here. }
  specialize (H kv Hin). lia.
Qed.

Lemma above_head key (l2 : list KeyValue) :
  Forall (λ kv, key < BTree.key kv) l2 →
  ∀ kv, head l2 = Some kv → key ≤ BTree.key kv.
Proof.
  intros H kv Hhead. destruct l2 as [|x l2]; [done|].
  injection Hhead as ->. apply Forall_cons in H as [H _]. lia.
Qed.

(** ** Searching *)

Lemma search_leaf_found n key l1 v l2 :
  is_leaf n = true → keys n = l1 ++ mkKV key v :: l2 →
  Forall (λ kv, BTree.key kv < key) l1 →
  btree_search_node n key = Some (Some v).
Proof.
  destruct n as [lf ks cs]. cbn [is_leaf keys]. intros -> -> H1.
  cbn [btree_search_node keys is_leaf].
  rewrite scan_up_app by (try done; intros kv [= <-]; simpl; lia).
  rewrite lookup_mid. cbn [BTree.key value]. by rewrite Z.eqb_refl.
Qed.

Lemma search_descend n key c :
  is_leaf n = false →
  BTree.key <$> keys n !! scan_up key (keys n) ≠ Some key →
  children n !! scan_up key (keys n) = Some c →
  btree_search_node n key = btree_search_node c key.
Proof.
  destruct n as [lf ks cs]. cbn [is_leaf keys children]. intros -> Hnot Hc.
  cbn [btree_search_node keys is_leaf children].
  rewrite list_lookup_fmap, Hc. cbn [fmap option_fmap option_map mjoin option_join].
  destruct (ks !! scan_up key ks) as [kv|]; [|done].
  destruct (key =? BTree.key kv) eqn:E; [|done].
  apply Z.eqb_eq in E. subst key. by destruct Hnot.
Qed.

(** ** Allocation *)

Lemma consume_alloc_succeed w :
  allocations_succeed w → allocations_succeed (consume_alloc w).
Proof.
  unfold allocations_succeed, consume_alloc. cbn [alloc_oracle].
  intros H. destruct H; [constructor|done].
Qed.

Lemma next_alloc_ok_succeed w : allocations_succeed w → next_alloc_ok w = true.
Proof.
  unfold allocations_succeed, next_alloc_ok.
  intros H. destruct H as [|b o Hb _]; [done|]. by rewrite Hb.
Qed.

Lemma create_node_ok leaf w :
  allocations_succeed w →
  btree_create_node leaf w = Returned (Node leaf [] []) (consume_alloc w).
Proof.
  intros H. unfold btree_create_node, malloc_node, bind.
  by rewrite (next_alloc_ok_succeed w H).
Qed.

(** The payload copy: a fresh block holding the first [size] bytes of the
    caller's buffer; nothing else in the heap changes. *)
Lemma copy_payload_ok src size bytes w :
  allocations_succeed w → heap w !! src = Some bytes →
  (size ≤ length bytes)%nat →
  copy_payload (Some src) size w
  = Returned (mkValue (Some (fresh (dom (heap w)))) size)
      (mkWorld (<[fresh (dom (heap w)) := take size bytes]> (heap w))
         (alloc_oracle (consume_alloc w)) (stderr w)).
Proof.
  intros Hok Hsrc Hsize. unfold copy_payload, malloc, bind.
  rewrite (next_alloc_ok_succeed w Hok).
  set (q := fresh (dom (heap w))).
  assert (heap w !! q = None) as Hq.
  { apply not_elem_of_dom. apply is_fresh. }
  assert (src ≠ q) as Hne by (intros ->; congruence).
  unfold memcpy, ret. cbn [mbind option_bind heap alloc_oracle stderr].
  rewrite lookup_insert_ne by done. rewrite Hsrc, lookup_insert_eq.
  rewrite decide_True by (rewrite length_replicate; lia).
  rewrite insert_insert_eq.
  rewrite drop_ge by (rewrite length_replicate; lia).
  by rewrite app_nil_r.
Qed.

(** ** Splitting a full child *)

Lemma ordered_sublist l l' : l' `sublist_of` l → ordered l → ordered l'.
Proof.
  unfold ordered. intros Hsub. induction Hsub as [|x l1 l2 Hsub IH|x l1 l2 Hs IH];
    cbn [fmap list_fmap]; [done| |].
  - rewrite !StronglySorted_cons. intros [Hall Hs]. split; [|by apply IH].
    rewrite !Forall_forall in *. intros y Hy. apply Hall.
    apply list_elem_of_fmap in Hy as (z & -> & Hz). apply list_elem_of_fmap_2.
    clear -Hz Hsub. by eapply sublist_subseteq.
  - rewrite StronglySorted_cons. intros [_ Hs']. by apply IH.
Qed.

Lemma absent_sublist key (l l' : list KeyValue) :
  l' `sublist_of` l → key ∉ BTree.key <$> l → key ∉ BTree.key <$> l'.
Proof.
  intros Hsub Hnot Hin. apply Hnot.
  apply list_elem_of_fmap in Hin as (z & -> & Hz). apply list_elem_of_fmap_2.
  by eapply sublist_subseteq.
Qed.

Lemma insert_at_mid {A} (l1 : list A) x l2 :
  insert_at (length l1) x (l1 ++ l2) = l1 ++ x :: l2.
Proof. unfold insert_at. by rewrite take_mid, drop_mid. Qed.

Lemma insert_at_mid_next {A} (l1 : list A) y x l2 :
  insert_at (length l1 + 1) x (l1 ++ y :: l2) = l1 ++ y :: x :: l2.
Proof.
  replace (length l1 + 1)%nat with (length (l1 ++ [y]))
    by (rewrite length_app; simpl; lia).
  rewrite (cons_middle y l1 l2), app_assoc, insert_at_mid.
  by rewrite <- app_assoc.
Qed.

Lemma split_child_spec h lf kl kr cl child cr w :
  length kl = length cl → shaped h child → num_keys child = (ORDER - 1)%nat →
  (length (kl ++ kr) < ORDER - 1)%nat →
  length (cl ++ child :: cr) = S (length (kl ++ kr)) →
  allocations_succeed w →
  ∃ up left right,
    btree_split_child (Node lf (kl ++ kr) (cl ++ child :: cr)) (length cl) w
    = Returned (Node lf (kl ++ up :: kr) (cl ++ left :: right :: cr))
        (consume_alloc w)
    ∧ up ∈ keys child
    ∧ shaped h left ∧ shaped h right
    ∧ (num_keys left < ORDER - 1)%nat ∧ (num_keys right < ORDER - 1)%nat
    ∧ (∀ key, key_free h key child →
              key_free h key left ∧ key_free h key right).
Proof.
  intros Hlen Hs Hfull Hroom Hcount Hok.
  destruct child as [clf cks ccs]. unfold num_keys, ORDER in *. cbn [keys] in *.
  destruct cks as [|a [|b [|c [|d [|? ?]]]]]; try done. clear Hfull.
  unfold btree_split_child. cbn [children keys is_leaf].
  rewrite lookup_mid. cbn [deref bind ret].
  rewrite (bind_step _ _ _ _ _ (create_node_ok clf w Hok)).
  change (ORDER / 2)%nat with 2%nat. change (2 - 1)%nat with 1%nat.
  cbn [is_leaf children keys].
  change (slots 2 1 [a; b; c; d]) with (Some [c]).
  cbn [deref bind ret lookup list_lookup].
  assert (∀ l r, Node lf (insert_at (length cl) b (kl ++ kr))
                   (insert_at (length cl + 1) r
                      (<[length cl := l]> (cl ++ {| is_leaf := clf; keys := [a; b; c; d]; children := ccs |} :: cr)))
                 = Node lf (kl ++ b :: kr) (cl ++ l :: r :: cr)) as Hres.
  { intros l r. rewrite insert_mid, insert_at_mid_next.
    by rewrite <- Hlen, insert_at_mid. }
  assert (require (bool_decide (length cl ≤ num_keys (Node lf (kl ++ kr) (cl ++ Node clf [a; b; c; d] ccs :: cr)))%nat) (consume_alloc w)
          = Returned tt (consume_alloc w)) as Hreq1.
  { apply require_step, bool_decide_eq_true_2. unfold num_keys. cbn [keys].
    rewrite length_app. lia. }
  destruct h as [|h]; cbn [shaped is_leaf keys children] in Hs.
  - destruct Hs as (_ & -> & ->). cbn [deref bind ret].
    rewrite (bind_step _ _ _ _ _ Hreq1), Hres.
    erewrite bind_step
      by (apply require_step; unfold fits, ORDER; cbn [keys children];
          rewrite !length_app in *; cbn [length] in *;
          rewrite !bool_decide_eq_true_2 by lia; done).
    eexists _, _, _. split; [done|].
    split; [set_solver|].
    split_and!; try (cbn; unfold num_keys; cbn; lia);
      try (cbn; unfold num_keys, ORDER; cbn; split_and!; try done; lia).
    intros key (Hord & Habs & _). cbn [key_free keys] in *.
    split; (split_and!; [|eapply absent_sublist; [|exact Habs]|done]);
      [eapply ordered_sublist; [|exact Hord]| |
       eapply ordered_sublist; [|exact Hord]| ];
      cbn [keys]; repeat first [apply sublist_nil_l | apply sublist_skip | apply sublist_cons].
  - destruct Hs as (_ & -> & Hn & Hcs). cbn [length] in Hn.
    destruct ccs as [|c0 [|c1 [|c2 [|c3 [|c4 [|? ?]]]]]]; try done.
    change (slots 2 2 [c0; c1; c2; c3; c4]) with (Some [c2; c3]).
    cbn [deref bind ret take].
    rewrite (bind_step _ _ _ _ _ Hreq1), Hres.
    erewrite bind_step
      by (apply require_step; unfold fits, ORDER; cbn [keys children];
          rewrite !length_app in *; cbn [length] in *;
          rewrite !bool_decide_eq_true_2 by lia; done).
    eexists _, _, _. split; [done|].
    split; [set_solver|].
    repeat (apply Forall_cons in Hcs as [? Hcs]).
    split_and!; try (cbn; unfold num_keys; cbn; lia);
      try (cbn; unfold num_keys, ORDER; cbn; split_and!; try done; try lia;
           by repeat constructor).
    intros key (Hord & Habs & Hch). cbn [key_free keys children] in *.
    repeat (apply Forall_cons in Hch as [? Hch]).
    split; (split_and!; [|eapply absent_sublist; [|exact Habs]|by repeat constructor]);
      [eapply ordered_sublist; [|exact Hord]| |
       eapply ordered_sublist; [|exact Hord]| ];
      cbn [keys]; repeat first [apply sublist_nil_l | apply sublist_skip | apply sublist_cons].
Qed.

(** ** Inserting below a node that has room *)

Lemma key_free_keys h key n :
  key_free h key n → ordered (keys n) ∧ key ∉ BTree.key <$> keys n.
Proof. destruct h; cbn [key_free]; tauto. Qed.

Lemma insert_non_full_spec h : ∀ fuel n key src size bytes w,
  (h < fuel)%nat → shaped h n → (num_keys n < ORDER - 1)%nat →
  key_free h key n → allocations_succeed w →
  heap w !! src = Some bytes → (size ≤ length bytes)%nat →
  ∃ n' w',
    btree_insert_non_full fuel n key (Some src) size w = Returned n' w'
    ∧ btree_search_node n' key
      = Some (Some (mkValue (Some (fresh (dom (heap w)))) size))
    ∧ heap w' = <[fresh (dom (heap w)) := take size bytes]> (heap w).
Proof.
  induction h as [|h IH];
    intros [|fuel] n key src size bytes w Hfuel Hs Hroom Hfree Hok Hsrc Hsize;
    try lia; cbn [btree_insert_non_full].
  - (* a leaf: the slot goes where the scan stops *)
    destruct Hs as (Hk & Hl & Hc). rewrite Hl.
    destruct Hfree as (Hord & Habs & _).
    destruct (ordered_absent_split key (keys n) Hord Habs)
      as (l1 & l2 & Hks & H1 & H2).
    rewrite Hks, (scan_down_app key l1 l2 H2 (below_last key l1 H1)), <- Hks.
    rewrite (bind_step _ _ _ tt w)
      by (apply require_step; by apply bool_decide_eq_true_2).
    rewrite (bind_step _ _ _ _ _ (copy_payload_ok src size bytes w Hok Hsrc Hsize)).
    cbn [ret]. eexists _, _. split; [done|]. split; [|done].
    eapply search_leaf_found; [done| |exact H1].
    cbn [keys]. rewrite Hks. apply insert_at_mid.
  - (* an internal node *)
    destruct Hs as (Hk & Hl & Hn & Hcs). rewrite Hl.
    destruct Hfree as (Hord & Habs & Hch).
    destruct (ordered_absent_split key (keys n) Hord Habs)
      as (l1 & l2 & Hks & H1 & H2).
    rewrite Hks, (scan_down_app key l1 l2 H2 (below_last key l1 H1)), <- Hks.
    destruct (lookup_lt_is_Some_2 (children n) (length l1)) as [c Hc].
    { unfold num_keys in Hn. rewrite Hn, Hks, length_app. lia. }
    rewrite Hc. cbn [deref bind ret].
    assert (shaped h c) as Hsc by by eapply Forall_lookup_1.
    assert (key_free h key c) as Hfc by by eapply Forall_lookup_1.
    pose proof Hc as Hsplit.
    apply list_elem_of_split_length in Hsplit as (cl & cr & Hcs' & Hlen).
    destruct (num_keys c =? ORDER - 1)%nat eqn:Hfull.
    + (* the child is full: split it, then go down one of the halves *)
      apply Nat.eqb_eq in Hfull.
      destruct n as [lf ks cs]. cbn [is_leaf keys children] in *. subst lf ks cs.
      unfold num_keys in Hroom, Hn. cbn [keys children] in Hroom, Hn.
      destruct (split_child_spec h false l1 l2 cl c cr w)
        as (up & left & right & Hrun & Hup & Hsl & Hsr & Hrl & Hrr & Hhalves);
        [done|done|done|done|done|done|].
      rewrite <- Hlen in Hrun. rewrite (bind_step _ _ _ _ _ Hrun).
      cbn [keys children is_leaf]. rewrite lookup_mid. cbn [deref bind ret].
      destruct (Hhalves key Hfc) as [Hfl Hfr].
      assert (BTree.key up ≠ key) as Hne.
      { intros <-. apply (key_free_keys h _ c Hfc).
        by apply list_elem_of_fmap_2. }
      destruct (BTree.key up <? key) eqn:Hlt.
      * apply Z.ltb_lt in Hlt.
        rewrite Hlen, lookup_mid_next. cbn [deref bind ret].
        destruct (IH fuel right key src size bytes (consume_alloc w))
          as (c' & w' & Hrec & Hfound & Hheap);
          [lia|done|done|done|by apply consume_alloc_succeed|done|done|].
        rewrite (bind_step _ _ _ _ _ Hrec). cbn [ret].
        eexists _, _. split; [done|]. split; [|done].
        rewrite insert_mid_next.
        assert (scan_up key (l1 ++ up :: l2) = S (length cl)) as Hscan.
        { rewrite (cons_middle up), app_assoc.
          rewrite scan_up_app; [rewrite length_app; simpl; lia| |by apply above_head].
          apply Forall_app. split; [done|]. by constructor. }
        erewrite search_descend; [exact Hfound|done| |];
          cbn [keys children]; rewrite Hscan.
        -- rewrite <- Hlen, (cons_middle up), app_assoc.
           replace (S (length l1)) with (length (l1 ++ [up]))
             by (rewrite length_app; simpl; lia).
           destruct l2 as [|k2 l2]; [by rewrite app_nil_r, lookup_ge_None_2|].
           rewrite lookup_mid. cbn. apply Forall_cons in H2 as [? _].
           intros [= ?]. lia.
        -- apply lookup_mid_next.
      * apply Z.ltb_ge in Hlt.
        rewrite Hlen, lookup_mid. cbn [deref bind ret].
        destruct (IH fuel left key src size bytes (consume_alloc w))
          as (c' & w' & Hrec & Hfound & Hheap);
          [lia|done|done|done|by apply consume_alloc_succeed|done|done|].
        rewrite (bind_step _ _ _ _ _ Hrec). cbn [ret].
        eexists _, _. split; [done|]. split; [|done].
        rewrite insert_mid.
        assert (scan_up key (l1 ++ up :: l2) = length cl) as Hscan.
        { rewrite scan_up_app; [done|done|]. intros kv [= <-]. lia. }
        erewrite search_descend; [exact Hfound|done| |];
          cbn [keys children]; rewrite Hscan.
        -- rewrite <- Hlen, lookup_mid. cbn. intros [= ?]. lia.
        -- apply lookup_mid.
    + (* the child has room *)
      apply Nat.eqb_neq in Hfull.
      destruct (IH fuel c key src size bytes w)
        as (c' & w' & Hrec & Hfound & Hheap);
        [lia|done| |done|done|done|done|].
      { pose proof (shaped_keys h c Hsc). lia. }
      rewrite (bind_step _ _ _ _ _ Hrec). cbn [ret].
      eexists _, _. split; [done|]. split; [|done].
      assert (scan_up key (keys n) = length cl) as Hscan.
      { rewrite Hks, scan_up_app; [done|done|by apply above_head]. }
      erewrite search_descend; [exact Hfound|done| |];
        cbn [keys children]; rewrite Hscan.
      * rewrite Hks, <- Hlen.
        destruct l2 as [|k2 l2]; [by rewrite app_nil_r, lookup_ge_None_2|].
        rewrite lookup_mid. cbn. apply Forall_cons in H2 as [? _].
        intros [= ?]. lia.
      * rewrite Hcs', Hlen, insert_mid. apply lookup_mid.
Qed.

(** ** From the walk of the tree to its nodes *)

Lemma keys_sublist_in_order {A} (subs : list (list A)) ks :
  ks `sublist_of` in_order subs ks.
Proof.
  revert subs. induction ks as [|k ks IH]; intros subs; cbn [in_order].
  - apply sublist_nil_l.
  - apply sublist_inserts_l. by apply sublist_skip.
Qed.

Lemma keys_sublist_elems n : keys n `sublist_of` elems n.
Proof. destruct n as [lf ks cs]. cbn [elems keys]. apply keys_sublist_in_order. Qed.

Lemma absent_infix key (pre l post : list KeyValue) :
  key ∉ BTree.key <$> pre ++ l ++ post → key ∉ BTree.key <$> l.
Proof. rewrite !fmap_app, !elem_of_app. tauto. Qed.

Lemma key_free_of_elems h : ∀ n key,
  shaped h n → ordered (elems n) → key ∉ BTree.key <$> elems n →
  key_free h key n.
Proof.
  induction h as [|h IH]; intros n key Hs Hord Habs; cbn [key_free].
  - split_and!; [|by eapply absent_sublist; [apply keys_sublist_elems|]|done].
    eapply ordered_sublist; [apply keys_sublist_elems|done].
  - split_and!; [|by eapply absent_sublist; [apply keys_sublist_elems|]|].
    { eapply ordered_sublist; [apply keys_sublist_elems|done]. }
    destruct Hs as (_ & Hl & Hn & Hcs).
    apply Forall_lookup_2. intros i c Hc.
    assert (i ≤ num_keys n)%nat as Hi by (apply lookup_lt_Some in Hc; lia).
    destruct (child_infix n i c Hl Hc Hi) as (pre & post & Hinfix).
    rewrite Hinfix in Hord, Habs. apply IH.
    + by eapply Forall_lookup_1.
    + by eapply ordered_infix.
    + by eapply absent_infix.
Qed.

(** ** Inserting into a tree *)

Lemma insert_then_search t key src size bytes w :
  well_formed w (Some t) → key ∉ BTree.key <$> tree_elems (Some t) →
  allocations_succeed w → heap w !! src = Some bytes →
  (size ≤ length bytes)%nat →
  ∃ tree' w',
    btree_insert (Some t) key (Some src) size w = Returned tree' w'
    ∧ btree_search tree' key
      = Some (Some (mkValue (Some (fresh (dom (heap w)))) size))
    ∧ heap w' = <[fresh (dom (heap w)) := take size bytes]> (heap w).
Proof.
  unfold well_formed, tree_elems, btree_insert. cbn [mbind option_bind].
  intros Hwf Habs Hok Hsrc Hsize.
  destruct (root t) as [r|] eqn:Hroot; cbn [from_option] in *.
  2:{ (* the first key: a leaf root *)
    rewrite (bind_step _ _ _ _ _ (create_node_ok true w Hok)).
    rewrite (bind_step _ _ _ _ _
               (copy_payload_ok src size bytes (consume_alloc w)
                  (consume_alloc_succeed w Hok) Hsrc Hsize)).
    cbn [ret is_leaf children]. eexists _, _. split; [done|]. split; [|done].
    unfold btree_search. cbn [mbind option_bind root btree_search_node keys scan_up BTree.key].
    rewrite Z.ltb_irrefl. cbn [lookup list_lookup BTree.key value].
    by rewrite Z.eqb_refl. }
  destruct Hwf as ([h Hs] & Hord & _).
  pose proof (key_free_of_elems h r key Hs Hord Habs) as Hfree.
  pose proof (shaped_height h r Hs) as Hh.
  destruct (num_keys r =? ORDER - 1)%nat eqn:Hfull.
  - (* a full root: the tree grows by a level *)
    apply Nat.eqb_eq in Hfull.
    rewrite (bind_step _ _ _ _ _ (create_node_ok false w Hok)).
    cbn [is_leaf keys children].
    destruct (split_child_spec h false [] [] [] r [] (consume_alloc w))
      as (up & left & right & Hrun & Hup & Hsl & Hsr & Hrl & Hrr & Hhalves);
      [done|done|done|cbn; unfold ORDER; lia|done
      |by apply consume_alloc_succeed|].
    cbn [app length] in Hrun. rewrite (bind_step _ _ _ _ _ Hrun).
    cbn [keys children is_leaf lookup list_lookup deref bind ret].
    destruct (Hhalves key Hfree) as [Hfl Hfr].
    assert (BTree.key up ≠ key) as Hne.
    { intros <-. apply (key_free_keys h _ r Hfree). by apply list_elem_of_fmap_2. }
    destruct (BTree.key up <? key) eqn:Hlt;
      cbn [lookup list_lookup deref bind ret].
    + destruct (insert_non_full_spec h (height r) right key src size bytes
                  (consume_alloc (consume_alloc w)))
        as (c' & w' & Hrec & Hfound & Hheap);
        [lia|done|done|done|by do 2 apply consume_alloc_succeed|done|done|].
      rewrite (bind_step _ _ _ _ _ Hrec). cbn [ret].
      eexists _, _. split; [done|]. split; [|done].
      unfold btree_search. cbn [mbind option_bind root].
      erewrite search_descend; [exact Hfound|done| |];
        cbn [keys children scan_up]; rewrite Hlt; done.
    + destruct (insert_non_full_spec h (height r) left key src size bytes
                  (consume_alloc (consume_alloc w)))
        as (c' & w' & Hrec & Hfound & Hheap);
        [lia|done|done|done|by do 2 apply consume_alloc_succeed|done|done|].
      rewrite (bind_step _ _ _ _ _ Hrec). cbn [ret].
      eexists _, _. split; [done|]. split; [|done].
      unfold btree_search. cbn [mbind option_bind root].
      erewrite search_descend; [exact Hfound|done| |];
        cbn [keys children scan_up]; rewrite Hlt; [|done].
      cbn. intros [= ?]. done.
  - (* the root has room *)
    apply Nat.eqb_neq in Hfull.
    destruct (insert_non_full_spec h (height r) r key src size bytes w)
      as (r' & w' & Hrec & Hfound & Hheap);
      [lia|done| |done|done|done|done|].
    { pose proof (shaped_keys h r Hs). lia. }
    rewrite (bind_step _ _ _ _ _ Hrec). cbn [ret].
    eexists _, _. split; [done|]. by split.
Qed.

(** C9 (amended): [btree_insert] of a key that is not yet in a well-formed tree
    copies exactly [size] bytes of the caller's buffer into a block that
    was not allocated before the call; [btree_search] for the key then
    returns a value pointing to that block, with that size.  The caller's
    buffer is left as it was, and whatever the caller does with it
    afterwards (overwriting it, freeing it), the block of the tree keeps
    the bytes passed at the time of the call. *)
Theorem c9_insert_private_copy t key src size bytes w :
  well_formed w (Some t) → key ∉ BTree.key <$> tree_elems (Some t) →
  allocations_succeed w → heap w !! src = Some bytes →
  (size ≤ length bytes)%nat →
  ∃ tree' w' q,
    btree_insert (Some t) key (Some src) size w = Returned tree' w'
    ∧ btree_search tree' key = Some (Some (mkValue (Some q) size))
    ∧ heap w !! q = None
    ∧ heap w' !! q = Some (take size bytes)
    ∧ heap w' !! src = Some bytes
    ∧ (∀ later : world,
         (∀ p, p ≠ src → heap later !! p = heap w' !! p) →
         heap later !! q = Some (take size bytes)).
Proof.
  intros Hwf Habs Hok Hsrc Hsize.
  destruct (insert_then_search t key src size bytes w Hwf Habs Hok Hsrc Hsize)
    as (tree' & w' & Hrun & Hfound & Hheap).
  set (q := fresh (dom (heap w))) in *.
  assert (heap w !! q = None) as Hq by (apply not_elem_of_dom, is_fresh).
  assert (q ≠ src) as Hne by (intros ->; congruence).
  exists tree', w', q. split_and!; try done.
  - rewrite Hheap. apply lookup_insert_eq.
  - rewrite Hheap. by rewrite lookup_insert_ne.
  - intros later Hsame. rewrite (Hsame q Hne), Hheap. apply lookup_insert_eq.
Qed.

Lemma c9_insert_private_copy_witness :
  ∃ tree' w' q,
    btree_insert sample_tree 7 (Some 1%positive) 1 sample_world
    = Returned tree' w'
    ∧ btree_search tree' 7 = Some (Some (mkValue (Some q) 1))
    ∧ heap w' !! q = Some ["*"%byte]
    ∧ heap (mkWorld (delete 1%positive (heap w')) [] []) !! q
      = Some ["*"%byte].
Proof.
  destruct (c9_insert_private_copy sample_btree 7 1%positive 1
              ["*"%byte; "+"%byte] sample_world)
    as (tree' & w' & q & Hrun & Hfound & Hfresh & Hq & Hsrc & Hlater).
  - apply sample_tree_well_formed.
  - apply (bool_decide_unpack _). by vm_compute.
  - constructor.
  - reflexivity.
  - simpl. lia.
  - exists tree', w', q. split_and!; try done.
    apply Hlater. intros p Hp. cbn [heap]. by rewrite lookup_delete_ne.
Defined.

(** A key that is already in the tree gets a second slot, and the search
    stops at the first: the hypothesis of C9 on the key is needed. *)
Example insert_present_key_keeps_first :
  ∃ tree' w',
    btree_insert sample_tree 5 (Some 1%positive) 1 sample_world
    = Returned tree' w'
    ∧ btree_search tree' 5 = Some (Some (mkValue (Some 4%positive) 1))
    ∧ BTree.key <$> tree_elems tree' = [5; 5; 6; 10; 12].
Proof.
  eexists _, _. split; [vm_compute; reflexivity|].
  split; vm_compute; reflexivity.
Qed.

(** C9, as the claim words it, fails for a key that is already in the
    tree: the code neither detects nor replaces it.  A second
    [btree_insert] of key 5, passing the byte "b", returns; the search for
    5 that follows returns the block of the first insert, which holds "a",
    not the byte passed at the second call. *)
Lemma c9_counterexample :
  ∃ t1 w1 t2 w2 q,
    btree_insert (Some empty_tree) 5 (Some 1%positive) 1
      (mkWorld {[ 1%positive := ["a"%byte]; 2%positive := ["b"%byte] ]} [] [])
    = Returned t1 w1
    ∧ heap w1 !! 2%positive = Some ["b"%byte]
    ∧ btree_insert t1 5 (Some 2%positive) 1 w1 = Returned t2 w2
    ∧ btree_search t2 5 = Some (Some (mkValue (Some q) 1))
    ∧ heap w2 !! q = Some ["a"%byte]
    ∧ heap w2 !! q ≠ Some (take 1 ["b"%byte]).
Proof.
  eexists _, _, _, _, _.
  split; [vm_compute; reflexivity|].
  split; [vm_compute; reflexivity|].
  split; [vm_compute; reflexivity|].
  split; [vm_compute; reflexivity|].
  split; [vm_compute; reflexivity|].
  vm_compute. discriminate.
Qed.

(** ** The split policy at work *)

(** C1 (scenario B1), as the code runs it: after inserting
    10, 20, 5, 6, 12, 30, 7, 17 the traversal prints 5, 6, 7, 10, 12, 17
    only, the depth is 2 and the root holds the two keys 6 and 10.  The
    keys 20 and 30 are gone: each split of a full node drops that node's
    last key. *)
Theorem c1_scenario_b1_as_coded :
  ∃ t w, insert_keys [10; 20; 5; 6; 12; 30; 7; 17] (Some dummy_payload) 1
           (Some empty_tree) start_world = Returned t w
         ∧ traversal_keys t = [5; 6; 7; 10; 12; 17]
         ∧ depth t = 2%nat
         ∧ root_keys t = [6; 10].
Proof.
  eexists _, _. split; [vm_compute; reflexivity|].
  repeat split; vm_compute; reflexivity.
Qed.

(** C2, as the code splits: a full leaf [a; b; c; d] (ORDER - 1 = 4
    keys) hanging below a fresh root is cut into [a] and [c] with [b]
    promoted.  The claim wants [a; b] on the left, [c] promoted and [d]
    on the right; the code cuts at ORDER / 2 = 2 instead of at the
    ceiling 3, and [d] is in neither half. *)
Theorem c2_split_full_leaf_as_coded (a b c d : KeyValue) :
  ∃ w, btree_split_child (Node false [] [Node true [a; b; c; d] []]) 0
         start_world
       = Returned (Node false [b] [Node true [a] []; Node true [c] []]) w.
Proof. eexists. vm_compute. reflexivity. Qed.

(** C3, as the code runs: after inserting 10, 20, 5, 6, 12 a node below
    the root holds a single key, fewer than the t - 1 = 2 the invariant
    asks for with ORDER = 5. *)
Theorem c3_underfull_node_after_insert :
  ∃ t w n, insert_keys [10; 20; 5; 6; 12] (Some dummy_payload) 1
             (Some empty_tree) start_world = Returned t w
           ∧ n ∈ non_root_nodes t
           ∧ num_keys n = 1%nat
           ∧ (num_keys n < min_degree empty_tree - 1)%nat.
Proof.
  eexists _, _, _. split; [vm_compute; reflexivity|].
  split; [vm_compute; apply list_elem_of_here|].
  split; vm_compute; lia.
Qed.

(** C4, as the code runs: 20 is inserted, never deleted, and after the
    insertion of 12 has split the root [btree_search] returns NULL for
    it. *)
Theorem c4_inserted_key_not_found :
  ∃ t w, insert_keys [10; 20; 5; 6; 12] (Some dummy_payload) 1
           (Some empty_tree) start_world = Returned t w
         ∧ btree_search t 20 = Some None
         ∧ traversal_keys t = [5; 6; 10; 12].
Proof.
  eexists _, _. split; [vm_compute; reflexivity|].
  split; vm_compute; reflexivity.
Qed.

End BTreeFacts.

(** * Invariants of btree.c *)

Module BTreeInvariants.
Import BTree BTreeSpec BTreeFacts.

(** ** Searching an ordered tree *)

Lemma slot_eta kv : mkKV (BTree.key kv) (value kv) = kv.
Proof. by destruct kv. Qed.

Lemma search_in_node n key kv :
  keys n !! scan_up key (keys n) = Some kv → BTree.key kv = key →
  btree_search_node n key = Some (Some (value kv)).
Proof.
  destruct n as [lf ks cs]. cbn [keys btree_search_node].
  intros -> <-. by rewrite Z.eqb_refl.
Qed.

Lemma search_leaf_miss n key :
  is_leaf n = true →
  BTree.key <$> keys n !! scan_up key (keys n) ≠ Some key →
  btree_search_node n key = Some None.
Proof.
  destruct n as [lf ks cs]. cbn [keys is_leaf btree_search_node].
  intros -> Hnot. destruct (ks !! scan_up key ks) as [kv|]; [|done].
  destruct (key =? BTree.key kv) eqn:E; [|done].
  apply Z.eqb_eq in E. subst key. by destruct Hnot.
Qed.

Lemma search_node_spec h : ∀ n key,
  shaped h n → ordered (elems n) →
  (key ∉ BTree.key <$> elems n → btree_search_node n key = Some None)
  ∧ (key ∈ BTree.key <$> elems n →
     ∃ v, btree_search_node n key = Some (Some v) ∧ mkKV key v ∈ elems n).
Proof.
  induction h as [|h IH]; intros n key Hs Hord.
  - destruct Hs as (_ & Hl & _). rewrite (elems_leaf n Hl) in *. split.
    + intros Hnot. apply search_leaf_miss; [done|]. by apply scan_up_absent.
    + intros Hin. apply scan_up_finds in Hin; [|done].
      destruct (keys n !! scan_up key (keys n)) as [kv|] eqn:Hkv; [|done].
      injection Hin as Hk. exists (value kv).
      split; [by apply search_in_node|].
      rewrite <- Hk, slot_eta. by eapply list_elem_of_lookup_2.
  - destruct Hs as (Hk & Hl & Hn & Hcs).
    pose proof (keys_sublist_elems n) as Hsub.
    destruct (decide (key ∈ BTree.key <$> keys n)) as [Hhere|Hnothere].
    { (* the key is in this node *)
      assert (key ∈ BTree.key <$> elems n) as Hin.
      { apply list_elem_of_fmap in Hhere as (kv & -> & Hkv).
        apply list_elem_of_fmap_2. by eapply sublist_subseteq. }
      split; [done|]. intros _.
      apply scan_up_finds in Hhere; [|by eapply ordered_sublist].
      destruct (keys n !! scan_up key (keys n)) as [kv|] eqn:Hkv; [|done].
      injection Hhere as Hkey. exists (value kv).
      split; [by apply search_in_node|].
      rewrite <- Hkey, slot_eta. eapply sublist_subseteq; [done|].
      by eapply list_elem_of_lookup_2. }
    pose proof (scan_up_absent key (keys n) Hnothere) as Hnot.
    pose proof (scan_up_bound key (keys n)) as Hi.
    destruct (lookup_lt_is_Some_2 (children n) (scan_up key (keys n)))
      as [c Hc]; [unfold num_keys in *; lia|].
    rewrite (search_descend n key c Hl Hnot Hc).
    destruct (child_infix n _ c Hl Hc Hi) as (pre & post & Hinfix).
    destruct (IH c key) as [Hmiss Hhit].
    { by eapply Forall_lookup_1. }
    { apply (ordered_infix pre _ post). by rewrite <- Hinfix. }
    split.
    + intros Habs. apply Hmiss. intros Hin. apply Habs.
      rewrite Hinfix, !fmap_app, !elem_of_app. auto.
    + intros Hin. destruct Hhit as (v & Hrun & Hv).
      { by apply (descend_member n key c). }
      exists v. split; [done|]. rewrite Hinfix, !elem_of_app. auto.
Qed.

Lemma search_tree_spec tree key w :
  well_formed w tree →
  (key ∉ BTree.key <$> tree_elems tree → btree_search tree key = Some None)
  ∧ (key ∈ BTree.key <$> tree_elems tree →
     ∃ v, btree_search tree key = Some (Some v)
          ∧ mkKV key v ∈ tree_elems tree).
Proof.
  unfold well_formed, tree_elems, btree_search.
  destruct (tree ≫= root) as [r|]; cbn [from_option].
  - intros ([h Hs] & Hord & _). by apply (search_node_spec h).
  - intros _. split; [done|]. intros H. by apply elem_of_nil in H.
Qed.

(** X1: on a well-formed tree [btree_search] never reads through a NULL
    child; it returns NULL for a key that is not in the tree, and for a key
    that is in the tree the value of a slot that holds the key. *)
Theorem search_finds_exactly_the_keys tree key w :
  well_formed w tree →
  (key ∉ BTree.key <$> tree_elems tree → btree_search tree key = Some None)
  ∧ (key ∈ BTree.key <$> tree_elems tree →
     ∃ v, btree_search tree key = Some (Some v)
          ∧ mkKV key v ∈ tree_elems tree).
Proof. apply search_tree_spec. Qed.

Lemma search_finds_exactly_the_keys_witness :
  btree_search sample_tree 7 = Some None
  ∧ ∃ v, btree_search sample_tree 12 = Some (Some v)
         ∧ mkKV 12 v ∈ tree_elems sample_tree.
Proof.
  destruct (search_finds_exactly_the_keys sample_tree 7 sample_world
              sample_tree_well_formed) as [Hmiss _].
  destruct (search_finds_exactly_the_keys sample_tree 12 sample_world
              sample_tree_well_formed) as [_ Hhit].
  split.
  - apply Hmiss. apply (bool_decide_unpack _). by vm_compute.
  - apply Hhit. apply (bool_decide_unpack _). by vm_compute.
Defined.

(** ** Ordered walks around a slot *)

Lemma ordered_app l1 l2 : ordered (l1 ++ l2) → ordered l1 ∧ ordered l2.
Proof.
  unfold ordered. rewrite fmap_app. intros H. split.
  - by apply StronglySorted_app_1_l in H.
  - by apply StronglySorted_app_1_r in H.
Qed.

Lemma ordered_around l x r :
  ordered (l ++ x :: r) →
  Forall (λ kv, BTree.key kv ≤ BTree.key x) l
  ∧ Forall (λ kv, BTree.key x ≤ BTree.key kv) r.
Proof.
  unfold ordered. rewrite fmap_app, fmap_cons. intros H. split.
  - apply Forall_forall. intros kv Hkv.
    apply (StronglySorted_app_1_elem_of _ _ _ (BTree.key kv) (BTree.key x)) in H;
      [done|by apply list_elem_of_fmap_2|apply list_elem_of_here].
  - apply StronglySorted_app_1_r, StronglySorted_cons in H as [H _].
    by rewrite Forall_fmap in H.
Qed.

(** Slots no larger than [key], then the new slot, then slots no smaller. *)
Lemma ordered_insert l1 x l2 :
  ordered (l1 ++ l2) →
  Forall (λ kv, BTree.key kv ≤ BTree.key x) l1 →
  Forall (λ kv, BTree.key x ≤ BTree.key kv) l2 →
  ordered (l1 ++ x :: l2).
Proof.
  unfold ordered. rewrite !fmap_app, fmap_cons. intros H H1 H2.
  induction l1 as [|a l1 IH]; cbn [app fmap list_fmap] in *.
  - apply StronglySorted_cons. split; [by rewrite Forall_fmap|done].
  - apply StronglySorted_cons in H as [Ha H].
    apply Forall_cons in H1 as [Hax H1].
    apply StronglySorted_cons. split; [|by apply IH].
    apply Forall_app in Ha as [Ha1 Ha2].
    apply Forall_app. split; [done|]. constructor; [done|done].
Qed.

Lemma Forall_le_trans (l : list KeyValue) a b :
  Forall (λ kv, BTree.key kv ≤ a) l → a ≤ b →
  Forall (λ kv, BTree.key kv ≤ b) l.
Proof. intros H Hab. eapply Forall_impl; [exact H|]. simpl. intros. lia. Qed.

Lemma Forall_ge_trans (l : list KeyValue) a b :
  Forall (λ kv, a ≤ BTree.key kv) l → b ≤ a →
  Forall (λ kv, b ≤ BTree.key kv) l.
Proof. intros H Hab. eapply Forall_impl; [exact H|]. simpl. intros. lia. Qed.

(** Where the downward scan stops in ordered slots. *)
Lemma scan_down_cut key ks :
  ordered ks →
  ∃ l1 l2, ks = l1 ++ l2 ∧ scan_down key ks = length l1
           ∧ Forall (λ kv, BTree.key kv ≤ key) l1
           ∧ Forall (λ kv, key < BTree.key kv) l2.
Proof.
  intros Hord.
  assert (∃ l1 l2, ks = l1 ++ l2
                   ∧ Forall (λ kv, BTree.key kv ≤ key) l1
                   ∧ Forall (λ kv, key < BTree.key kv) l2)
    as (l1 & l2 & -> & H1 & H2).
  { unfold ordered in Hord.
    induction ks as [|k ks IH]; cbn [fmap list_fmap] in Hord.
    - by exists [], [].
    - apply StronglySorted_cons in Hord as [Hall Hs].
      destruct (decide (BTree.key k ≤ key)) as [Hle|Hgt].
      + destruct (IH Hs) as (l1 & l2 & -> & H1 & H2).
        exists (k :: l1), l2. split; [done|]. split; [by constructor|done].
      + exists [], (k :: ks). split; [done|]. split; [constructor|].
        constructor; [lia|]. rewrite Forall_fmap in Hall.
        eapply Forall_impl; [exact Hall|]. simpl. intros kv Hkv. lia. }
  exists l1, l2. split; [done|]. split; [|done].
  apply scan_down_app; [done|]. intros kv Hlast.
  destruct (decide (l1 = [])) as [->|Hne]; [done|].
  destruct (exists_last Hne) as (l0 & x & ->). rewrite last_snoc in Hlast.
  injection Hlast as ->. apply Forall_app in H1 as [_ H1].
  by rewrite Forall_singleton in H1.
Qed.

(** The part of the walk before a child ends with the key before that
    child, the part after it starts with the key after it. *)
Lemma walk_prefix_ends {A} (sl : list (list A)) kl :
  length sl = length kl →
  kl = [] ∧ walk_prefix sl kl = []
  ∨ ∃ pre k, walk_prefix sl kl = pre ++ [k] ∧ last kl = Some k.
Proof.
  revert kl. induction sl as [|s sl IH]; intros [|k kl] Hlen; try done.
  - by left.
  - right. cbn [length] in Hlen. cbn [walk_prefix].
    destruct (IH kl) as [[-> ->]|(pre & k' & -> & Hlast)]; [lia| |].
    + exists s, k. done.
    + exists (s ++ k :: pre), k'. split; [by rewrite <- app_assoc|].
      destruct kl; [done|]. done.
Qed.

Lemma walk_suffix_starts {A} (subs : list (list A)) kr :
  kr = [] ∧ in_order ([] :: subs) kr = []
  ∨ ∃ k post, in_order ([] :: subs) kr = k :: post ∧ head kr = Some k.
Proof. destruct kr as [|k kr]; [by left|right]. by eexists _, _. Qed.

Lemma around_child_bounds key (pre mid post : list KeyValue) kl kr
    (sl sr : list (list KeyValue)) :
  ordered (pre ++ mid ++ post) →
  length sl = length kl →
  pre = walk_prefix sl kl → post = in_order ([] :: sr) kr →
  Forall (λ kv, BTree.key kv ≤ key) kl →
  Forall (λ kv, key < BTree.key kv) kr →
  Forall (λ kv, BTree.key kv ≤ key) pre
  ∧ Forall (λ kv, key ≤ BTree.key kv) post.
Proof.
  intros Hord Hlen -> -> Hkl Hkr. split.
  - destruct (walk_prefix_ends sl kl Hlen) as [[_ ->]|(pre & k & Hpre & Hlast)];
      [done|].
    rewrite Hpre in Hord |- *. rewrite <- app_assoc in Hord. cbn [app] in Hord.
    apply ordered_around in Hord as [Hbelow _].
    assert (BTree.key k ≤ key) as Hk.
    { rewrite Forall_forall in Hkl. apply Hkl.
      destruct (decide (kl = [])) as [->|Hne]; [done|].
      destruct (exists_last Hne) as (l0 & x & ->). rewrite last_snoc in Hlast.
      injection Hlast as ->. apply elem_of_app. right. apply list_elem_of_here. }
    apply Forall_app. split; [by eapply Forall_le_trans|].
    by rewrite Forall_singleton.
  - destruct (walk_suffix_starts sr kr) as [[_ ->]|(k & post & Hpost & Hhead)];
      [done|].
    rewrite Hpost in Hord |- *. rewrite app_assoc in Hord.
    apply ordered_around in Hord as [_ Habove].
    assert (key < BTree.key k) as Hk.
    { destruct kr as [|x kr]; [done|]. injection Hhead as ->.
      by apply Forall_cons in Hkr as [? _]. }
    constructor; [lia|]. eapply Forall_ge_trans; [done|lia].
Qed.

(** ** Allocation, succeeding or failing *)

Lemma create_node_next leaf w :
  next_alloc_ok w = true →
  btree_create_node leaf w = Returned (Node leaf [] []) (consume_alloc w).
Proof. intros H. unfold btree_create_node, malloc_node, bind. by rewrite H. Qed.

Lemma create_node_fails leaf w :
  next_alloc_ok w = false →
  btree_create_node leaf w = Exited EXIT_FAILURE (out_of_memory w).
Proof. intros H. unfold btree_create_node, malloc_node, bind. by rewrite H. Qed.

Lemma copy_payload_next src size bytes w :
  next_alloc_ok w = true → heap w !! src = Some bytes →
  (size ≤ length bytes)%nat →
  copy_payload (Some src) size w
  = Returned (mkValue (Some (fresh (dom (heap w)))) size)
      (mkWorld (<[fresh (dom (heap w)) := take size bytes]> (heap w))
         (alloc_oracle (consume_alloc w)) (stderr w)).
Proof.
  intros Hok Hsrc Hsize. unfold copy_payload, malloc, bind. rewrite Hok.
  set (q := fresh (dom (heap w))).
  assert (heap w !! q = None) as Hq.
  { apply not_elem_of_dom. apply is_fresh. }
  assert (src ≠ q) as Hne by (intros ->; congruence).
  unfold memcpy, ret. cbn [mbind option_bind heap alloc_oracle stderr].
  rewrite lookup_insert_ne by done. rewrite Hsrc, lookup_insert_eq.
  rewrite decide_True by (rewrite length_replicate; lia).
  rewrite insert_insert_eq.
  rewrite drop_ge by (rewrite length_replicate; lia).
  by rewrite app_nil_r.
Qed.

Lemma copy_payload_fails data size w :
  next_alloc_ok w = false →
  copy_payload data size w = Exited EXIT_FAILURE (out_of_memory w).
Proof. intros H. unfold copy_payload, malloc, bind. by rewrite H. Qed.

Lemma bind_exited {S A B} (m : M S A) (k : A → M S B) s c s' :
  m s = Exited c s' → bind m k s = Exited c s'.
Proof. unfold bind. by intros ->. Qed.

(** ** What a split keeps *)

(** The split of a full child puts its first key and (below a leaf level)
    its first two subtrees to the left, its second key into the parent, its
    third key and the next two subtrees to the right; the walk of the child
    is the walk of the three followed by what the split leaves out. *)
Lemma split_child_inv h lf kl kr cl child cr w :
  length kl = length cl → shaped h child → num_keys child = (ORDER - 1)%nat →
  (length (kl ++ kr) < ORDER - 1)%nat →
  length (cl ++ child :: cr) = S (length (kl ++ kr)) →
  next_alloc_ok w = true →
  ∃ up left right dropped,
    btree_split_child (Node lf (kl ++ kr) (cl ++ child :: cr)) (length cl) w
    = Returned (Node lf (kl ++ up :: kr) (cl ++ left :: right :: cr))
        (consume_alloc w)
    ∧ shaped h left ∧ shaped h right
    ∧ (num_keys left < ORDER - 1)%nat ∧ (num_keys right < ORDER - 1)%nat
    ∧ elems child = elems left ++ up :: elems right ++ dropped
    ∧ dropped ≠ [].
Proof.
  intros Hlen Hs Hfull Hroom Hcount Hok.
  destruct child as [clf cks ccs]. unfold num_keys, ORDER in *. cbn [keys] in *.
  destruct cks as [|a [|b [|c [|d [|? ?]]]]]; try done. clear Hfull.
  unfold btree_split_child. cbn [children keys is_leaf].
  rewrite lookup_mid. cbn [deref bind ret].
  rewrite (bind_step _ _ _ _ _ (create_node_next clf w Hok)).
  change (ORDER / 2)%nat with 2%nat. change (2 - 1)%nat with 1%nat.
  cbn [is_leaf children keys].
  change (slots 2 1 [a; b; c; d]) with (Some [c]).
  cbn [deref bind ret lookup list_lookup].
  assert (∀ l r, Node lf (insert_at (length cl) b (kl ++ kr))
                   (insert_at (length cl + 1) r
                      (<[length cl := l]> (cl ++ Node clf [a; b; c; d] ccs :: cr)))
                 = Node lf (kl ++ b :: kr) (cl ++ l :: r :: cr)) as Hres.
  { intros l r. rewrite insert_mid, insert_at_mid_next.
    by rewrite <- Hlen, insert_at_mid. }
  assert (require (bool_decide (length cl ≤ num_keys (Node lf (kl ++ kr) (cl ++ Node clf [a; b; c; d] ccs :: cr)))%nat) (consume_alloc w)
          = Returned tt (consume_alloc w)) as Hreq1.
  { apply require_step, bool_decide_eq_true_2. unfold num_keys. cbn [keys].
    rewrite length_app. lia. }
  destruct h as [|h]; cbn [shaped is_leaf keys children] in Hs.
  - destruct Hs as (_ & -> & ->). cbn [deref bind ret].
    rewrite (bind_step _ _ _ _ _ Hreq1), Hres.
    erewrite bind_step
      by (apply require_step; unfold fits, ORDER; cbn [keys children];
          rewrite !length_app in *; cbn [length] in *;
          rewrite !bool_decide_eq_true_2 by lia; done).
    eexists _, _, _, [d]. split; [done|].
    split_and!; try (cbn; unfold num_keys; cbn; lia);
      try (cbn; unfold num_keys, ORDER; cbn; split_and!; try done; lia); done.
  - destruct Hs as (_ & -> & Hn & Hcs). cbn [length] in Hn.
    destruct ccs as [|c0 [|c1 [|c2 [|c3 [|c4 [|? ?]]]]]]; try done.
    change (slots 2 2 [c0; c1; c2; c3; c4]) with (Some [c2; c3]).
    cbn [deref bind ret take].
    rewrite (bind_step _ _ _ _ _ Hreq1), Hres.
    erewrite bind_step
      by (apply require_step; unfold fits, ORDER; cbn [keys children];
          rewrite !length_app in *; cbn [length] in *;
          rewrite !bool_decide_eq_true_2 by lia; done).
    eexists _, _, _, (d :: elems c4). split; [done|].
    repeat (apply Forall_cons in Hcs as [? Hcs]).
    split_and!; try (cbn; unfold num_keys; cbn; lia);
      try (cbn; unfold num_keys, ORDER; cbn; split_and!; try done; try lia;
           by repeat constructor); [|done].
    rewrite !elems_internal by done.
    cbn [children keys fmap list_fmap in_order head tail default].
    by rewrite <- !app_assoc.
Qed.

(** ** Inserting keeps the tree in shape and in order *)

Ltac reassoc :=
  repeat first [rewrite <- !app_assoc | progress cbn [app]].

(** The walk after the new slot went into one half of a split child. *)
Lemma split_descent_walk key x (pre post left_walk right_walk dropped c1 c2 : list KeyValue) up (go_right : bool) :
  ordered (pre ++ (left_walk ++ up :: right_walk ++ dropped) ++ post) →
  Forall (λ kv, BTree.key kv ≤ key) pre →
  Forall (λ kv, key ≤ BTree.key kv) post →
  go_right = (BTree.key up <? key) →
  c1 ++ c2 `sublist_of` (if go_right then right_walk else left_walk) →
  Forall (λ kv, BTree.key kv ≤ key) c1 →
  Forall (λ kv, key ≤ BTree.key kv) c2 →
  ∃ l1 l2,
    pre ++ ((if go_right then left_walk else c1 ++ x :: c2) ++ up
            :: (if go_right then c1 ++ x :: c2 else right_walk)) ++ post
    = l1 ++ x :: l2
    ∧ l1 ++ l2 `sublist_of`
        pre ++ (left_walk ++ up :: right_walk ++ dropped) ++ post
    ∧ Forall (λ kv, BTree.key kv ≤ key) l1
    ∧ Forall (λ kv, key ≤ BTree.key kv) l2.
Proof.
  intros Hord Hpre Hpost Hgo Hsub H1 H2.
  apply ordered_app in Hord as [_ Hord]. apply ordered_app in Hord as [Hord _].
  apply ordered_around in Hord as [Hleft Hright].
  apply Forall_app in Hright as [Hright _].
  destruct go_right; symmetry in Hgo.
  - apply Z.ltb_lt in Hgo.
    exists (pre ++ left_walk ++ up :: c1), (c2 ++ post). split_and!.
    + by reassoc.
    + reassoc. apply sublist_app; [done|].
      apply sublist_app; [done|]. apply sublist_skip.
      rewrite !app_assoc. apply sublist_app; [|done].
      by apply sublist_inserts_r.
    + rewrite !Forall_app, Forall_cons. split_and!; try done; [|lia].
      eapply Forall_le_trans; [done|lia].
    + by apply Forall_app.
  - apply Z.ltb_ge in Hgo.
    exists (pre ++ c1), (c2 ++ up :: right_walk ++ post). split_and!.
    + by reassoc.
    + reassoc. apply sublist_app; [done|].
      rewrite (app_assoc c1 c2). apply sublist_app; [done|].
      apply sublist_skip. apply sublist_app; [done|].
      by apply sublist_inserts_l.
    + by apply Forall_app.
    + rewrite !Forall_app, Forall_cons, Forall_app. split_and!; try done.
      eapply Forall_ge_trans; [done|lia].
Qed.

Lemma insert_non_full_inv h : ∀ fuel n key src size bytes w,
  (h < fuel)%nat → shaped h n → (num_keys n < ORDER - 1)%nat →
  ordered (elems n) → allocations_succeed w →
  heap w !! src = Some bytes → (size ≤ length bytes)%nat →
  ∃ n' w' l1 l2,
    btree_insert_non_full fuel n key (Some src) size w = Returned n' w'
    ∧ shaped h n'
    ∧ elems n' = l1 ++ new_slot key (fresh (dom (heap w))) size :: l2
    ∧ l1 ++ l2 `sublist_of` elems n
    ∧ Forall (λ kv, BTree.key kv ≤ key) l1
    ∧ Forall (λ kv, key ≤ BTree.key kv) l2
    ∧ (Forall (λ m, (num_keys m < ORDER - 1)%nat) (nodes n) →
       l1 ++ l2 = elems n)
    ∧ heap w' = <[fresh (dom (heap w)) := take size bytes]> (heap w)
    ∧ allocations_succeed w' ∧ stderr w' = stderr w.
Proof.
  induction h as [|h IH];
    intros [|fuel] n key src size bytes w Hfuel Hs Hroom Hord Hok Hsrc Hsize;
    try lia; cbn [btree_insert_non_full].
  - (* a leaf: the slot goes where the scan stops *)
    destruct Hs as (Hk & Hl & Hc). rewrite Hl.
    rewrite (elems_leaf n Hl) in *.
    destruct (scan_down_cut key (keys n) Hord) as (l1 & l2 & Hks & -> & H1 & H2).
    rewrite (bind_step _ _ _ tt w)
      by (apply require_step; by apply bool_decide_eq_true_2).
    rewrite (bind_step _ _ _ _ _ (copy_payload_ok src size bytes w Hok Hsrc Hsize)).
    cbn [ret]. eexists _, _, l1, l2. split; [done|].
    assert (insert_at (length l1) (new_slot key (fresh (dom (heap w))) size) (keys n)
            = l1 ++ new_slot key (fresh (dom (heap w))) size :: l2) as Hins
      by (rewrite Hks; apply insert_at_mid).
    split_and!.
    + cbn [shaped is_leaf children keys]. unfold num_keys in *. cbn [keys].
      fold (new_slot key (fresh (dom (heap w))) size). rewrite Hins.
      rewrite Hks in Hroom, Hk. rewrite !length_app in *. cbn [length].
      split_and!; try done; lia.
    + rewrite elems_leaf by done. cbn [keys]. exact Hins.
    + by rewrite Hks.
    + done.
    + eapply Forall_impl; [exact H2|]. simpl. intros. lia.
    + done.
    + done.
    + by apply consume_alloc_succeed.
    + done.
  - (* an internal node *)
    destruct n as [lf ks cs]. cbn [shaped is_leaf keys children] in Hs.
    unfold num_keys in Hs, Hroom. cbn [keys] in Hs, Hroom.
    destruct Hs as (Hk & -> & Hn & Hcs). cbn [is_leaf keys children].
    assert (ordered ks) as Hordk.
    { eapply ordered_sublist; [|exact Hord].
      apply (keys_sublist_elems (Node false ks cs)). }
    destruct (scan_down_cut key ks Hordk) as (kl & kr & -> & -> & Hkl & Hkr).
    destruct (lookup_lt_is_Some_2 cs (length kl)) as [c Hc];
      [rewrite length_app in Hn; lia|].
    apply list_elem_of_split_length in Hc as (cl & cr & -> & Hlen).
    rewrite Hlen, lookup_mid. cbn [deref bind ret].
    apply Forall_app in Hcs as [Hcl Hcs]. apply Forall_cons in Hcs as [Hsc Hcr].
    rewrite (elems_one kl kr cl c cr Hlen) in Hord |- *.
    destruct (around_child_bounds key _ (elems c) _ kl kr (elems <$> cl)
                (elems <$> cr) Hord) as [Hpre Hpost];
      [by rewrite length_fmap|done|done|done|done|].
    set (pre := walk_prefix (elems <$> cl) kl) in *.
    set (post := in_order ([] :: (elems <$> cr)) kr) in *.
    assert (ordered (elems c)) as Hordc by by eapply ordered_infix.
    destruct (num_keys c =? ORDER - 1)%nat eqn:Efull.
    + (* the child is full: split it, then go into one half *)
      apply Nat.eqb_eq in Efull.
      destruct (split_child_inv h false kl kr cl c cr w)
        as (up & left & right & dropped & Hsplit & Hsl & Hsr & Hrl & Hrr
            & Hwalk & _);
        [done|done|done|done|done|by apply next_alloc_ok_succeed|].
      rewrite (bind_step _ _ _ _ _ Hsplit). cbn [keys children is_leaf].
      rewrite <- Hlen, lookup_mid. cbn [deref bind ret].
      rewrite Hwalk in Hord, Hordc.
      assert (ordered (elems left) ∧ ordered (elems right)) as [Hol Hor].
      { apply ordered_app in Hordc as [? Hordc]. split; [done|].
        change (up :: elems right ++ dropped)
          with ([up] ++ elems right ++ dropped) in Hordc.
        by apply ordered_infix in Hordc. }
      set (go_right := (BTree.key up <? key)).
      assert (∃ chosen, chosen = (if go_right then right else left)
                        ∧ (cl ++ left :: right :: cr)
                            !! (if go_right then S (length kl) else length kl)
                          = Some chosen) as (chosen & Hchosen & ->).
      { rewrite Hlen. destruct go_right; eexists; (split; [done|]);
          [apply lookup_mid_next|apply lookup_mid]. }
      cbn [deref bind ret].
      destruct (IH fuel chosen key src size bytes (consume_alloc w))
        as (c' & w' & c1 & c2 & Hrun & Hsc' & Hel & Hsub & H1 & H2 & _
            & Hheap & Hok' & Herr);
        [lia|by subst chosen; destruct go_right
         |by subst chosen; destruct go_right
         |by subst chosen; destruct go_right
         |by apply consume_alloc_succeed|done|done|].
      rewrite (bind_step _ _ _ _ _ Hrun). cbn [ret].
      destruct (split_descent_walk key (new_slot key (fresh (dom (heap w))) size)
                  pre post (elems left) (elems right) dropped c1 c2 up go_right)
        as (l1 & l2 & Hfinal & Hsubf & Hb1 & Hb2);
        [done|done|done|done|by subst chosen; destruct go_right|done|done|].
      eexists _, w', l1, l2. split; [done|].
      assert (Node false (kl ++ up :: kr)
                (<[if go_right then S (length kl) else length kl := c']>
                   (cl ++ left :: right :: cr))
              = Node false (kl ++ up :: kr)
                  (cl ++ (if go_right then left else c')
                   :: (if go_right then c' else right) :: cr)) as ->.
      { rewrite Hlen. destruct go_right; f_equal;
          [apply insert_mid_next|apply insert_mid]. }
      split_and!.
      * cbn [shaped is_leaf keys children]. unfold num_keys. cbn [keys].
        rewrite !length_app in *. cbn [length] in *.
        split_and!; try done; try lia.
        apply Forall_app. split; [done|].
        destruct go_right; repeat (constructor; try done).
      * rewrite (elems_two kl up kr cl _ _ cr Hlen). fold pre post.
        rewrite <- Hfinal. cbn [heap consume_alloc] in Hel.
        by destruct go_right; rewrite Hel.
      * by rewrite Hwalk.
      * done.
      * done.
      * intros Hnofull. exfalso. cbn [nodes children] in Hnofull.
        apply Forall_cons in Hnofull as [_ Hnofull].
        rewrite fmap_app, concat_app, fmap_cons in Hnofull.
        apply Forall_app in Hnofull as [_ Hnofull]. cbn [concat] in Hnofull.
        apply Forall_app in Hnofull as [Hnofull _].
        destruct c as [? ? ?]. cbn [nodes] in Hnofull.
        apply Forall_cons in Hnofull as [Hnofull _]. lia.
      * done.
      * done.
      * done.
    + (* the child has room *)
      apply Nat.eqb_neq in Efull.
      destruct (IH fuel c key src size bytes w)
        as (c' & w' & c1 & c2 & Hrun & Hsc' & Hel & Hsub & H1 & H2 & Hall
            & Hheap & Hok' & Herr);
        [lia|done|pose proof (shaped_keys h c Hsc); lia|done|done|done|done|].
      rewrite (bind_step _ _ _ _ _ Hrun). cbn [ret].
      rewrite insert_mid.
      eexists _, w', (pre ++ c1), (c2 ++ post). split; [done|].
      split_and!.
      * cbn [shaped is_leaf keys children]. unfold num_keys. cbn [keys].
        rewrite !length_app in *. cbn [length] in *.
        split_and!; try done; try lia.
        apply Forall_app. split; [done|]. by constructor.
      * rewrite (elems_one kl kr cl c' cr Hlen). fold pre post.
        rewrite Hel. by reassoc.
      * reassoc. apply sublist_app; [done|].
        rewrite !app_assoc. apply sublist_app; [|done]. done.
      * by apply Forall_app.
      * by apply Forall_app.
      * intros Hnofull. reassoc. f_equal.
        rewrite !app_assoc. f_equal. apply Hall.
        cbn [nodes children] in Hnofull.
        apply Forall_cons in Hnofull as [_ Hnofull].
        rewrite fmap_app, concat_app, fmap_cons in Hnofull.
        apply Forall_app in Hnofull as [_ Hnofull]. cbn [concat] in Hnofull.
        by apply Forall_app in Hnofull as [Hnofull _].
      * done.
      * done.
      * done.
Qed.

Lemma payloads_sublist l l' :
  l `sublist_of` l' → payloads l `sublist_of` payloads l'.
Proof.
  unfold payloads. induction 1 as [|x l l' _ IH|x l l' _ IH]; cbn [omap list_omap].
  - done.
  - destruct (data (value x)); [by apply sublist_skip|done].
  - destruct (data (value x)); [by apply sublist_cons|done].
Qed.

(** A slot whose payload is a block that was not allocated before joins
    slots that were owned before. *)
Lemma owned_insert w w' l l1 l2 key p size blk :
  owned w l → l1 ++ l2 `sublist_of` l →
  heap w !! p = None → heap w' = <[p := blk]> (heap w) →
  owned w' (l1 ++ new_slot key p size :: l2).
Proof.
  intros Hown Hsub Hp Hheap.
  apply (owned_sublist w l (l1 ++ l2)) in Hown as [Hnd Hlive];
    [|by apply payloads_sublist].
  assert (p ∉ payloads (l1 ++ l2)) as Hfresh.
  { intros Hin. destruct (Hlive p Hin) as [? ?]. congruence. }
  rewrite payloads_app in Hnd, Hlive, Hfresh.
  split.
  - rewrite payloads_app. unfold payloads at 2. cbn [omap list_omap new_slot data value].
    fold (payloads l2). apply NoDup_app in Hnd as (Hn1 & Hdisj & Hn2).
    apply NoDup_app. split_and!; [done| |].
    + intros x Hx Hx2. apply elem_of_cons in Hx2 as [->|Hx2].
      * apply Hfresh. apply elem_of_app. by left.
      * by apply (Hdisj x).
    + apply NoDup_cons. split; [|done]. intros Hin. apply Hfresh.
      apply elem_of_app. by right.
  - intros q Hq. rewrite Hheap. rewrite payloads_app in Hq.
    unfold payloads at 2 in Hq. cbn [omap list_omap new_slot data value] in Hq.
    fold (payloads l2) in Hq.
    destruct (decide (q = p)) as [->|Hne]; [by rewrite lookup_insert_eq|].
    rewrite lookup_insert_ne by done. apply Hlive.
    apply elem_of_app in Hq as [Hq|Hq]; apply elem_of_app; [by left|right].
    by apply elem_of_cons in Hq as [?|Hq].
Qed.

Lemma allocations_succeed_oracle w w' :
  alloc_oracle w' = alloc_oracle w → allocations_succeed w →
  allocations_succeed w'.
Proof. unfold allocations_succeed. by intros ->. Qed.

Lemma insert_inv t key src size bytes w :
  well_formed w (Some t) → allocations_succeed w →
  heap w !! src = Some bytes → (size ≤ length bytes)%nat →
  ∃ tree' w' l1 l2,
    btree_insert (Some t) key (Some src) size w = Returned tree' w'
    ∧ well_formed w' tree'
    ∧ tree_elems tree' = l1 ++ new_slot key (fresh (dom (heap w))) size :: l2
    ∧ l1 ++ l2 `sublist_of` tree_elems (Some t)
    ∧ (Forall (λ m, (num_keys m < ORDER - 1)%nat) (tree_nodes (Some t)) →
       l1 ++ l2 = tree_elems (Some t))
    ∧ heap w' = <[fresh (dom (heap w)) := take size bytes]> (heap w)
    ∧ allocations_succeed w' ∧ stderr w' = stderr w
    ∧ Forall (λ kv, BTree.key kv ≤ key) l1
    ∧ Forall (λ kv, key ≤ BTree.key kv) l2.
Proof.
  unfold well_formed, tree_elems, tree_nodes, btree_insert.
  cbn [mbind option_bind].
  intros Hwf Hok Hsrc Hsize.
  assert (heap w !! fresh (dom (heap w)) = None) as Hfresh
    by (apply not_elem_of_dom, is_fresh).
  destruct (root t) as [r|] eqn:Hroot; cbn [from_option] in *.
  2:{ (* the first key: a leaf root *)
    rewrite (bind_step _ _ _ _ _ (create_node_ok true w Hok)).
    rewrite (bind_step _ _ _ _ _
               (copy_payload_ok src size bytes (consume_alloc w)
                  (consume_alloc_succeed w Hok) Hsrc Hsize)).
    cbn [ret is_leaf children heap consume_alloc].
    eexists _, _, [], []. split; [done|].
    cbn [mbind option_bind root from_option].
    split_and!; try done.
    - exists O. cbn. unfold num_keys, ORDER. cbn. split_and!; try done; lia.
    - unfold ordered. cbn. repeat constructor.
    - rewrite elems_leaf by done. cbn [keys].
      apply (owned_insert w _ [] [] [] key _ size (take size bytes));
        [|done|done|done].
      split; [constructor|]. intros p Hp. by apply elem_of_nil in Hp.
    - by apply consume_alloc_succeed, consume_alloc_succeed. }
  destruct Hwf as ([h Hs] & Hord & Hown).
  pose proof (shaped_height h r Hs) as Hheight.
  assert (∀ r' w' l1 l2 h',
            shaped h' r' →
            elems r' = l1 ++ new_slot key (fresh (dom (heap w))) size :: l2 →
            l1 ++ l2 `sublist_of` elems r →
            Forall (λ kv, BTree.key kv ≤ key) l1 →
            Forall (λ kv, key ≤ BTree.key kv) l2 →
            heap w' = <[fresh (dom (heap w)) := take size bytes]> (heap w) →
            (∃ h, shaped h r') ∧ ordered (elems r') ∧ owned w' (elems r'))
    as Hfinish.
  { intros r' w' l1 l2 h' Hs' Hel Hsub H1 H2 Hheap. split_and!; [by eexists| |].
    - rewrite Hel. apply ordered_insert; [|done|done].
      by eapply ordered_sublist.
    - rewrite Hel. by eapply owned_insert. }
  destruct (num_keys r =? ORDER - 1)%nat eqn:Efull.
  - (* a full root: the tree grows by a level *)
    apply Nat.eqb_eq in Efull.
    rewrite (bind_step _ _ _ _ _ (create_node_ok false w Hok)).
    cbn [is_leaf keys].
    destruct (split_child_inv h false [] [] [] r [] (consume_alloc w))
      as (up & left & right & dropped & Hsplit & Hsl & Hsr & Hrl & Hrr
          & Hwalk & _);
      [done|done|done|cbn; unfold ORDER; lia|done
      |by apply next_alloc_ok_succeed, consume_alloc_succeed|].
    cbn [app length] in Hsplit.
    rewrite (bind_step _ _ _ _ _ Hsplit). cbn [keys children is_leaf].
    cbn [lookup list_lookup deref bind ret].
    rewrite Hwalk in Hord.
    assert (ordered (elems left) ∧ ordered (elems right)) as [Hol Hor].
    { apply ordered_app in Hord as [? Hordc]. split; [done|].
      change (up :: elems right ++ dropped)
        with ([up] ++ elems right ++ dropped) in Hordc.
      by apply ordered_infix in Hordc. }
    set (go_right := (BTree.key up <? key)).
    assert (∃ chosen, chosen = (if go_right then right else left)
                      ∧ [left; right] !! (if go_right then 1%nat else 0%nat)
                        = Some chosen) as (chosen & Hchosen & ->).
    { destruct go_right; by eexists. }
    cbn [deref bind ret].
    destruct (insert_non_full_inv h (height r) chosen key src size bytes
                (consume_alloc (consume_alloc w)))
      as (c' & w' & c1 & c2 & Hrun & Hsc' & Hel & Hsub & H1 & H2 & _
          & Hheap & Hok' & Herr);
      [lia|by subst chosen; destruct go_right
       |by subst chosen; destruct go_right
       |by subst chosen; destruct go_right
       |by apply consume_alloc_succeed, consume_alloc_succeed|done|done|].
    rewrite (bind_step _ _ _ _ _ Hrun). cbn [ret].
    destruct (split_descent_walk key (new_slot key (fresh (dom (heap w))) size)
                [] [] (elems left) (elems right) dropped c1 c2 up go_right)
      as (l1 & l2 & Hfinal & Hsubf & Hb1 & Hb2);
      [by rewrite app_nil_r|done|done|done
      |by subst chosen; destruct go_right|done|done|].
    cbn [app] in Hfinal, Hsubf. rewrite app_nil_r in Hfinal, Hsubf.
    eexists _, w', l1, l2. split; [done|].
    cbn [mbind option_bind root from_option].
    assert (elems (Node false [up]
                     (<[if go_right then 1%nat else 0%nat := c']> [left; right]))
            = l1 ++ new_slot key (fresh (dom (heap w))) size :: l2) as Hel'.
    { rewrite <- Hfinal. cbn [heap consume_alloc] in Hel.
      destruct go_right; cbn [insert list_insert];
        rewrite elems_internal by done;
        cbn [keys children fmap list_fmap in_order head tail default app];
        rewrite Hel; by rewrite ?app_nil_r. }
    split; [|split_and!; try done].
    + eapply (Hfinish _ w' l1 l2 (S h)); try done; [|by rewrite Hwalk].
      cbn [shaped is_leaf keys children]. unfold num_keys, ORDER. cbn [keys length].
      split_and!; try done; try lia.
      * by destruct go_right.
      * destruct go_right; cbn [insert list_insert]; by repeat constructor.
    + by rewrite Hwalk.
    + intros Hnofull. exfalso. destruct r as [? ? ?]. cbn [nodes] in Hnofull.
      apply Forall_cons in Hnofull as [Hnofull _]. lia.
  - (* the root has room *)
    apply Nat.eqb_neq in Efull.
    destruct (insert_non_full_inv h (height r) r key src size bytes w)
      as (r' & w' & l1 & l2 & Hrun & Hs' & Hel & Hsub & H1 & H2 & Hall
          & Hheap & Hok' & Herr);
      [lia|done|pose proof (shaped_keys h r Hs); lia|done|done|done|done|].
    rewrite (bind_step _ _ _ _ _ Hrun). cbn [ret].
    eexists _, w', l1, l2. split; [done|].
    cbn [mbind option_bind root from_option].
    split; [by eapply Hfinish|]. split_and!; done.
Qed.

(** ** Releasing payload blocks *)

Lemma release_nil w : release [] w = w.
Proof. by destruct w. Qed.

Lemma release_app F1 F2 w : release F2 (release F1 w) = release (F2 ++ F1) w.
Proof. unfold release. cbn [heap alloc_oracle stderr]. by rewrite foldr_app. Qed.

Lemma payloads_cons kv l :
  payloads (kv :: l) = option_list (data (value kv)) ++ payloads l.
Proof. unfold payloads. cbn. by destruct (data (value kv)). Qed.

Lemma payloads_single kv : payloads [kv] = option_list (data (value kv)).
Proof. rewrite payloads_cons. apply app_nil_r. Qed.

Lemma payloads_slot k v : payloads [mkKV k v] = option_list (data v).
Proof. unfold payloads. cbn. by destruct (data v). Qed.

Lemma payloads_same_value kv kv' :
  value kv' = value kv → payloads [kv'] = payloads [kv].
Proof. unfold payloads. cbn. by intros ->. Qed.

(** [free] of the payload of an owned slot. *)
Lemma free_slot w kv :
  (∀ p, p ∈ payloads [kv] → is_Some (heap w !! p)) →
  free (data (value kv)) w = Returned tt (release (payloads [kv]) w).
Proof.
  unfold payloads. cbn [omap list_omap]. intros Hlive.
  destruct (data (value kv)) as [p|]; cbn [free].
  - destruct (Hlive p) as [blk ->]; [apply list_elem_of_here|]. done.
  - by rewrite release_nil.
Qed.

(** Slots whose payloads were owned, and are not among the blocks
    released, are owned afterwards. *)
Lemma owned_release w l freed l' :
  owned w l → freed ++ payloads l' ⊆+ payloads l →
  owned (release freed w) l'.
Proof.
  intros [Hnd Hlive] Hsub.
  apply submseteq_Permutation in Hsub as [rest Hperm].
  rewrite Hperm in Hnd.
  apply NoDup_app in Hnd as [Hnd _]. apply NoDup_app in Hnd as (_ & Hdisj & Hnd').
  split; [done|]. intros p Hp. unfold release. cbn [heap].
  rewrite lookup_foldr_delete_not_elem_of.
  - apply Hlive. rewrite Hperm, !elem_of_app. auto.
  - intros Hin. by apply (Hdisj p).
Qed.

(** ** Slots whose data pointer was cleared *)

Lemma keys_in_order_clear subs ks i :
  BTree.key <$> in_order subs (clear_data i ks)
  = BTree.key <$> in_order subs ks.
Proof.
  revert subs i. induction ks as [|k ks IH]; intros subs i; [done|].
  destruct i as [|i]; cbn [clear_data alter list_alter in_order];
    rewrite !fmap_app, !fmap_cons; [done|].
  f_equal. f_equal. apply IH.
Qed.

Lemma keys_clear_data n i :
  BTree.key <$> elems (Node (is_leaf n) (clear_data i (keys n)) (children n))
  = BTree.key <$> elems n.
Proof.
  destruct n as [lf ks cs]. cbn [is_leaf keys children elems].
  apply keys_in_order_clear.
Qed.

Lemma payloads_in_order_clear subs ks i kv :
  ks !! i = Some kv →
  payloads (in_order subs ks)
  ≡ₚ payloads [kv] ++ payloads (in_order subs (clear_data i ks)).
Proof.
  revert subs i. induction ks as [|k ks IH]; intros subs i Hkv; [done|].
  destruct i as [|i]; cbn [clear_data alter list_alter in_order];
    cbn [lookup list_lookup] in Hkv.
  - injection Hkv as ->. rewrite !payloads_app, !payloads_cons.
    change (payloads []) with (@nil loc).
    cbn [data value option_list app]. solve_Permutation.
  - rewrite !payloads_app, !payloads_cons.
    rewrite (IH (tail subs) i Hkv), payloads_single. solve_Permutation.
Qed.

Lemma payloads_clear_data_perm n i kv :
  keys n !! i = Some kv →
  payloads (elems n)
  ≡ₚ payloads [kv]
     ++ payloads (elems (Node (is_leaf n) (clear_data i (keys n)) (children n))).
Proof.
  destruct n as [lf ks cs]. cbn [is_leaf keys children elems].
  apply payloads_in_order_clear.
Qed.

(** ** The neighbouring keys are the ends of the neighbouring walks *)

Lemma rightmost_key_last h : ∀ n k,
  shaped h n → rightmost_key n = Some k →
  ∃ l0, BTree.key <$> elems n = l0 ++ [k].
Proof.
  induction h as [|h IH]; intros [lf ks cs] k; cbn [shaped is_leaf keys children];
    unfold num_keys; cbn [keys rightmost_key is_leaf children].
  - intros (Hk & -> & _). unfold num_keys. cbn [keys].
    rewrite decide_False by lia. intros Hlast.
    rewrite elems_leaf by done. cbn [keys].
    destruct (split_last ks (length ks - 1)) as (l0 & x & -> & _); [lia|].
    rewrite length_app in Hlast. cbn [length] in Hlast.
    replace (length l0 + 1 - 1)%nat with (length l0) in Hlast by lia.
    rewrite lookup_mid in Hlast. injection Hlast as <-.
    exists (BTree.key <$> l0). by rewrite fmap_app.
  - intros (Hk & -> & Hn & Hcs). unfold num_keys. cbn [keys].
    destruct (split_last cs (length ks)) as (cs0 & c & -> & Hl0); [done|].
    rewrite list_lookup_fmap, <- Hl0, lookup_mid.
    cbn [fmap option_fmap option_map mjoin option_join]. intros Hlast.
    apply Forall_app in Hcs as [_ Hc]. rewrite Forall_singleton in Hc.
    destruct (IH c k Hc Hlast) as [l0 Hel].
    rewrite elems_internal by done. cbn [keys children].
    rewrite fmap_app. cbn [fmap list_fmap].
    rewrite <- (app_nil_r ks), in_order_app by (by rewrite length_fmap).
    cbn [in_order head default]. unfold id. rewrite fmap_app, Hel.
    eexists. by rewrite app_assoc.
Qed.

Lemma leftmost_key_first h : ∀ n k,
  shaped h n → leftmost_key n = Some k →
  ∃ l0, BTree.key <$> elems n = k :: l0.
Proof.
  induction h as [|h IH]; intros [lf ks cs] k; cbn [shaped is_leaf keys children];
    unfold num_keys; cbn [keys leftmost_key is_leaf children].
  - intros (Hk & -> & _) Hfirst. rewrite elems_leaf by done. cbn [keys].
    destruct ks as [|x ks]; [done|]. injection Hfirst as <-. by eexists.
  - intros (Hk & -> & Hn & Hcs).
    destruct cs as [|c cs]; [done|]. cbn [fmap list_fmap lookup list_lookup].
    cbn [mjoin option_join]. intros Hfirst.
    apply Forall_cons in Hcs as [Hc _].
    destruct (IH c k Hc Hfirst) as [l0 Hel].
    rewrite elems_internal by done. cbn [keys children fmap list_fmap].
    rewrite in_order_cons, fmap_app, Hel. by eexists.
Qed.

(** In an ascending list that ends with [p], what follows an occurrence of
    [p] is [p] again. *)
Lemma constant_snoc (p : Z) m : Forall (λ x, x = p) m → m ++ [p] = p :: m.
Proof.
  induction 1 as [|x m -> _ IH]; [done|]. cbn [app]. by rewrite IH.
Qed.

Lemma ascending_to_last (l0 m1 m2 : list Z) p :
  StronglySorted Z.le (l0 ++ [p]) → l0 ++ [p] = m1 ++ p :: m2 →
  (m1 ++ m2) ++ [p] = l0 ++ [p].
Proof.
  intros Hs Heq. rewrite Heq in Hs |- *.
  rewrite <- app_assoc. f_equal.
  apply constant_snoc.
  apply StronglySorted_app_1_r in Hs.
  apply StronglySorted_cons in Hs as [Hge Hs].
  destruct (decide (m2 = [])) as [->|Hne]; [constructor|].
  destruct (exists_last Hne) as (m0 & x & ->).
  assert (x = p) as ->.
  { assert (m1 ++ p :: m0 ++ [x] = (m1 ++ p :: m0) ++ [x]) as E
      by (by rewrite <- app_assoc).
    rewrite E in Heq. by apply app_inj_tail in Heq as [_ ->]. }
  apply Forall_forall. intros y Hy.
  pose proof (proj1 (Forall_forall _ _) Hge y Hy) as H1.
  apply elem_of_app in Hy as [Hy|Hy].
  - apply (StronglySorted_app_1_elem_of _ _ _ y p) in Hs;
      [lia|done|apply list_elem_of_here].
  - by apply list_elem_of_singleton in Hy.
Qed.

Lemma ascending_from_first (l0 m1 m2 : list Z) p :
  StronglySorted Z.le (p :: l0) → p :: l0 = m1 ++ p :: m2 →
  p :: m1 ++ m2 = p :: l0.
Proof.
  intros Hs Heq. rewrite Heq in Hs |- *.
  assert (Forall (λ x, x = p) m1) as Hconst.
  { destruct m1 as [|x m1]; [constructor|].
    cbn [app] in Heq. injection Heq as <- _.
    cbn [app] in Hs. apply StronglySorted_cons in Hs as [Hge Hs].
    constructor; [done|].
    apply Forall_forall. intros y Hy.
    pose proof (proj1 (Forall_forall _ _) Hge y) as H1.
    rewrite elem_of_app in H1. specialize (H1 (or_introl Hy)).
    apply (StronglySorted_app_1_elem_of _ _ _ y p) in Hs;
      [lia|done|apply list_elem_of_here]. }
  clear Heq Hs. induction Hconst as [|x m1 -> _ IH]; [done|].
  cbn [app]. by rewrite <- IH.
Qed.

(** ** The shape a deletion leaves *)

Lemma shaped_of_top h n : shaped_top h n → (1 ≤ num_keys n)%nat → shaped h n.
Proof.
  unfold shaped_top. destruct h; cbn [shaped]; intros [H1 H2] H3;
    (split; [lia|done]).
Qed.

Lemma shaped_to_top h n : shaped h n → shaped_top h n.
Proof.
  unfold shaped_top. destruct h; cbn [shaped]; intros [H1 H2];
    (split; [lia|done]).
Qed.

(** The merged child holds the keys of both children and the key between
    them. *)
Lemma merge_children_keys node idx n' c sib down m :
  btree_merge_children node idx = Some n' →
  children node !! idx = Some c → children node !! (idx + 1)%nat = Some sib →
  keys node !! idx = Some down → children n' !! idx = Some m →
  keys m = keys c ++ down :: keys sib.
Proof.
  unfold btree_merge_children. intros Hrun Hc Hs Hd Hm.
  rewrite Hc, Hs, Hd in Hrun. cbn [mbind option_bind] in Hrun.
  destruct (if is_leaf c then Some []
            else _ ← guard (owns_children c);
                 slots 0 (S (num_keys sib)) (children sib)) as [moved|];
    [|done].
  cbn [mbind option_bind] in Hrun.
  destruct (guard (fits _)) as [?|]; [|done].
  cbn [mbind option_bind] in Hrun. injection Hrun as <-.
  cbn [children] in Hm.
  apply list_lookup_insert_Some in Hm as [(_ & <- & _)|[? _]]; done.
Qed.

(** A child inside the walk of its parent, and the walk after the child
    has been replaced. *)
Lemma child_infix_set n i c :
  is_leaf n = false → children n !! i = Some c → (i ≤ num_keys n)%nat →
  ∃ pre post, elems n = pre ++ elems c ++ post
              ∧ ∀ c', elems (set_child n i c') = pre ++ elems c' ++ post.
Proof.
  intros Hl Hc Hi.
  apply list_elem_of_split_length in Hc as (cl & cr & Hcs & ->).
  destruct (split_at (keys n) (length cl) Hi) as (kl & kr & Hks & Hlen).
  eexists _, _. split; [by apply (elems_around n cl c cr kl kr)|].
  intros c'. apply (elems_around (set_child n (length cl) c') cl c' cr kl kr);
    try done.
  cbn [set_child children]. rewrite Hcs. apply insert_mid.
Qed.

Lemma shaped_top_set_child h n i c c' :
  shaped_top (S h) n → children n !! i = Some c → shaped h c' →
  shaped_top (S h) (set_child n i c')
  ∧ num_keys (set_child n i c') = num_keys n.
Proof.
  destruct n as [lf ks cs]. unfold shaped_top, set_child, num_keys.
  cbn [is_leaf keys children]. intros (Hk & -> & Hn & Hcs) Hc Hs'.
  split; [|done]. split_and!; try done.
  - by rewrite length_insert.
  - apply Forall_insert; done.
Qed.

(** The node after an under-full child has been filled: one key fewer at
    most, every child in shape, and at least two keys in the child the
    deletion goes into. *)
Lemma fill_child_inv h n idx c :
  shaped (S h) n → children n !! idx = Some c →
  (num_keys c < ORDER / 2)%nat →
  ∃ n1 tgt c1,
    btree_fill_child n idx = Some n1
    ∧ tgt = (if bool_decide (idx = num_keys n)
                && bool_decide (num_keys n1 < idx)%nat
             then (idx - 1)%nat else idx)
    ∧ children n1 !! tgt = Some c1
    ∧ shaped h c1 ∧ (2 ≤ num_keys c1)%nat
    ∧ shaped_top (S h) n1 ∧ (num_keys n ≤ S (num_keys n1))%nat
    ∧ elems n1 = elems n
    ∧ (∀ x, x ∈ elems c → x ∈ elems c1).
Proof.
  destruct n as [lf ks cs]. cbn [shaped children keys is_leaf].
  intros (Hk & -> & Hn & Hcs) Hc Hpoor.
  unfold num_keys in Hk, Hn |- *. cbn [keys] in Hk, Hn |- *.
  assert (idx ≤ length ks)%nat as Hidx by (apply lookup_lt_Some in Hc; lia).
  assert (shaped h c) as Hsc by (eapply Forall_lookup_1; eauto).
  change (ORDER / 2)%nat with 2%nat in *.
  unfold btree_fill_child. cbn [children keys].
  change (num_keys (Node false ks cs)) with (length ks).
  change (ORDER / 2)%nat with 2%nat.
  assert (∀ kl kr cl a b cr,
            ks = kl ++ kr ∨ True → Forall (shaped h) (cl ++ cr) →
            shaped h a → shaped h b →
            Forall (shaped h) (cl ++ a :: b :: cr)) as Hall2.
  { intros kl kr cl a b cr _ H Ha Hb. apply Forall_app in H as [? ?].
    apply Forall_app. split; [done|]. by repeat constructor. }
  (* is there a previous sibling with a key to spare? *)
  assert (∃ b, (if decide (idx = O) then Some false
                else p ← cs !! (idx - 1)%nat; Some (bool_decide (2 ≤ num_keys p)%nat))
               = Some b
               ∧ (b = true → idx ≠ O ∧ ∃ p, cs !! (idx - 1)%nat = Some p
                                         ∧ (2 ≤ num_keys p)%nat)
               ∧ (b = false → idx ≠ O → ∃ p, cs !! (idx - 1)%nat = Some p
                                         ∧ (num_keys p < 2)%nat))
    as (prev_rich & -> & Hprev1 & Hprev0).
  { destruct (decide (idx = O)); [by eexists|].
    destruct (lookup_lt_is_Some_2 cs (idx - 1)) as [p Hp]; [lia|].
    rewrite Hp. eexists. split; [done|]. split; intros Hb.
    - apply bool_decide_eq_true in Hb. eauto.
    - apply bool_decide_eq_false in Hb. intros _. exists p. split; [done|lia]. }
  cbn [mbind option_bind].
  destruct prev_rich.
  { (* borrow from the previous sibling *)
    destruct Hprev1 as (Hz & prev & Hprev & Hrich); [done|].
    assert (cs !! S (idx - 1) = Some c) as Hc1
      by (by replace (S (idx - 1)) with idx by lia).
    destruct (split_two cs (idx - 1) prev c Hprev Hc1) as (cl & cr & -> & Hcl).
    destruct (split_key ks (idx - 1)) as (kl & down & kr & -> & Hkl); [lia|].
    assert (idx = S (length cl)) as -> by lia.
    assert (length kl = length cl) as Hlen by lia.
    apply Forall_app in Hcs as [Hscl Hcs]. apply Forall_cons in Hcs as [Hsp Hcs].
    apply Forall_cons in Hcs as [_ Hscr].
    destruct (borrow_from_prev_spec h false kl down kr cl prev c cr)
      as (up & sib' & c' & Hrun & Hs' & Hc' & Hel & [pre Hpre] & Htwo);
      [done|done|done|done|counts|].
    rewrite Hrun. eexists _, (S (length cl)), c'. split; [done|].
    split.
    { rewrite (bool_decide_eq_false_2 (_ < _)%nat); [by rewrite andb_false_r|].
      counts. }
    split_and!; [apply lookup_mid_next|done|done| |counts| |].
    - unfold shaped_top, num_keys. cbn [is_leaf keys children].
      split_and!; [counts|done|counts|].
      apply Forall_app. split; [done|]. by repeat constructor.
    - rewrite (elems_two kl up kr cl sib' c' cr),
        (elems_two kl down kr cl prev c cr) by done.
      by rewrite Hel.
    - intros x Hx. rewrite Hpre. apply elem_of_app. by right. }
  (* is there a next sibling with a key to spare? *)
  assert (∃ b, (if decide (idx = length ks) then Some false
                else p ← cs !! (idx + 1)%nat; Some (bool_decide (2 ≤ num_keys p)%nat))
               = Some b
               ∧ (b = true → idx ≠ length ks ∧ ∃ p, cs !! S idx = Some p
                                         ∧ (2 ≤ num_keys p)%nat)
               ∧ (b = false → idx ≠ length ks → ∃ p, cs !! S idx = Some p
                                         ∧ (num_keys p < 2)%nat))
    as (next_rich & -> & Hnext1 & Hnext0).
  { destruct (decide (idx = length ks)); [by eexists|].
    rewrite Nat.add_1_r.
    destruct (lookup_lt_is_Some_2 cs (S idx)) as [p Hp]; [lia|].
    rewrite Hp. eexists. split; [done|]. split; intros Hb.
    - apply bool_decide_eq_true in Hb. eauto.
    - apply bool_decide_eq_false in Hb. intros _. exists p. split; [done|lia]. }
  cbn [mbind option_bind].
  destruct next_rich.
  { (* borrow from the next sibling *)
    destruct Hnext1 as (Hz & sib & Hsib & Hrich); [done|].
    destruct (split_two cs idx c sib Hc Hsib) as (cl & cr & -> & Hcl).
    destruct (split_key ks idx) as (kl & down & kr & -> & Hkl); [lia|].
    subst idx.
    apply Forall_app in Hcs as [Hscl Hcs]. apply Forall_cons in Hcs as [_ Hcs].
    apply Forall_cons in Hcs as [Hss Hscr].
    destruct (borrow_from_next_spec h false kl down kr cl c sib cr)
      as (up & c' & sib' & Hrun & Hc' & Hs' & Hel & [post Hpost] & Htwo);
      [done|done|done|done|counts|].
    rewrite Hrun. eexists _, (length cl), c'. split; [done|].
    split; [by rewrite bool_decide_eq_false_2 by (rewrite length_app; simpl; lia)|].
    split_and!; [apply lookup_mid|done|done| |counts| |].
    - unfold shaped_top, num_keys. cbn [is_leaf keys children].
      split_and!; [counts|done|counts|].
      apply Forall_app. split; [done|]. by repeat constructor.
    - rewrite (elems_two kl up kr cl c' sib' cr),
        (elems_two kl down kr cl c sib cr) by done.
      by rewrite Hel.
    - intros x Hx. rewrite Hpost. apply elem_of_app. by left. }
  clear Hprev1 Hnext1. specialize (Hprev0 eq_refl). specialize (Hnext0 eq_refl).
  destruct (decide (idx = length ks)) as [Hlast|Hlast].
  - (* the last child: merge it into its previous sibling *)
    rewrite option_guard_True by lia.
    destruct Hprev0 as (prev & Hprev & Hpp); [lia|].
    assert (cs !! S (idx - 1) = Some c) as Hc1
      by (by replace (S (idx - 1)) with idx by lia).
    destruct (split_two cs (idx - 1) prev c Hprev Hc1) as (cl & cr & -> & Hcl).
    destruct (split_key ks (idx - 1)) as (kl & down & kr & -> & Hkl); [lia|].
    assert (length kl = length cl) as Hlen by lia.
    apply Forall_app in Hcs as [Hscl Hcs]. apply Forall_cons in Hcs as [Hsp Hcs].
    apply Forall_cons in Hcs as [_ Hscr].
    destruct (merge_children_spec h false kl down kr cl prev c cr)
      as (m & Hrun & Hm & Hel); [done|done|done|counts|].
    assert (idx = S (length cl)) as -> by lia.
    replace (S (length cl) - 1)%nat with (length cl) by lia.
    rewrite Hrun. eexists _, (length cl), m. split; [done|].
    split.
    { rewrite bool_decide_eq_true_2 by done.
      by rewrite bool_decide_eq_true_2 by counts. }
    pose proof (merge_children_keys _ _ _ prev c down m Hrun) as Hkeys.
    cbn [children keys] in Hkeys. rewrite Nat.add_1_r in Hkeys.
    rewrite lookup_mid, lookup_mid_next, <- Hlen, lookup_mid, Hlen, lookup_mid
      in Hkeys.
    specialize (Hkeys eq_refl eq_refl eq_refl eq_refl).
    pose proof (shaped_keys h prev Hsp). pose proof (shaped_keys h c Hsc).
    split_and!; [apply lookup_mid|done| | |counts| |].
    + unfold num_keys in *. rewrite Hkeys, length_app. cbn [length]. lia.
    + unfold shaped_top, num_keys. cbn [is_leaf keys children].
      split_and!; [counts|done|counts|].
      apply Forall_app. split; [done|]. by repeat constructor.
    + rewrite (elems_one kl kr cl m cr), (elems_two kl down kr cl prev c cr) by done.
      by rewrite Hel.
    + intros x Hx. rewrite Hel. rewrite elem_of_app, elem_of_cons. auto.
  - (* merge the next sibling into the child *)
    destruct Hnext0 as (sib & Hsib & Hsp); [done|].
    destruct (split_two cs idx c sib Hc Hsib) as (cl & cr & -> & Hcl).
    destruct (split_key ks idx) as (kl & down & kr & -> & Hkl); [lia|].
    assert (length kl = length cl) as Hlen by lia.
    subst idx.
    apply Forall_app in Hcs as [Hscl Hcs]. apply Forall_cons in Hcs as [_ Hcs].
    apply Forall_cons in Hcs as [Hss Hscr].
    destruct (merge_children_spec h false kl down kr cl c sib cr)
      as (m & Hrun & Hm & Hel); [done|done|done|counts|].
    rewrite Hrun. eexists _, (length cl), m. split; [done|].
    split; [by rewrite bool_decide_eq_false_2 by done|].
    pose proof (merge_children_keys _ _ _ c sib down m Hrun) as Hkeys.
    cbn [children keys] in Hkeys. rewrite Nat.add_1_r in Hkeys.
    rewrite lookup_mid, lookup_mid_next, <- Hlen, lookup_mid, Hlen, lookup_mid
      in Hkeys.
    specialize (Hkeys eq_refl eq_refl eq_refl eq_refl).
    pose proof (shaped_keys h sib Hss). pose proof (shaped_keys h c Hsc).
    split_and!; [apply lookup_mid|done| | |counts| |].
    + unfold num_keys in *. rewrite Hkeys, length_app. cbn [length]. lia.
    + unfold shaped_top, num_keys. cbn [is_leaf keys children].
      split_and!; [counts|done|counts|].
      apply Forall_app. split; [done|]. by repeat constructor.
    + rewrite (elems_one kl kr cl m cr), (elems_two kl down kr cl c sib cr) by done.
      by rewrite Hel.
    + intros x Hx. rewrite Hel. apply elem_of_app. by left.
Qed.

(** ** Deleting: the leaf and the descent *)

Lemma payloads_around l1 kv l2 :
  payloads (l1 ++ kv :: l2) = payloads l1 ++ payloads [kv] ++ payloads l2.
Proof.
  rewrite payloads_app. f_equal. apply (payloads_app [kv] l2).
Qed.

Lemma payloads_two P a k b Q :
  payloads (P ++ (a ++ k :: b) ++ Q)
  = payloads P ++ (payloads a ++ payloads [k] ++ payloads b) ++ payloads Q.
Proof.
  change (k :: b) with ([k] ++ b). by rewrite !payloads_app.
Qed.

Lemma owned_live w l p : owned w l → p ∈ payloads l → is_Some (heap w !! p).
Proof. intros [_ H]. apply H. Qed.

Lemma delete_in_leaf n idx kv w :
  shaped 0 n → owned w (elems n) → keys n !! idx = Some kv →
  ∃ n' w', btree_remove_from_leaf n idx w = Returned n' w'
           ∧ deletion (BTree.key kv) 0 n w true n' w'.
Proof.
  intros (Hk & Hl & Hc) Hown Hkv. rewrite (elems_leaf n Hl) in Hown.
  unfold btree_remove_from_leaf. rewrite Hkv. cbn [deref bind ret].
  apply list_elem_of_split_length in Hkv as (kl & kr & Hks & ->).
  rewrite Hks in Hown |- *. rewrite delete_middle.
  rewrite (bind_step _ _ _ tt (release (payloads [kv]) w)).
  2:{ apply free_slot. intros p Hp. apply (owned_live _ _ _ Hown).
      rewrite payloads_around, !elem_of_app. auto. }
  eexists _, _. split; [done|]. unfold deletion, shaped_top.
  unfold num_keys in *. rewrite Hks, length_app in Hk. cbn [length] in Hk.
  rewrite !elems_leaf by done. cbn [keys]. rewrite Hks.
  split_and!; try done.
  - rewrite length_app. lia.
  - rewrite !length_app. cbn [length]. lia.
  - exists (BTree.key <$> kl), (BTree.key <$> kr).
    by rewrite !fmap_app, fmap_cons.
  - exists (payloads [kv]). split; [done|]. split; [|done].
    rewrite payloads_around, payloads_app. solve_Permutation.
Qed.

(** The deletion below the child [c1] of [n1], seen from the node [n] that
    [n1] came from. *)
Lemma descend_deletion key h n n1 tgt c1 w b c' w' :
  elems n1 = elems n → shaped_top (S h) n1 →
  (num_keys n ≤ S (num_keys n1))%nat →
  children n1 !! tgt = Some c1 → (2 ≤ num_keys c1)%nat →
  deletion key h c1 w b c' w' →
  (b = false → key ∉ BTree.key <$> elems n) →
  deletion key (S h) n w b (set_child n1 tgt c') w'.
Proof.
  intros Hel Htop Hcount Hc1 Htwo (Htop' & Hcount' & Hrem & F & Hw & Hperm & Hno)
    Habs.
  assert (shaped h c') as Hs' by (apply shaped_of_top; [done|lia]).
  destruct (shaped_top_set_child h n1 tgt c1 c' Htop Hc1 Hs') as [Htop1 Hnum].
  pose proof Htop as (_ & Hl & Hn & _).
  assert (tgt ≤ num_keys n1)%nat as Hi by (apply lookup_lt_Some in Hc1; lia).
  destruct (child_infix_set n1 tgt c1 Hl Hc1 Hi) as (pre & post & Hin & Hout).
  unfold deletion. rewrite Hnum, Hout, <- Hel, Hin.
  split_and!; try done.
  - destruct b; cbn [removed] in *.
    + destruct Hrem as (k1 & k2 & Hk & Hk').
      exists ((BTree.key <$> pre) ++ k1), (k2 ++ (BTree.key <$> post)).
      rewrite !fmap_app, Hk, Hk'. split; by reassoc.
    + destruct Hrem as [-> _]. split; [done|].
      rewrite <- Hin, Hel. by apply Habs.
  - exists F. split; [done|]. split; [|done].
    rewrite !payloads_app, Hperm. solve_Permutation.
Qed.

(** ** Deleting a key of an internal node *)

Lemma num_keys_clear_data n i :
  num_keys (Node (is_leaf n) (clear_data i (keys n)) (children n)) = num_keys n.
Proof. unfold num_keys, clear_data. cbn [keys]. apply length_alter. Qed.

Lemma ordered_clear_data n i :
  ordered (elems n) →
  ordered (elems (Node (is_leaf n) (clear_data i (keys n)) (children n))).
Proof. unfold ordered. by rewrite keys_clear_data. Qed.

Lemma remove_from_non_leaf_inv h rec n idx kv w :
  shaped (S h) n → ordered (elems n) → owned w (elems n) →
  keys n !! idx = Some kv →
  (∀ c k w0, shaped h c → ordered (elems c) → owned w0 (elems c) →
             ∃ b c' w1, rec c k w0 = Returned (b, c') w1
                        ∧ deletion k h c w0 b c' w1) →
  ∃ n' w', btree_remove_from_non_leaf rec n idx w = Returned n' w'
           ∧ deletion (BTree.key kv) (S h) n w true n' w'.
Proof.
  destruct n as [lf ks cs]. cbn [shaped children keys is_leaf].
  unfold num_keys. cbn [keys].
  intros (Hk & -> & Hn & Hcs) Hord Hown Hkv Hrec.
  assert (idx < length ks)%nat as Hidx by by eapply lookup_lt_Some.
  destruct (lookup_lt_is_Some_2 cs idx) as [left Hleft]; [lia|].
  destruct (lookup_lt_is_Some_2 cs (S idx)) as [right Hright]; [lia|].
  destruct (split_two cs idx left right Hleft Hright) as (cl & cr & -> & Hcl).
  apply list_elem_of_split_length in Hkv as (kl & kr & -> & Hkl).
  assert (length kl = length cl) as Hlen by lia.
  assert (idx = length cl) as -> by lia. clear Hkl Hcl Hidx Hleft Hright.
  rewrite (elems_two kl kv kr cl left right cr Hlen) in Hown, Hord.
  set (P := walk_prefix (elems <$> cl) kl) in *.
  set (Q := in_order ([] :: (elems <$> cr)) kr) in *.
  apply Forall_app in Hcs as [Hscl Hcs]. apply Forall_cons in Hcs as [Hsl Hcs].
  apply Forall_cons in Hcs as [Hsr Hscr].
  pose proof (shaped_keys h left Hsl) as Hkl. pose proof (shaped_keys h right Hsr) as Hkr.
  assert (ordered (elems left) ∧ ordered (elems right)) as [Hol Hor].
  { apply ordered_infix in Hord. apply ordered_app in Hord as [? Hord].
    split; [done|]. change (kv :: elems right) with ([kv] ++ elems right) in Hord.
    by apply ordered_app in Hord as [_ ?]. }
  assert (∀ p, p ∈ payloads [kv] → is_Some (heap w !! p)) as Hlive.
  { intros p Hp. apply (owned_live _ _ _ Hown).
    rewrite payloads_two, !elem_of_app. auto. }
  unfold btree_remove_from_non_leaf. cbn [keys children is_leaf].
  rewrite <- Hlen, lookup_mid, Hlen, lookup_mid. cbn [deref bind ret].
  change (ORDER / 2)%nat with 2%nat.
  destruct (decide (2 ≤ num_keys left)%nat) as [Hrich|Hpoor].
  { (* the predecessor comes up *)
    unfold btree_get_predecessor. cbn [children]. rewrite lookup_mid.
    cbn [mbind option_bind].
    destruct (rightmost_key_shaped h left Hsl) as [pred Hpred]. rewrite Hpred.
    destruct (rightmost_key_last h left pred Hsl Hpred) as [l0 Hl0].
    cbn [deref bind ret].
    rewrite (bind_step _ _ _ _ _ (free_slot w kv Hlive)).
    destruct (lookup_lt_is_Some_2 (keys left) (num_keys left - 1)) as [last Hlast];
      [unfold num_keys in *; lia|].
    rewrite Hlast. cbn [deref bind ret].
    set (left0 := Node (is_leaf left) (clear_data (num_keys left - 1) (keys left))
                    (children left)).
    pose proof (payloads_clear_data_perm left _ last Hlast) as Hclear.
    fold left0 in Hclear.
    destruct (Hrec left0 pred (release (payloads [kv]) w))
      as (b & r & w2 & Hr & Htop & Hcount & Hrem & F & Hw2 & Hperm & _).
    { by apply shaped_clear_data. }
    { by apply ordered_clear_data. }
    { eapply owned_release; [exact Hown|].
      rewrite payloads_two, Hclear. solve_submseteq. }
    rewrite (bind_step _ _ _ _ _ Hr). cbn [ret snd].
    assert (BTree.key <$> elems left0 = l0 ++ [pred]) as Hk0
      by (unfold left0; by rewrite keys_clear_data).
    destruct b; cbn [removed] in Hrem.
    2:{ exfalso. destruct Hrem as [_ Hrem]. apply Hrem. rewrite Hk0.
        apply elem_of_app. right. apply list_elem_of_here. }
    destruct Hrem as (m1 & m2 & Hm & Hm').
    assert ((BTree.key <$> elems r) ++ [pred] = BTree.key <$> elems left)
      as Hkeys.
    { rewrite Hm', Hl0. apply ascending_to_last.
      - unfold ordered in Hol. by rewrite Hl0 in Hol.
      - by rewrite <- Hk0. }
    eexists _, _. split; [done|].
    unfold set_child. cbn [is_leaf keys children].
    rewrite <- Hlen, insert_mid, Hlen, insert_mid.
    unfold deletion, shaped_top, num_keys. cbn [is_leaf keys children].
    rewrite (elems_two kl kv kr cl left right cr Hlen),
      (elems_two kl _ kr cl r right cr Hlen). fold P Q.
    split_and!; try done; try counts.
    - apply Forall_app. split; [done|].
      constructor; [|by constructor].
      apply shaped_of_top; [done|]. unfold left0 in Hcount.
      rewrite num_keys_clear_data in Hcount. lia.
    - exists ((BTree.key <$> P) ++ (BTree.key <$> elems left)),
        ((BTree.key <$> elems right) ++ (BTree.key <$> Q)).
      rewrite ?fmap_app, ?fmap_cons, ?fmap_app. cbn [BTree.key].
      split; [by reassoc|]. rewrite <- Hkeys. by reassoc.
    - exists (F ++ payloads [kv]). split; [by rewrite Hw2, release_app|].
      split; [|done].
      rewrite !payloads_two, Hclear, Hperm.
      rewrite (payloads_same_value last (mkKV pred (value last))) by done.
      solve_Permutation. }
  rewrite Nat.add_1_r, lookup_mid_next. cbn [deref bind ret].
  destruct (decide (2 ≤ num_keys right)%nat) as [Hrich|Hpoor2].
  { (* the successor comes up *)
    unfold btree_get_successor. cbn [children].
    rewrite Nat.add_1_r, lookup_mid_next. cbn [mbind option_bind].
    destruct (leftmost_key_shaped h right Hsr) as [succ Hsucc]. rewrite Hsucc.
    destruct (leftmost_key_first h right succ Hsr Hsucc) as [l0 Hl0].
    cbn [deref bind ret].
    rewrite (bind_step _ _ _ _ _ (free_slot w kv Hlive)).
    destruct (lookup_lt_is_Some_2 (keys right) 0) as [first Hfirst];
      [unfold num_keys in *; lia|].
    rewrite Hfirst. cbn [deref bind ret].
    set (right0 := Node (is_leaf right) (clear_data 0 (keys right))
                     (children right)).
    pose proof (payloads_clear_data_perm right _ first Hfirst) as Hclear.
    fold right0 in Hclear.
    destruct (Hrec right0 succ (release (payloads [kv]) w))
      as (b & r & w2 & Hr & Htop & Hcount & Hrem & F & Hw2 & Hperm & _).
    { by apply shaped_clear_data. }
    { by apply ordered_clear_data. }
    { eapply owned_release; [exact Hown|].
      rewrite payloads_two, Hclear. solve_submseteq. }
    rewrite (bind_step _ _ _ _ _ Hr). cbn [ret snd].
    assert (BTree.key <$> elems right0 = succ :: l0) as Hk0
      by (unfold right0; by rewrite keys_clear_data).
    destruct b; cbn [removed] in Hrem.
    2:{ exfalso. destruct Hrem as [_ Hrem]. apply Hrem. rewrite Hk0.
        apply list_elem_of_here. }
    destruct Hrem as (m1 & m2 & Hm & Hm').
    assert (succ :: (BTree.key <$> elems r) = BTree.key <$> elems right) as Hkeys.
    { rewrite Hm', Hl0. apply ascending_from_first.
      - unfold ordered in Hor. by rewrite Hl0 in Hor.
      - by rewrite <- Hk0. }
    eexists _, _. split; [done|].
    unfold set_child. cbn [is_leaf keys children].
    rewrite <- Hlen, insert_mid, Hlen, insert_mid_next.
    unfold deletion, shaped_top, num_keys. cbn [is_leaf keys children].
    rewrite (elems_two kl kv kr cl left right cr Hlen),
      (elems_two kl _ kr cl left r cr Hlen). fold P Q.
    split_and!; try done; try counts.
    - apply Forall_app. split; [done|].
      constructor; [done|]. constructor; [|done].
      apply shaped_of_top; [done|]. unfold right0 in Hcount.
      rewrite num_keys_clear_data in Hcount. lia.
    - exists ((BTree.key <$> P) ++ (BTree.key <$> elems left)),
        ((BTree.key <$> elems right) ++ (BTree.key <$> Q)).
      rewrite ?fmap_app, ?fmap_cons, ?fmap_app. cbn [BTree.key].
      split; [by reassoc|]. rewrite <- Hkeys. by reassoc.
    - exists (F ++ payloads [kv]). split; [by rewrite Hw2, release_app|].
      split; [|done].
      rewrite !payloads_two, Hclear, Hperm.
      rewrite (payloads_same_value first (mkKV succ (value first))) by done.
      solve_Permutation. }
  (* both neighbours are poor: merge around the key *)
  destruct (merge_children_spec h false kl kv kr cl left right cr)
    as (m & Hrun & Hm & Hel); [done|done|done|counts|].
  pose proof (merge_children_keys _ _ _ left right kv m Hrun) as Hkeys.
  cbn [children keys] in Hkeys. rewrite Nat.add_1_r in Hkeys.
  rewrite lookup_mid, lookup_mid_next, <- Hlen, lookup_mid, Hlen, lookup_mid
    in Hkeys.
  specialize (Hkeys eq_refl eq_refl eq_refl eq_refl).
  rewrite Hrun. cbn [deref bind ret children]. rewrite lookup_mid.
  cbn [deref bind ret].
  destruct (Hrec m (BTree.key kv) w) as (b & r & w2 & Hr & Hdel); [done| | |].
  { rewrite Hel. by apply ordered_infix in Hord. }
  { rewrite Hel. by apply owned_infix in Hown. }
  rewrite (bind_step _ _ _ _ _ Hr). cbn [ret snd].
  assert (b = true) as ->.
  { destruct b; [done|]. exfalso.
    destruct Hdel as (_ & _ & [_ Hrem] & _). apply Hrem.
    rewrite Hel, fmap_app, fmap_cons, elem_of_app, elem_of_cons. auto. }
  eexists _, _. split; [done|].
  apply (descend_deletion _ h
           (Node false (kl ++ kv :: kr) (cl ++ left :: right :: cr))
           (Node false (kl ++ kr) (cl ++ m :: cr)) (length cl) m); try done.
  - rewrite (elems_one kl kr cl m cr Hlen),
      (elems_two kl kv kr cl left right cr Hlen). by rewrite Hel.
  - unfold shaped_top, num_keys. cbn [is_leaf keys children].
    split_and!; try done; try counts.
    apply Forall_app. split; [done|]. by constructor.
  - counts.
  - apply lookup_mid.
  - unfold num_keys. rewrite Hkeys, length_app. cbn [length].
    unfold num_keys in *. lia.
Qed.

(** ** Deleting below a node, and from a tree *)

Lemma delete_from_node_inv h : ∀ fuel n key w,
  (h < fuel)%nat → shaped h n → ordered (elems n) → owned w (elems n) →
  ∃ b n' w',
    btree_delete_from_node fuel n key w = Returned (b, n') w'
    ∧ deletion key h n w b n' w'.
Proof.
  induction h as [|h IH]; intros [|fuel] n key w Hfuel Hs Hord Hown; try lia;
    cbn [btree_delete_from_node].
  - (* a leaf *)
    pose proof Hs as (Hk & Hl & Hc). rewrite Hl.
    pose proof (elems_leaf n Hl) as Hel.
    case_bool_decide as Hfound.
    + destruct (keys n !! scan_up key (keys n)) as [kv|] eqn:Hkv; [|done].
      injection Hfound as <-.
      destruct (delete_in_leaf n _ kv w Hs Hown Hkv) as (n' & w' & Hrun & Hdel).
      rewrite (bind_step _ _ _ _ _ Hrun). cbn [ret]. by eexists _, _, _.
    + cbn [ret]. eexists false, n, w. split; [done|].
      unfold deletion. split_and!; [by apply shaped_to_top|lia| |].
      * split; [done|]. rewrite Hel in Hord |- *. intros Hin.
        by apply scan_up_finds in Hin.
      * exists []. by rewrite release_nil.
  - (* an internal node *)
    pose proof Hs as (Hk & Hl & Hn & Hcs). rewrite Hl.
    case_bool_decide as Hfound.
    + destruct (keys n !! scan_up key (keys n)) as [kv|] eqn:Hkv; [|done].
      injection Hfound as <-.
      destruct (remove_from_non_leaf_inv h (btree_delete_from_node fuel)
                  n (scan_up (BTree.key kv) (keys n)) kv w Hs Hord Hown Hkv)
        as (n' & w' & Hrun & Hdel).
      { intros c k w0 Hc Hordc Hown0. apply IH; [lia|done|done|done]. }
      rewrite (bind_step _ _ _ _ _ Hrun). cbn [ret]. by eexists _, _, _.
    + pose proof (scan_up_bound key (keys n)) as Hidx.
      set (idx := scan_up key (keys n)) in *.
      destruct (lookup_lt_is_Some_2 (children n) idx) as [c Hc];
        [unfold num_keys in *; lia|].
      rewrite Hc. cbn [deref bind ret].
      assert (shaped h c) as Hsc by by eapply Forall_lookup_1.
      (* the node and the child to descend into, after the optional fill *)
      assert (∃ n1 tgt c1,
                (if decide (num_keys c < ORDER / 2)%nat
                 then deref (btree_fill_child n idx) else ret n) w
                = Returned n1 w
                ∧ tgt = (if bool_decide (idx = num_keys n)
                            && bool_decide (num_keys n1 < idx)%nat
                         then (idx - 1)%nat else idx)
                ∧ children n1 !! tgt = Some c1
                ∧ shaped h c1 ∧ (2 ≤ num_keys c1)%nat
                ∧ shaped_top (S h) n1 ∧ (num_keys n ≤ S (num_keys n1))%nat
                ∧ elems n1 = elems n
                ∧ (∀ x, x ∈ elems c → x ∈ elems c1))
        as (n1 & tgt & c1 & Hfill & Htgt & Hc1 & Hsc1 & Htwo & Htop1 & Hcount
            & Hel1 & Hsub).
      { destruct (decide (num_keys c < ORDER / 2)%nat) as [Hpoor|Hrich].
        - destruct (fill_child_inv h n idx c Hs Hc Hpoor)
            as (n1 & tgt & c1 & Hrun & ?). rewrite Hrun. by exists n1, tgt, c1.
        - exists n, idx, c. split; [done|]. split.
          { rewrite (bool_decide_eq_false_2 (_ < _)%nat)
              by (unfold num_keys; lia).
            by rewrite andb_false_r. }
          change (ORDER / 2)%nat with 2%nat in Hrich.
          split_and!; try done; [lia|by apply shaped_to_top|lia]. }
      rewrite (bind_step _ _ _ _ _ Hfill). rewrite <- Htgt, Hc1.
      cbn [deref bind ret].
      pose proof Htop1 as (_ & Hl1 & Hn1 & _).
      assert (tgt ≤ num_keys n1)%nat as Hi1
        by (apply lookup_lt_Some in Hc1; lia).
      destruct (child_infix n1 tgt c1 Hl1 Hc1 Hi1) as (pre & post & Hinfix).
      destruct (IH fuel c1 key w) as (b & c' & w' & Hrun & Hdel); [lia|done| | |].
      { apply (ordered_infix pre _ post). by rewrite <- Hinfix, Hel1. }
      { apply (owned_infix w pre _ post). by rewrite <- Hinfix, Hel1. }
      rewrite (bind_step _ _ _ _ _ Hrun). cbn [ret fst snd].
      eexists b, _, w'. split; [done|].
      apply (descend_deletion key h n n1 tgt c1); try done.
      intros -> Hin. destruct Hdel as (_ & _ & [_ Habs] & _). apply Habs.
      pose proof (descend_member n key c Hl Hord Hc Hfound Hin) as Hinc.
      apply list_elem_of_fmap in Hinc as (x & -> & Hx).
      apply list_elem_of_fmap_2. by apply Hsub.
Qed.

Lemma ascending_without (k1 k2 : list Z) x :
  StronglySorted Z.le (k1 ++ x :: k2) → StronglySorted Z.le (k1 ++ k2).
Proof.
  induction k1 as [|a k1 IH]; cbn [app].
  - by intros [_ ?]%StronglySorted_cons.
  - rewrite !StronglySorted_cons. intros [Hall Hs]. split; [|by apply IH].
    rewrite Forall_app, Forall_cons in Hall. rewrite Forall_app. tauto.
Qed.

(** What a deletion does to a tree in a program state. *)
Lemma delete_inv tree key w :
  well_formed w tree →
  ∃ b tree' w' freed,
    btree_delete tree key w = Returned (b, tree') w'
    ∧ well_formed w' tree'
    ∧ removed key b (tree_elems tree) (tree_elems tree')
    ∧ w' = release freed w
    ∧ payloads (tree_elems tree) ≡ₚ freed ++ payloads (tree_elems tree')
    ∧ (b = false → freed = [])
    ∧ (depth tree' ≤ depth tree)%nat.
Proof.
  unfold well_formed, tree_elems, depth, btree_delete.
  destruct tree as [t|]; cbn [mbind option_bind].
  2:{ intros _. exists false, None, w, []. cbn [from_option removed].
      rewrite release_nil. split_and!; try done. apply not_elem_of_nil. }
  destruct (root t) as [r|] eqn:Hroot; cbn [from_option].
  2:{ intros _. exists false, (Some t), w, []. cbn [mbind option_bind].
      rewrite Hroot. cbn [from_option removed].
      rewrite release_nil. split_and!; try done. apply not_elem_of_nil. }
  intros ([h Hs] & Hord & Hown).
  destruct (delete_from_node_inv h (height r) r key w)
    as (b & r' & w' & Hrun & Htop & Hcount & Hrem & F & Hw & Hperm & Hno);
    [rewrite (shaped_height h r Hs); lia|done|done|done|].
  rewrite (bind_step _ _ _ _ _ Hrun). cbn [fst snd].
  rewrite (shaped_height h r Hs).
  assert (ordered (elems r')) as Hord'.
  { destruct b; cbn [removed] in Hrem.
    - destruct Hrem as (k1 & k2 & Hk & Hk'). unfold ordered in *.
      rewrite Hk in Hord. rewrite Hk'. by eapply ascending_without.
    - by destruct Hrem as [-> _]. }
  assert (owned w' (elems r')) as Hown'.
  { rewrite Hw. eapply owned_release; [exact Hown|]. by rewrite Hperm. }
  exists b.
  destruct (decide (num_keys r' = O)) as [Hz|Hz]; cbn [ret].
  - eexists _, w', F. split; [done|]. cbn [mbind option_bind root].
    pose proof (collapse_root_elems r' Hz) as Hcol.
    destruct h as [|h]; destruct Htop as (_ & Hl' & Hrest); rewrite Hl' in *;
      cbn [from_option] in *.
    + rewrite <- Hcol in Hrem, Hperm. split_and!; try done. lia.
    + destruct Hrest as [Hn' Hcs'].
      destruct (children r') as [|c [|? ?]] eqn:Ecs; cbn [length] in Hn';
        try lia.
      cbn [lookup list_lookup from_option] in *.
      apply Forall_cons in Hcs' as [Hsc _].
      rewrite Hcol.
      split_and!; try done; try (by exists h).
      rewrite (shaped_height h c Hsc). lia.
  - eexists _, w', F. split; [done|]. cbn [mbind option_bind root from_option].
    assert (shaped h r') as Hs' by (apply shaped_of_top; [done|lia]).
    split_and!; try done; try (by exists h).
    rewrite (shaped_height h r' Hs'). lia.
Qed.

(** ** Insertion and deletion keep the tree well-formed *)

(** X2: [btree_insert] into a well-formed tree, from a caller block that
    holds the bytes to copy and with no allocation failing, returns a
    well-formed tree.  Its walk is the new slot, placed by key order,
    among slots of the old walk in their old order: no slot is invented or
    reordered (slots can be missing, see the split).  The heap gains the
    block of the copy and nothing else changes. *)
Theorem insert_keeps_well_formed t key src size bytes w :
  well_formed w (Some t) → allocations_succeed w →
  heap w !! src = Some bytes → (size ≤ length bytes)%nat →
  ∃ tree' w' l1 l2,
    btree_insert (Some t) key (Some src) size w = Returned tree' w'
    ∧ well_formed w' tree'
    ∧ tree_elems tree' = l1 ++ new_slot key (fresh (dom (heap w))) size :: l2
    ∧ l1 ++ l2 `sublist_of` tree_elems (Some t)
    ∧ heap w' = <[fresh (dom (heap w)) := take size bytes]> (heap w)
    ∧ stderr w' = stderr w.
Proof.
  intros Hwf Hok Hsrc Hsize.
  destruct (insert_inv t key src size bytes w Hwf Hok Hsrc Hsize)
    as (tree' & w' & l1 & l2 & Hrun & Hwf' & Hel & Hsub & _ & Hheap & _ & Herr
        & _).
  by exists tree', w', l1, l2.
Qed.

Lemma insert_keeps_well_formed_witness :
  ∃ tree' w', btree_insert sample_tree 7 (Some dummy_payload) 1 sample_world
              = Returned tree' w'
              ∧ well_formed w' tree' ∧ stderr w' = [].
Proof.
  destruct (insert_keeps_well_formed sample_btree 7 dummy_payload 1
              ["*"%byte; "+"%byte] sample_world sample_tree_well_formed)
    as (tree' & w' & l1 & l2 & Hrun & Hwf & _ & _ & _ & Herr).
  - constructor.
  - reflexivity.
  - cbn. lia.
  - exists tree', w'. split; [exact Hrun|]. split; [exact Hwf|exact Herr].
Defined.

(** X3: when no node of the tree is full, [btree_insert] loses nothing:
    the walk of the new tree is the old walk with the new slot put in by
    key order. *)
Theorem insert_without_full_node_keeps_all t key src size bytes w :
  well_formed w (Some t) → allocations_succeed w →
  heap w !! src = Some bytes → (size ≤ length bytes)%nat →
  Forall (λ m, (num_keys m < ORDER - 1)%nat) (tree_nodes (Some t)) →
  ∃ tree' w' l1 l2,
    btree_insert (Some t) key (Some src) size w = Returned tree' w'
    ∧ tree_elems (Some t) = l1 ++ l2
    ∧ tree_elems tree' = l1 ++ new_slot key (fresh (dom (heap w))) size :: l2
    ∧ Forall (λ kv, BTree.key kv ≤ key) l1
    ∧ Forall (λ kv, key ≤ BTree.key kv) l2.
Proof.
  intros Hwf Hok Hsrc Hsize Hroom.
  destruct (insert_inv t key src size bytes w Hwf Hok Hsrc Hsize)
    as (tree' & w' & l1 & l2 & Hrun & Hwf' & Hel & Hsub & Hall & _ & _ & _
        & H1 & H2).
  exists tree', w', l1, l2. by rewrite <- (Hall Hroom).
Qed.

Lemma insert_without_full_node_keeps_all_witness :
  ∃ tree' w' l1 l2,
    btree_insert sample_tree 7 (Some dummy_payload) 1 sample_world
    = Returned tree' w'
    ∧ tree_elems sample_tree = l1 ++ l2
    ∧ BTree.key <$> tree_elems tree' = (BTree.key <$> l1) ++ 7 :: (BTree.key <$> l2).
Proof.
  destruct (insert_without_full_node_keeps_all sample_btree 7 dummy_payload 1
              ["*"%byte; "+"%byte] sample_world sample_tree_well_formed)
    as (tree' & w' & l1 & l2 & Hrun & Hold & Hnew & _).
  - constructor.
  - reflexivity.
  - cbn. lia.
  - cbn. unfold num_keys, ORDER. cbn. repeat constructor.
  - exists tree', w', l1, l2. split; [exact Hrun|]. split; [exact Hold|].
    rewrite Hnew, fmap_app. reflexivity.
Defined.

(** X5: [btree_delete] on a well-formed tree returns a well-formed tree.
    With result [true] the keys of its walk are the old keys without one
    occurrence of the key, with result [false] the walk is unchanged and
    did not hold the key.  The program state only loses blocks, and every
    payload block of the old tree is afterwards either in the new tree or
    released, none of them twice. *)
Theorem delete_removes_one_key tree key w :
  well_formed w tree →
  ∃ b tree' w' freed,
    btree_delete tree key w = Returned (b, tree') w'
    ∧ well_formed w' tree'
    ∧ (if b
       then ∃ k1 k2, BTree.key <$> tree_elems tree = k1 ++ key :: k2
                     ∧ BTree.key <$> tree_elems tree' = k1 ++ k2
       else tree_elems tree' = tree_elems tree
            ∧ key ∉ BTree.key <$> tree_elems tree)
    ∧ w' = release freed w
    ∧ payloads (tree_elems tree) ≡ₚ freed ++ payloads (tree_elems tree').
Proof.
  intros Hwf.
  destruct (delete_inv tree key w Hwf)
    as (b & tree' & w' & freed & Hrun & Hwf' & Hrem & Hw & Hperm & _).
  by exists b, tree', w', freed.
Qed.

Lemma delete_removes_one_key_witness :
  ∃ b tree' w', btree_delete sample_tree 6 sample_world = Returned (b, tree') w'
                ∧ well_formed w' tree'.
Proof.
  destruct (delete_removes_one_key sample_tree 6 sample_world
              sample_tree_well_formed)
    as (b & tree' & w' & freed & Hrun & Hwf & _).
  exists b, tree', w'. split; [exact Hrun|exact Hwf].
Defined.

(** ** Deleting, then searching *)

Lemma unique_split {A} (x : A) (l1 l2 k1 k2 : list A) :
  l1 ++ x :: l2 = k1 ++ x :: k2 → x ∉ l1 → x ∉ l2 → l1 = k1 ∧ l2 = k2.
Proof.
  revert k1. induction l1 as [|a l1 IH]; intros [|b k1]; cbn [app].
  - by intros [= ->].
  - intros [= _ ->] _ Hl. exfalso. apply Hl.
    apply elem_of_app. right. apply list_elem_of_here.
  - intros [= -> _] Hl. exfalso. apply Hl, list_elem_of_here.
  - intros [= -> Heq] Hl Hk.
    destruct (IH k1 Heq) as [-> ->]; [..|done]; [|done].
    intros ?. apply Hl. by apply elem_of_cons; right.
Qed.

(** X6: in a well-formed tree whose keys are distinct, after
    [btree_delete] of a key [btree_search] no longer finds that key and
    still finds every other key of the tree. *)
Theorem delete_then_search tree key w :
  well_formed w tree → NoDup (BTree.key <$> tree_elems tree) →
  ∃ b tree' w',
    btree_delete tree key w = Returned (b, tree') w'
    ∧ b = bool_decide (key ∈ BTree.key <$> tree_elems tree)
    ∧ btree_search tree' key = Some None
    ∧ ∀ k, k ≠ key → k ∈ BTree.key <$> tree_elems tree →
           ∃ v, btree_search tree' k = Some (Some v).
Proof.
  intros Hwf Hnd.
  destruct (delete_inv tree key w Hwf)
    as (b & tree' & w' & freed & Hrun & Hwf' & Hrem & _).
  exists b, tree', w'. split; [done|].
  assert (b = bool_decide (key ∈ BTree.key <$> tree_elems tree)
          ∧ (key ∉ BTree.key <$> tree_elems tree')
          ∧ ∀ k, k ≠ key → k ∈ BTree.key <$> tree_elems tree →
                 k ∈ BTree.key <$> tree_elems tree') as (Hb & Hgone & Hkept).
  { destruct b; cbn [removed] in Hrem.
    - destruct Hrem as (k1 & k2 & Hk & Hk'). rewrite Hk, Hk' in *.
      apply NoDup_app in Hnd as (_ & Hdisj & [Hk2 _]%NoDup_cons).
      split_and!.
      + symmetry. apply bool_decide_eq_true_2.
        apply elem_of_app. right. apply list_elem_of_here.
      + intros [Hin|Hin]%elem_of_app; [|done].
        apply (Hdisj key Hin), list_elem_of_here.
      + intros k Hne. rewrite !elem_of_app, elem_of_cons. tauto.
    - destruct Hrem as [-> Habs]. split_and!; [|done|done].
      symmetry. by apply bool_decide_eq_false_2. }
  split; [done|].
  destruct (search_tree_spec tree' key w' Hwf') as [Hmiss _].
  split; [by apply Hmiss|].
  intros k Hne Hin.
  destruct (search_tree_spec tree' k w' Hwf') as [_ Hhit].
  destruct Hhit as (v & Hv & _); [by apply Hkept|]. by exists v.
Qed.

Lemma delete_then_search_witness :
  ∃ tree' w',
    btree_delete sample_tree 10 sample_world = Returned (true, tree') w'
    ∧ btree_search tree' 10 = Some None
    ∧ ∃ v, btree_search tree' 12 = Some (Some v).
Proof.
  destruct (delete_then_search sample_tree 10 sample_world
              sample_tree_well_formed)
    as (b & tree' & w' & Hrun & Hb & Hgone & Hkept).
  - apply (bool_decide_unpack _). by vm_compute.
  - exists tree', w'. rewrite Hb in Hrun. split; [exact Hrun|].
    split; [exact Hgone|]. apply Hkept; [lia|].
    apply (bool_decide_unpack _). by vm_compute.
Defined.

(** ** Inserting, then deleting *)

(** X11: inserting a key that is not in a well-formed tree and deleting
    it again succeeds with result [true]; the keys of the tree are then
    keys it had before, in their order, and all of them when no node of
    the tree was full. *)
Theorem insert_then_delete t key src size bytes w :
  well_formed w (Some t) → key ∉ BTree.key <$> tree_elems (Some t) →
  allocations_succeed w → heap w !! src = Some bytes →
  (size ≤ length bytes)%nat →
  ∃ tree1 w1 tree2 w2,
    btree_insert (Some t) key (Some src) size w = Returned tree1 w1
    ∧ btree_delete tree1 key w1 = Returned (true, tree2) w2
    ∧ BTree.key <$> tree_elems tree2
      `sublist_of` BTree.key <$> tree_elems (Some t)
    ∧ (Forall (λ m, (num_keys m < ORDER - 1)%nat) (tree_nodes (Some t)) →
       BTree.key <$> tree_elems tree2 = BTree.key <$> tree_elems (Some t)).
Proof.
  intros Hwf Habs Hok Hsrc Hsize.
  destruct (insert_inv t key src size bytes w Hwf Hok Hsrc Hsize)
    as (tree1 & w1 & l1 & l2 & Hrun1 & Hwf1 & Hel1 & Hsub & Hall & _).
  destruct (delete_inv tree1 key w1 Hwf1)
    as (b & tree2 & w2 & freed & Hrun2 & _ & Hrem & _).
  exists tree1, w1, tree2, w2.
  assert (key ∉ BTree.key <$> (l1 ++ l2)) as Hnew
    by (by eapply absent_sublist).
  rewrite fmap_app, elem_of_app in Hnew.
  rewrite Hel1 in Hrem. destruct b; cbn [removed] in Hrem.
  2:{ exfalso. destruct Hrem as [_ Hrem]. apply Hrem.
      rewrite fmap_app, fmap_cons, elem_of_app, elem_of_cons. auto. }
  destruct Hrem as (k1 & k2 & Hk & Hk').
  rewrite fmap_app, fmap_cons in Hk. cbn [new_slot BTree.key] in Hk.
  apply unique_split in Hk as [<- <-]; [|tauto..].
  rewrite Hk', <- fmap_app.
  split_and!; [done|done|by apply fmap_sublist|].
  intros Hroom. by rewrite (Hall Hroom).
Qed.

Lemma insert_then_delete_witness :
  ∃ tree1 w1 tree2 w2,
    btree_insert sample_tree 7 (Some dummy_payload) 1 sample_world
    = Returned tree1 w1
    ∧ btree_delete tree1 7 w1 = Returned (true, tree2) w2
    ∧ BTree.key <$> tree_elems tree2 = [5; 6; 10; 12].
Proof.
  destruct (insert_then_delete sample_btree 7 dummy_payload 1
              ["*"%byte; "+"%byte] sample_world sample_tree_well_formed)
    as (tree1 & w1 & tree2 & w2 & Hrun1 & Hrun2 & _ & Hsame).
  - apply (bool_decide_unpack _). by vm_compute.
  - constructor.
  - reflexivity.
  - cbn. lia.
  - exists tree1, w1, tree2, w2. split; [exact Hrun1|]. split; [exact Hrun2|].
    apply Hsame. cbn. unfold num_keys, ORDER. cbn. repeat constructor.
Defined.

(** ** The traversal *)

Section InOrderMaps.
Context {A B : Type} (f : A → B).

Lemma fmap_in_order (subs : list (list A)) ks :
  f <$> in_order subs ks
  = in_order ((λ s : list A, f <$> s) <$> subs) (f <$> ks).
Proof.
  revert subs. induction ks as [|k ks IH]; intros subs.
  - by destruct subs.
  - cbn [in_order fmap list_fmap]. rewrite fmap_app, fmap_cons, IH.
    by destruct subs.
Qed.

Lemma Forall_in_order (P : A → Prop) (subs : list (list A)) ks :
  Forall (Forall P) subs → Forall P ks → Forall P (in_order subs ks).
Proof.
  revert subs. induction ks as [|k ks IH]; intros subs Hsubs Hks.
  - destruct Hsubs; [constructor|done].
  - apply Forall_cons in Hks as [Hk Hks]. cbn [in_order].
    apply Forall_app. split; [by destruct Hsubs|].
    constructor; [done|]. apply IH; [|done]. by destruct Hsubs.
Qed.

End InOrderMaps.

Lemma traverse_node_spec h : ∀ n level,
  shaped h n →
  snd <$> btree_traverse_node n level = BTree.key <$> elems n
  ∧ Forall (λ line, (line.1 ≤ level + h)%nat) (btree_traverse_node n level).
Proof.
  induction h as [|h IH]; intros [lf ks cs] level;
    cbn [shaped is_leaf keys children btree_traverse_node elems].
  - intros (_ & -> & ->). rewrite !in_order_no_subs, <- list_fmap_compose.
    split; [done|]. apply Forall_fmap, Forall_forall. intros kv _. simpl. lia.
  - intros (_ & -> & _ & Hcs). rewrite !fmap_in_order, <- !list_fmap_compose.
    split.
    + f_equal. apply Forall_fmap_ext_1.
      eapply Forall_impl; [exact Hcs|]. intros c Hc. simpl.
      by destruct (IH c (S level) Hc) as [-> _].
    + apply Forall_in_order.
      * apply Forall_fmap. eapply Forall_impl; [exact Hcs|]. intros c Hc. simpl.
        destruct (IH c (S level) Hc) as [_ Hl].
        eapply Forall_impl; [exact Hl|]. simpl. intros. lia.
      * apply Forall_fmap, Forall_forall. intros kv _. simpl. lia.
Qed.

(** ** Sessions of insertions and deletions *)

Lemma lookup_release_other freed w p :
  p ∉ freed → heap (release freed w) !! p = heap w !! p.
Proof. intros Hp. unfold release. cbn [heap]. by apply lookup_foldr_delete_not_elem_of. Qed.

Lemma run_ops_inv (caller : gmap loc (list byte)) ops : ∀ tree w,
  well_formed w tree → allocations_succeed w →
  (∀ p blk, caller !! p = Some blk → heap w !! p = Some blk) →
  (∀ p, p ∈ payloads (tree_elems tree) → caller !! p = None) →
  Forall (reads_from caller) ops →
  ∃ tree' w',
    run_ops ops tree w = Returned tree' w'
    ∧ well_formed w' tree'
    ∧ (∀ p blk, caller !! p = Some blk → heap w' !! p = Some blk)
    ∧ stderr w' = stderr w.
Proof.
  induction ops as [|o ops IH]; intros tree w Hwf Hok Hcaller Hapart Hops.
  { by exists tree, w. }
  apply Forall_cons in Hops as [Ho Hops].
  destruct o as [k record n|k]; cbn [run_ops reads_from] in *.
  - (* an insertion *)
    destruct tree as [t|].
    2:{ cbn [btree_insert]. rewrite (bind_step _ _ _ None w) by done.
        by apply IH. }
    destruct Ho as (bytes & Hrec & Hn).
    destruct (insert_inv t k record n bytes w Hwf Hok (Hcaller _ _ Hrec) Hn)
      as (tree1 & w1 & l1 & l2 & Hrun & Hwf1 & Hel & Hsub & _ & Hheap & Hok1
          & Herr & _).
    rewrite (bind_step _ _ _ _ _ Hrun).
    assert (heap w !! fresh (dom (heap w)) = None) as Hfresh
      by (apply not_elem_of_dom, is_fresh).
    destruct (IH tree1 w1) as (tree' & w' & Hrun' & Hwf' & Hcaller' & Herr');
      try done.
    + intros p blk Hp. rewrite Hheap.
      rewrite lookup_insert_ne; [by apply Hcaller|].
      intros <-. apply Hcaller in Hp. congruence.
    + intros p. rewrite Hel, payloads_around, payloads_single.
      cbn [new_slot value data option_list]. intros Hp.
      destruct (caller !! p) as [blk|] eqn:E; [exfalso|done].
      apply elem_of_app in Hp as [Hp|Hp];
        [|apply elem_of_cons in Hp as [->|Hp]].
      * assert (p ∈ payloads (tree_elems (Some t))) as Hold.
        { eapply sublist_subseteq; [apply payloads_sublist, Hsub|].
          rewrite payloads_app, elem_of_app. by left. }
        apply Hapart in Hold. congruence.
      * apply Hcaller in E. congruence.
      * assert (p ∈ payloads (tree_elems (Some t))) as Hold.
        { eapply sublist_subseteq; [apply payloads_sublist, Hsub|].
          rewrite payloads_app, elem_of_app. by right. }
        apply Hapart in Hold. congruence.
    + exists tree', w'. split_and!; try done. congruence.
  - (* a deletion *)
    destruct (delete_inv tree k w Hwf)
      as (b & tree1 & w1 & freed & Hrun & Hwf1 & _ & Hw & Hperm & _).
    rewrite (bind_step _ _ _ _ _ Hrun). cbn [snd].
    destruct (IH tree1 w1) as (tree' & w' & Hrun' & Hwf' & Hcaller' & Herr');
      try done.
    + by rewrite Hw.
    + intros p blk Hp. rewrite Hw, lookup_release_other; [by apply Hcaller|].
      intros Hin. assert (p ∈ payloads (tree_elems tree)) as Hold
        by (rewrite Hperm, elem_of_app; by left).
      apply Hapart in Hold. congruence.
    + intros p Hp. apply Hapart. rewrite Hperm, elem_of_app. by right.
    + exists tree', w'. split_and!; try done. rewrite Herr'. by rewrite Hw.
Qed.

Lemma create_ok w :
  allocations_succeed w →
  btree_create w = Returned empty_tree (consume_alloc w).
Proof.
  intros H. unfold btree_create, malloc_node, bind.
  by rewrite (next_alloc_ok_succeed w H).
Qed.

(** X7: a session that creates the index and then inserts records of the
    caller and deletes keys, in any order and with no allocation failing,
    runs to its end without undefined behaviour and leaves a well-formed
    tree; it prints nothing on stderr and leaves every block the caller
    had at the start as it was. *)
Theorem index_session_well_formed ops w :
  allocations_succeed w → Forall (reads_from (heap w)) ops →
  ∃ tree w',
    index_session ops w = Returned tree w'
    ∧ well_formed w' tree
    ∧ (∀ p blk, heap w !! p = Some blk → heap w' !! p = Some blk)
    ∧ stderr w' = stderr w.
Proof.
  intros Hok Hops. unfold index_session.
  rewrite (bind_step _ _ _ _ _ (create_ok w Hok)).
  destruct (run_ops_inv (heap w) ops (Some empty_tree) (consume_alloc w))
    as (tree & w' & Hrun & Hwf & Hcaller & Herr); try done.
  - by apply consume_alloc_succeed.
  - intros p Hp. by apply elem_of_nil in Hp.
  - by exists tree, w'.
Qed.

Lemma index_session_well_formed_witness :
  ∃ tree w',
    index_session [Insert 10 dummy_payload 1; Insert 20 dummy_payload 2;
                   Delete 10; Delete 7] start_world
    = Returned tree w'
    ∧ well_formed w' tree
    ∧ heap w' !! dummy_payload = Some ["*"%byte; "+"%byte].
Proof.
  destruct (index_session_well_formed
              [Insert 10 dummy_payload 1; Insert 20 dummy_payload 2;
               Delete 10; Delete 7] start_world)
    as (tree & w' & Hrun & Hwf & Hcaller & _).
  - constructor.
  - repeat constructor; cbn; eexists; (split; [reflexivity|cbn; lia]).
  - exists tree, w'. split; [exact Hrun|]. split; [exact Hwf|].
    apply Hcaller. reflexivity.
Defined.

(** ** What a session leaves to the traversal *)

(** X8: after any session that creates the index and then inserts records
    of the caller and deletes keys, with no allocation failing,
    [btree_traverse] prints the keys in ascending order; it prints a key
    exactly when [btree_search] finds it; and every line has a level below
    the depth of the tree. *)
Theorem traverse_prints_keys_in_order ops w :
  allocations_succeed w → Forall (reads_from (heap w)) ops →
  ∃ tree w',
    index_session ops w = Returned tree w'
    ∧ StronglySorted Z.le (traversal_keys tree)
    ∧ (∀ key, key ∈ traversal_keys tree
              ↔ ∃ v, btree_search tree key = Some (Some v))
    ∧ Forall (λ line, (line.1 < depth tree)%nat) (btree_traverse tree).
Proof.
  intros Hok Hops. unfold index_session.
  rewrite (bind_step _ _ _ _ _ (create_ok w Hok)).
  destruct (run_ops_inv (heap w) ops (Some empty_tree) (consume_alloc w))
    as (tree & w' & Hrun & Hwf & _); try done.
  { by apply consume_alloc_succeed. }
  { intros p Hp. by apply elem_of_nil in Hp. }
  exists tree, w'. split; [done|].
  assert (traversal_keys tree = BTree.key <$> tree_elems tree
          ∧ StronglySorted Z.le (traversal_keys tree)
          ∧ Forall (λ line, (line.1 < depth tree)%nat) (btree_traverse tree))
    as (Hkeys & Hsorted & Hlevels).
  { revert Hwf.
    unfold well_formed, traversal_keys, btree_traverse, tree_elems, depth.
    destruct (tree ≫= root) as [r|]; cbn [from_option].
    2:{ intros _. split_and!; constructor. }
    intros ([h Hs] & Hord & _).
    destruct (traverse_node_spec h r 0 Hs) as [Hkeys Hlevels].
    rewrite Hkeys, (shaped_height h r Hs). split_and!; [done|done|].
    eapply Forall_impl; [exact Hlevels|]. simpl. intros. lia. }
  split_and!; [done| |done].
  intros key. rewrite Hkeys.
  destruct (search_tree_spec tree key w' Hwf) as [Habsent Hfound].
  split.
  - intros Hin. destruct (Hfound Hin) as (v & Hv & _). eauto.
  - intros [v Hv].
    destruct (decide (key ∈ BTree.key <$> tree_elems tree)) as [|Hnot]; [done|].
    rewrite (Habsent Hnot) in Hv. discriminate Hv.
Qed.

Lemma traverse_prints_keys_in_order_witness :
  ∃ tree w',
    index_session [Insert 10 dummy_payload 1; Insert 5 dummy_payload 2;
                   Insert 7 dummy_payload 1; Delete 10] start_world
    = Returned tree w'
    ∧ StronglySorted Z.le (traversal_keys tree)
    ∧ traversal_keys tree = [5; 7].
Proof.
  destruct (traverse_prints_keys_in_order
              [Insert 10 dummy_payload 1; Insert 5 dummy_payload 2;
               Insert 7 dummy_payload 1; Delete 10] start_world)
    as (tree & w' & Hrun & Hsorted & _).
  - constructor.
  - repeat constructor; cbn; eexists; (split; [reflexivity|cbn; lia]).
  - exists tree, w'. split; [exact Hrun|]. split; [exact Hsorted|].
    revert Hrun. vm_compute. intros [= <- _]. reflexivity.
Defined.

(** ** Insertion when the allocator fails *)

Lemma scan_down_from_bound key ks i : (scan_down_from i key ks ≤ i)%nat.
Proof.
  induction i as [|i IH]; cbn [scan_down_from]; [lia|].
  destruct (ks !! i) as [kv|]; [|lia]. destruct (key <? BTree.key kv); lia.
Qed.

Lemma scan_down_bound key ks : (scan_down key ks ≤ length ks)%nat.
Proof. apply scan_down_from_bound. Qed.

Lemma split_child_fails parent index child w :
  children parent !! index = Some child → next_alloc_ok w = false →
  btree_split_child parent index w = Exited EXIT_FAILURE (out_of_memory w).
Proof.
  intros Hc Hno. unfold btree_split_child. rewrite Hc. cbn [deref bind ret].
  by rewrite (bind_exited _ _ _ _ _ (create_node_fails _ w Hno)).
Qed.

(** With a valid source block the insertion below a node either completes
    or ends the process at a failed allocation; the heap is then as it
    was. *)
Lemma insert_non_full_safe h : ∀ fuel n key src size bytes w,
  (h < fuel)%nat → shaped h n → (num_keys n < ORDER - 1)%nat →
  heap w !! src = Some bytes → (size ≤ length bytes)%nat →
  (∃ n' w', btree_insert_non_full fuel n key (Some src) size w = Returned n' w'
            ∧ shaped h n'
            ∧ heap w' = <[fresh (dom (heap w)) := take size bytes]> (heap w)
            ∧ stderr w' = stderr w)
  ∨ (∃ w0, btree_insert_non_full fuel n key (Some src) size w
           = Exited EXIT_FAILURE (out_of_memory w0)
           ∧ heap w0 = heap w ∧ stderr w0 = stderr w).
Proof.
  induction h as [|h IH];
    intros [|fuel] n key src size bytes w Hfuel Hs Hroom Hsrc Hsize;
    try lia; cbn [btree_insert_non_full].
  - (* a leaf *)
    destruct Hs as (Hk & Hl & Hc). rewrite Hl.
    rewrite (bind_step _ _ _ tt w)
      by (apply require_step; by apply bool_decide_eq_true_2).
    destruct (next_alloc_ok w) eqn:Hnext.
    + left.
      rewrite (bind_step _ _ _ _ _ (copy_payload_next src size bytes w Hnext Hsrc Hsize)).
      cbn [ret]. eexists _, _. split; [done|]. split_and!; try done.
      cbn [shaped is_leaf keys children]. unfold num_keys, insert_at in *.
      cbn [keys]. pose proof (scan_down_bound key (keys n)).
      rewrite length_app, length_take. cbn [length]. rewrite length_drop.
      split_and!; try done; lia.
    + right. exists w.
      by rewrite (bind_exited _ _ _ _ _ (copy_payload_fails _ size w Hnext)).
  - (* an internal node *)
    destruct n as [lf ks cs]. cbn [shaped is_leaf keys children] in Hs.
    unfold num_keys in Hs, Hroom. cbn [keys] in Hs, Hroom.
    destruct Hs as (Hk & -> & Hn & Hcs). cbn [is_leaf keys children].
    pose proof (scan_down_bound key ks) as Hi.
    set (i := scan_down key ks) in *.
    destruct (lookup_lt_is_Some_2 cs i) as [c Hc]; [lia|].
    rewrite Hc. cbn [deref bind ret].
    pose proof Hc as Hc'.
    apply list_elem_of_split_length in Hc' as (cl & cr & Hcsplit & Hicl).
    destruct (split_at ks i Hi) as (kl & kr & Hks & Hlen).
    rewrite Hicl in Hlen.
    assert (Forall (shaped h) cl ∧ shaped h c ∧ Forall (shaped h) cr)
      as (Hscl & Hsc & Hscr).
    { rewrite Hcsplit in Hcs. apply Forall_app in Hcs as [? Hcs].
      by apply Forall_cons in Hcs as [? ?]. }
    destruct (num_keys c =? ORDER - 1)%nat eqn:Efull.
    + apply Nat.eqb_eq in Efull.
      destruct (next_alloc_ok w) eqn:Hnext.
      2:{ right. exists w.
          by rewrite (bind_exited _ _ _ _ _
                        (split_child_fails (Node false ks cs) i c w Hc Hnext)). }
      subst ks cs.
      destruct (split_child_inv h false kl kr cl c cr w)
        as (up & left & right & dropped & Hsplit & Hsl & Hsr & Hrl & Hrr & _);
        [done|done|done|done|done|done|].
      rewrite Hicl, (bind_step _ _ _ _ _ Hsplit). cbn [keys children is_leaf].
      rewrite <- Hlen, lookup_mid. cbn [deref bind ret].
      set (go_right := (BTree.key up <? key)).
      assert (∃ chosen, chosen = (if go_right then right else left)
                        ∧ (cl ++ left :: right :: cr)
                            !! (if go_right then S (length kl) else length kl)
                          = Some chosen) as (chosen & Hchosen & ->).
      { rewrite Hlen. destruct go_right; eexists; (split; [done|]);
          [apply lookup_mid_next|apply lookup_mid]. }
      cbn [deref bind ret].
      destruct (IH fuel chosen key src size bytes (consume_alloc w))
        as [(c' & w' & Hrun & Hsc' & Hheap & Herr)|(w0 & Hrun & Hheap & Herr)];
        [lia|by subst chosen; destruct go_right
         |by subst chosen; destruct go_right|done|done| |].
      * left. rewrite (bind_step _ _ _ _ _ Hrun). cbn [ret].
        eexists _, w'. split; [done|]. split_and!; try done.
        cbn [shaped is_leaf keys children]. unfold num_keys. cbn [keys].
        rewrite length_insert, !length_app in *. cbn [length] in *.
        split_and!; try done; try lia.
        rewrite Hlen. destruct go_right;
          [rewrite insert_mid_next|rewrite insert_mid];
          (apply Forall_app; split; [done|]); by repeat constructor.
      * right. exists w0. by rewrite (bind_exited _ _ _ _ _ Hrun).
    + apply Nat.eqb_neq in Efull.
      destruct (IH fuel c key src size bytes w)
        as [(c' & w' & Hrun & Hsc' & Hheap & Herr)|(w0 & Hrun & Hheap & Herr)];
        [lia|done|pose proof (shaped_keys h c Hsc); lia|done|done| |].
      * left. rewrite (bind_step _ _ _ _ _ Hrun). cbn [ret].
        eexists _, w'. split; [done|]. split_and!; try done.
        cbn [shaped is_leaf keys children]. unfold num_keys. cbn [keys].
        rewrite length_insert. split_and!; try done; try lia.
        by apply Forall_insert.
      * right. exists w0. by rewrite (bind_exited _ _ _ _ _ Hrun).
Qed.

(** When the first allocation fails the process ends there, whatever the
    source pointer is. *)
Lemma insert_non_full_first_fails h : ∀ fuel n key data size w,
  (h < fuel)%nat → shaped h n → (num_keys n < ORDER - 1)%nat →
  next_alloc_ok w = false →
  btree_insert_non_full fuel n key data size w
  = Exited EXIT_FAILURE (out_of_memory w).
Proof.
  induction h as [|h IH]; intros [|fuel] n key data size w Hfuel Hs Hroom Hno;
    try lia; cbn [btree_insert_non_full].
  - destruct Hs as (Hk & Hl & Hc). rewrite Hl.
    rewrite (bind_step _ _ _ tt w)
      by (apply require_step; by apply bool_decide_eq_true_2).
    by rewrite (bind_exited _ _ _ _ _ (copy_payload_fails _ size w Hno)).
  - pose proof Hs as (Hk & Hl & Hn & Hcs). rewrite Hl.
    pose proof (scan_down_bound key (keys n)) as Hi.
    destruct (lookup_lt_is_Some_2 (children n) (scan_down key (keys n)))
      as [c Hc]; [unfold num_keys in *; lia|].
    rewrite Hc. cbn [deref bind ret].
    assert (shaped h c) as Hsc by by eapply Forall_lookup_1.
    destruct (num_keys c =? ORDER - 1)%nat eqn:Efull.
    + by rewrite (bind_exited _ _ _ _ _ (split_child_fails _ _ c w Hc Hno)).
    + apply Nat.eqb_neq in Efull. pose proof (shaped_keys h c Hsc).
      rewrite (bind_exited _ _ _ _ _ (IH fuel c key data size w
                                        ltac:(lia) Hsc ltac:(lia) Hno)).
      done.
Qed.

(** X4: [btree_insert] into a well-formed tree from a valid source block
    is fail-stop.  Whatever the allocator does, the call either returns,
    the heap having gained the copy of the bytes and nothing else, or it
    prints "Memory allocation failed" and ends the process with
    EXIT_FAILURE at the first allocation that fails, the heap being as it
    was.  When the very first allocation fails this happens before the
    source pointer is read. *)
Theorem insert_is_fail_stop t key src size bytes w :
  well_formed w (Some t) → heap w !! src = Some bytes →
  (size ≤ length bytes)%nat →
  ((∃ tree' w',
      btree_insert (Some t) key (Some src) size w = Returned tree' w'
      ∧ heap w' = <[fresh (dom (heap w)) := take size bytes]> (heap w)
      ∧ stderr w' = stderr w)
   ∨ (∃ w0,
        btree_insert (Some t) key (Some src) size w
        = Exited EXIT_FAILURE (out_of_memory w0)
        ∧ heap w0 = heap w ∧ stderr w0 = stderr w))
  ∧ (next_alloc_ok w = false →
     ∀ data, btree_insert (Some t) key data size w
             = Exited EXIT_FAILURE (out_of_memory w)).
Proof.
  unfold well_formed, btree_insert. cbn [mbind option_bind].
  intros Hwf Hsrc Hsize.
  destruct (root t) as [r|] eqn:Hroot.
  2:{ (* the first key *)
    split.
    - destruct (next_alloc_ok w) eqn:Hnext.
      2:{ right. exists w.
          by rewrite (bind_exited _ _ _ _ _ (create_node_fails true w Hnext)). }
      rewrite (bind_step _ _ _ _ _ (create_node_next true w Hnext)).
      destruct (next_alloc_ok (consume_alloc w)) eqn:Hnext2.
      + left.
        rewrite (bind_step _ _ _ _ _
                   (copy_payload_next src size bytes (consume_alloc w)
                      Hnext2 Hsrc Hsize)).
        cbn [ret]. by eexists _, _.
      + right. exists (consume_alloc w).
        by rewrite (bind_exited _ _ _ _ _
                      (copy_payload_fails _ size (consume_alloc w) Hnext2)).
    - intros Hno data.
      by rewrite (bind_exited _ _ _ _ _ (create_node_fails true w Hno)). }
  destruct Hwf as ([h Hs] & _ & _).
  pose proof (shaped_height h r Hs) as Hheight.
  pose proof (shaped_keys h r Hs) as Hkeys.
  destruct (num_keys r =? ORDER - 1)%nat eqn:Efull.
  - (* a full root *)
    apply Nat.eqb_eq in Efull. split.
    2:{ intros Hno data.
        by rewrite (bind_exited _ _ _ _ _ (create_node_fails false w Hno)). }
    destruct (next_alloc_ok w) eqn:Hnext.
    2:{ right. exists w.
        by rewrite (bind_exited _ _ _ _ _ (create_node_fails false w Hnext)). }
    rewrite (bind_step _ _ _ _ _ (create_node_next false w Hnext)).
    cbn [is_leaf keys].
    destruct (next_alloc_ok (consume_alloc w)) eqn:Hnext2.
    2:{ right. exists (consume_alloc w).
        by rewrite (bind_exited _ _ _ _ _
                      (split_child_fails (Node false [] [r]) 0 r
                         (consume_alloc w) eq_refl Hnext2)). }
    destruct (split_child_inv h false [] [] [] r [] (consume_alloc w))
      as (up & left & right & dropped & Hsplit & Hsl & Hsr & Hrl & Hrr & _);
      [done|done|done|cbn; unfold ORDER; lia|done|done|].
    cbn [app length] in Hsplit.
    rewrite (bind_step _ _ _ _ _ Hsplit). cbn [keys children is_leaf].
    cbn [lookup list_lookup deref bind ret].
    set (go_right := (BTree.key up <? key)).
    assert (∃ chosen, chosen = (if go_right then right else left)
                      ∧ [left; right] !! (if go_right then 1%nat else 0%nat)
                        = Some chosen) as (chosen & Hchosen & ->).
    { destruct go_right; by eexists. }
    cbn [deref bind ret].
    destruct (insert_non_full_safe h (height r) chosen key src size bytes
                (consume_alloc (consume_alloc w)))
      as [(c' & w' & Hrun & _ & Hheap & Herr)|(w0 & Hrun & Hheap & Herr)];
      [lia|by subst chosen; destruct go_right
       |by subst chosen; destruct go_right|done|done| |].
    + left. rewrite (bind_step _ _ _ _ _ Hrun). cbn [ret]. by eexists _, _.
    + right. exists w0. by rewrite (bind_exited _ _ _ _ _ Hrun).
  - (* a root with room *)
    apply Nat.eqb_neq in Efull. split.
    2:{ intros Hno data.
        by rewrite (bind_exited _ _ _ _ _
                      (insert_non_full_first_fails h (height r) r key data size
                         w ltac:(lia) Hs ltac:(lia) Hno)). }
    destruct (insert_non_full_safe h (height r) r key src size bytes w)
      as [(r' & w' & Hrun & _ & Hheap & Herr)|(w0 & Hrun & Hheap & Herr)];
      [lia|done|lia|done|done| |].
    + left. rewrite (bind_step _ _ _ _ _ Hrun). cbn [ret]. by eexists _, _.
    + right. exists w0. by rewrite (bind_exited _ _ _ _ _ Hrun).
Qed.

Lemma insert_is_fail_stop_witness :
  btree_insert sample_tree 7 None 1
    (mkWorld (heap sample_world) [false] [])
  = Exited EXIT_FAILURE
      (mkWorld (heap sample_world) [] ["Memory allocation failed"%string]).
Proof.
  destruct (insert_is_fail_stop sample_btree 7 dummy_payload 1
              ["*"%byte; "+"%byte] (mkWorld (heap sample_world) [false] []))
    as [_ Hfirst].
  - exact sample_tree_well_formed.
  - reflexivity.
  - cbn. lia.
  - apply (Hfirst eq_refl None).
Defined.

(** ** Destroying the tree *)

Lemma payloads_Permutation l l' : l ≡ₚ l' → payloads l ≡ₚ payloads l'.
Proof. unfold payloads. by intros ->. Qed.

Lemma in_order_Permutation {A} (subs : list (list A)) ks :
  length subs = S (length ks) → in_order subs ks ≡ₚ concat subs ++ ks.
Proof.
  revert subs. induction ks as [|k ks IH]; intros [|s subs] Hlen; try done.
  - destruct subs; [|done]. cbn. by rewrite !app_nil_r.
  - cbn [in_order head tail default concat]. unfold id.
    rewrite IH by (cbn in *; lia). solve_Permutation.
Qed.

Lemma payloads_head kv l : payloads (kv :: l) = payloads [kv] ++ payloads l.
Proof. apply (payloads_app [kv] l). Qed.

(** The loop that frees the payload of every key of a node. *)
Lemma free_slots ks : ∀ w,
  owned w ks →
  ∃ freed,
    foldr (λ kv rest, free (data (value kv)) ;;; rest) (ret tt) ks w
    = Returned tt (release freed w)
    ∧ freed ≡ₚ payloads ks.
Proof.
  induction ks as [|kv ks IH]; intros w Hown; cbn [foldr].
  - exists []. by rewrite release_nil.
  - rewrite (bind_step _ _ _ tt (release (payloads [kv]) w)).
    2:{ apply free_slot. intros p Hp. apply (owned_live _ _ _ Hown).
        rewrite (payloads_head kv ks), elem_of_app. by left. }
    destruct (IH (release (payloads [kv]) w)) as (F & Hrun & Hperm).
    { eapply owned_release; [exact Hown|]. by rewrite (payloads_head kv ks). }
    exists (F ++ payloads [kv]). rewrite Hrun, release_app. split; [done|].
    rewrite (payloads_head kv ks), Hperm. solve_Permutation.
Qed.

(** The loop over the children of a node. *)
Lemma destroy_children cs : ∀ w,
  Forall (λ c, ∀ w0, owned w0 (elems c) →
                ∃ freed, btree_destroy_node c w0 = Returned tt (release freed w0)
                         ∧ freed ≡ₚ payloads (elems c)) cs →
  owned w (concat (elems <$> cs)) →
  ∃ freed,
    foldr (λ destroy_child rest, destroy_child ;;; rest) (ret tt)
      (btree_destroy_node <$> cs) w
    = Returned tt (release freed w)
    ∧ freed ≡ₚ payloads (concat (elems <$> cs)).
Proof.
  induction cs as [|c cs IH]; intros w Hall Hown; cbn [fmap list_fmap foldr].
  - exists []. by rewrite release_nil.
  - apply Forall_cons in Hall as [Hc Hall].
    cbn [fmap list_fmap concat] in Hown |- *.
    destruct (Hc w) as (F1 & Hrun1 & Hperm1).
    { eapply owned_sublist; [exact Hown|]. rewrite payloads_app.
      by apply sublist_inserts_r. }
    rewrite (bind_step _ _ _ _ _ Hrun1).
    destruct (IH (release F1 w) Hall) as (F2 & Hrun2 & Hperm2).
    { eapply owned_release; [exact Hown|]. by rewrite payloads_app, Hperm1. }
    exists (F2 ++ F1). rewrite Hrun2, release_app. split; [done|].
    rewrite payloads_app, Hperm1, Hperm2. solve_Permutation.
Qed.

Lemma destroy_node_spec h : ∀ n w,
  shaped h n → owned w (elems n) →
  ∃ freed, btree_destroy_node n w = Returned tt (release freed w)
           ∧ freed ≡ₚ payloads (elems n).
Proof.
  induction h as [|h IH]; intros [lf ks cs] w;
    cbn [shaped is_leaf keys children btree_destroy_node].
  - intros (_ & -> & ->) Hown. rewrite elems_leaf in * by done.
    cbn [keys] in *. cbn [bind ret]. by apply free_slots.
  - unfold num_keys. cbn [keys]. intros (_ & -> & Hn & Hcs) Hown.
    rewrite elems_internal in * by done. cbn [keys children] in *.
    assert (payloads (in_order (elems <$> cs) ks)
            ≡ₚ payloads (concat (elems <$> cs)) ++ payloads ks) as Hwalk.
    { rewrite <- payloads_app. apply payloads_Permutation.
      apply in_order_Permutation. by rewrite length_fmap. }
    rewrite take_ge by (rewrite length_fmap; lia).
    destruct (destroy_children cs w) as (F1 & Hrun1 & Hperm1).
    { eapply Forall_impl; [exact Hcs|]. intros c Hc w0. by apply IH. }
    { eapply owned_release with (freed := []) in Hown;
        [by rewrite release_nil in Hown|].
      cbn [app]. rewrite Hwalk. by apply submseteq_inserts_r. }
    rewrite (bind_step _ _ _ _ _ Hrun1).
    destruct (free_slots ks (release F1 w)) as (F2 & Hrun2 & Hperm2).
    { eapply owned_release; [exact Hown|]. by rewrite Hwalk, Hperm1. }
    exists (F2 ++ F1). rewrite Hrun2, release_app. split; [done|].
    rewrite Hwalk, Hperm1, Hperm2. solve_Permutation.
Qed.

Lemma lookup_release_freed freed w p :
  p ∈ freed → heap (release freed w) !! p = None.
Proof. intros Hp. unfold release. cbn [heap]. by apply lookup_foldr_delete. Qed.

(** X9: [btree_destroy] of a well-formed tree returns after it has freed
    every payload block of the tree, each of them once (no block is freed
    twice or after it is dead); it touches no other block, allocates
    nothing and prints nothing on stderr. *)
Theorem destroy_frees_the_payloads tree w :
  well_formed w tree →
  ∃ w', btree_destroy tree w = Returned tt w'
        ∧ (∀ p, p ∈ payloads (tree_elems tree) → heap w' !! p = None)
        ∧ (∀ p, p ∉ payloads (tree_elems tree) → heap w' !! p = heap w !! p)
        ∧ alloc_oracle w' = alloc_oracle w ∧ stderr w' = stderr w.
Proof.
  unfold well_formed, tree_elems, btree_destroy.
  assert (∃ w', Returned tt w = Returned tt w'
                ∧ (∀ p, p ∈ payloads [] → heap w' !! p = None)
                ∧ (∀ p, p ∉ payloads [] → heap w' !! p = heap w !! p)
                ∧ alloc_oracle w' = alloc_oracle w ∧ stderr w' = stderr w)
    as Hnothing.
  { exists w. split_and!; try done. intros p Hp. by apply elem_of_nil in Hp. }
  destruct tree as [t|]; cbn [mbind option_bind]; [|done].
  destruct (root t) as [r|]; cbn [from_option]; [|done].
  intros ([h Hs] & _ & Hown).
  destruct (destroy_node_spec h r w Hs Hown) as (F & Hrun & Hperm).
  exists (release F w). split; [done|]. split_and!; try done.
  - intros p Hp. apply lookup_release_freed. by rewrite Hperm.
  - intros p Hp. apply lookup_release_other. by rewrite Hperm.
Qed.

Lemma destroy_frees_the_payloads_witness :
  ∃ w', btree_destroy sample_tree sample_world = Returned tt w'
        ∧ heap w' !! 4%positive = None
        ∧ heap w' !! dummy_payload = Some ["*"%byte; "+"%byte].
Proof.
  destruct (destroy_frees_the_payloads sample_tree sample_world
              sample_tree_well_formed) as (w' & Hrun & Hfreed & Hkept & _).
  exists w'. split; [exact Hrun|]. split.
  - apply Hfreed. apply (bool_decide_unpack _). by vm_compute.
  - rewrite Hkept; [reflexivity|]. apply (bool_decide_unpack _). by vm_compute.
Defined.

(** ** Printing the tree *)

Lemma concat_fmap_concat {A B} (f : A → list B) (g : BTreeNode → list A) cs :
  concat (f <$> concat (g <$> cs)) = concat ((λ c, concat (f <$> g c)) <$> cs).
Proof.
  induction cs as [|c cs IH]; [done|].
  cbn [fmap list_fmap concat]. by rewrite fmap_app, concat_app, IH.
Qed.

Lemma fmap_concat_nodes {A B} (f : A → B) (g : BTreeNode → list A) cs :
  f <$> concat (g <$> cs) = concat ((λ c, f <$> g c) <$> cs).
Proof.
  induction cs as [|c cs IH]; [done|].
  cbn [fmap list_fmap concat]. by rewrite fmap_app, IH.
Qed.

Lemma concat_Permutation_ext {A} (f g : BTreeNode → list A) cs :
  Forall (λ c, f c ≡ₚ g c) cs → concat (f <$> cs) ≡ₚ concat (g <$> cs).
Proof.
  induction 1 as [|c cs Hc _ IH]; [done|].
  cbn [fmap list_fmap concat]. by rewrite Hc, IH.
Qed.

Lemma print_node_spec h : ∀ n level,
  shaped h n →
  (λ line, (line.1.2, line.2)) <$> btree_print_node n level
  = (λ m, (BTree.key <$> keys m, is_leaf m)) <$> nodes n
  ∧ Forall (λ line, (line.1.1 ≤ level + h)%nat) (btree_print_node n level)
  ∧ concat ((λ m, BTree.key <$> keys m) <$> nodes n) ≡ₚ BTree.key <$> elems n.
Proof.
  induction h as [|h IH]; intros [lf ks cs] level;
    cbn [shaped is_leaf keys children btree_print_node nodes].
  - intros (_ & -> & ->). rewrite elems_leaf by done.
    cbn [fmap list_fmap concat keys is_leaf fst snd app].
    split_and!; [done|repeat constructor; simpl; lia|by rewrite app_nil_r].
  - unfold num_keys. cbn [keys]. intros (_ & -> & Hn & Hcs).
    rewrite take_ge by (rewrite length_fmap; lia).
    cbn [fmap list_fmap concat keys is_leaf fst snd].
    split_and!.
    + f_equal. rewrite !fmap_concat_nodes. f_equal.
      apply Forall_fmap_ext_1. eapply Forall_impl; [exact Hcs|].
      intros c Hc. simpl. by destruct (IH c (S level) Hc) as [-> _].
    + constructor; [simpl; lia|]. apply Forall_concat, Forall_fmap.
      eapply Forall_impl; [exact Hcs|]. intros c Hc. simpl.
      destruct (IH c (S level) Hc) as (_ & Hl & _).
      eapply Forall_impl; [exact Hl|]. simpl. intros. lia.
    + rewrite elems_internal by done. cbn [keys children].
      rewrite in_order_Permutation by (by rewrite length_fmap).
      rewrite fmap_app, concat_fmap_concat, fmap_concat_nodes.
      rewrite (concat_Permutation_ext _ (λ c, BTree.key <$> elems c)).
      * solve_Permutation.
      * eapply Forall_impl; [exact Hcs|]. intros c Hc. simpl.
        by destruct (IH c 0%nat Hc) as (_ & _ & ?).
Qed.

(** X10: [btree_print] on a well-formed tree prints one line for every
    node, the root first and every node before its children, with the
    keys of the node and its leaf mark, at a level below the depth of the
    tree; the keys on its lines are the keys [btree_traverse] prints, in
    another order. *)
Theorem print_lists_every_node tree w :
  well_formed w tree →
  (λ line, (line.1.2, line.2)) <$> btree_print tree
  = (λ m, (BTree.key <$> keys m, is_leaf m)) <$> tree_nodes tree
  ∧ Forall (λ line, (line.1.1 < depth tree)%nat) (btree_print tree)
  ∧ concat ((λ line, line.1.2) <$> btree_print tree) ≡ₚ traversal_keys tree.
Proof.
  unfold well_formed, btree_print, tree_nodes, depth, traversal_keys,
    btree_traverse.
  destruct (tree ≫= root) as [r|]; cbn [from_option].
  2:{ intros _. split_and!; [done|constructor|done]. }
  intros ([h Hs] & _ & _).
  destruct (print_node_spec h r 0 Hs) as (Hlines & Hlevels & Hperm).
  destruct (traverse_node_spec h r 0 Hs) as [Hkeys _].
  rewrite Hkeys, (shaped_height h r Hs). split_and!; [done| |].
  - eapply Forall_impl; [exact Hlevels|]. simpl. intros. lia.
  - rewrite <- Hperm.
    assert ((λ line : nat * list Z * bool, line.1.2) <$> btree_print_node r 0
            = fst <$> ((λ line, (line.1.2, line.2)) <$> btree_print_node r 0))
      as -> by (by rewrite <- list_fmap_compose).
    rewrite Hlines, <- list_fmap_compose. done.
Qed.

Lemma print_lists_every_node_witness :
  (λ line, (line.1.2, line.2)) <$> btree_print sample_tree
  = [([6], false); ([5], true); ([10; 12], true)]
  ∧ concat ((λ line, line.1.2) <$> btree_print sample_tree)
    ≡ₚ traversal_keys sample_tree.
Proof.
  destruct (print_lists_every_node sample_tree sample_world
              sample_tree_well_formed) as (Hlines & _ & Hperm).
  split; [rewrite Hlines; reflexivity|exact Hperm].
Defined.

End BTreeInvariants.

(** * Theorems about mapreduce.c *)

Module MapReduceFacts.
Import MapReduce MapReduceSpec.

Lemma hash_step_djb2 sgn h c :
  hash_step sgn h c = (h * 33 + char_to_int sgn c) mod 2 ^ 32.
Proof.
  unfold hash_step, wrap32.
  rewrite Z.shiftl_mul_pow2 by lia.
  rewrite Z.add_mod_idemp_r, Z.add_mod_idemp_l by lia.
  rewrite <- Z.add_assoc, Z.add_mod_idemp_l by lia.
  f_equal. lia.
Qed.

Lemma hash_loop_fold sgn s : ∀ h,
  hash_loop sgn h s
  = fold_left (λ h c, (h * 33 + c) mod 2 ^ 32)
      (char_to_int sgn <$> list_ascii_of_string (c_str s)) h.
Proof.
  induction s as [|c s IH]; intros h; simpl; [done|].
  destruct (Ascii.eqb c zero); simpl; [done|].
  by rewrite IH, hash_step_djb2.
Qed.

Lemma add_kv_pair_null list key value w :
  list = None ∨ key = None ∨ value = None →
  add_kv_pair list key value w = Returned list w.
Proof.
  intros [-> | [-> | ->]]; [done| |]; destruct list as [?|]; try done;
    destruct key; done.
Qed.

Lemma size_app_one (l : list KeyValue) kv :
  Z.of_nat (length (l ++ [kv])) = Z.of_nat (length l) + 1.
Proof. rewrite length_app. simpl. lia. Qed.

(** What a returning [add_kv_pair] on non-null arguments has done. *)
Lemma add_kv_pair_returned l k v w r w' :
  add_kv_pair (Some l) (Some k) (Some v) w = Returned r w' →
  ∃ l', r = Some l' ∧ items l' = items l ++ [stored k v]
        ∧ stderr w' = stderr w ∧ spawned w' = spawned w.
Proof.
  unfold add_kv_pair, bind, ret, require, allocate, eprint, exit.
  destruct (decide (capacity l ≤ size l)).
  - destruct (next_ok (alloc_oracle w)); [|done].
    case_bool_decide; [|done]. intros [= <- <-]. eauto.
  - case_bool_decide; [|done]. intros [= <- <-]. eauto.
Qed.

Lemma sizeof_KeyValue_eq : sizeof_KeyValue = 1152.
Proof. reflexivity. Qed.

Lemma add_kv_pair_returns l k v w :
  kv_list_ok l →
  size l < capacity l ∨ next_ok (alloc_oracle w) = true →
  ∃ l' w', add_kv_pair (Some l) (Some k) (Some v) w = Returned (Some l') w'.
Proof.
  intros (Hd & Hc & Hs & Hb) Hroom. rewrite sizeof_KeyValue_eq in Hb.
  unfold add_kv_pair, bind, ret, require, allocate, eprint, exit.
  rewrite sizeof_KeyValue_eq.
  destruct (decide (capacity l ≤ size l)).
  - destruct Hroom as [? | ->]; [lia|].
    rewrite bool_decide_eq_true_2; [eauto|].
    unfold wrap64, size, items in *. simpl.
    rewrite Z.mod_small by lia. split_and!; [lia|lia|eauto].
  - rewrite bool_decide_eq_true_2; [eauto|]. split_and!; [lia|lia|done].
Qed.

(** [allocate] under an oracle without failures. *)
Lemma allocate_ok w :
  allocations_succeed w →
  ∃ w', allocate w = Returned true w' ∧ allocations_succeed w'
        ∧ stderr w' = stderr w ∧ spawned w' = spawned w
        ∧ thread_oracle w' = thread_oracle w.
Proof.
  unfold allocations_succeed, allocate. intros H.
  destruct (alloc_oracle w) as [|b o] eqn:E; simpl.
  - eexists. split; [done|]. simpl. split_and!; done.
  - inversion H; subst. eexists. split; [done|]. simpl. done.
Qed.

Lemma create_kv_list_ok w :
  allocations_succeed w →
  ∃ w', create_kv_list w = Returned (mkList (Some []) INITIAL_BUCKET_SIZE) w'
        ∧ allocations_succeed w'
        ∧ stderr w' = stderr w ∧ spawned w' = spawned w
        ∧ thread_oracle w' = thread_oracle w.
Proof.
  intros H. destruct (allocate_ok w H) as (w' & Ha & ?).
  exists w'. unfold create_kv_list, bind. rewrite Ha. done.
Qed.

Lemma create_partitions_ok k : ∀ w,
  allocations_succeed w →
  ∃ parts w',
    (fix loop (k : nat) : M world (list Partition) :=
       match k with
       | O => ret []
       | S k => l <- create_kv_list ;; rest <- loop k ;;
                ret (mkPartition l :: rest)
       end) k w = Returned parts w'
    ∧ parts = replicate k (mkPartition (mkList (Some []) INITIAL_BUCKET_SIZE))
    ∧ allocations_succeed w'
    ∧ stderr w' = stderr w ∧ spawned w' = spawned w.
Proof.
  induction k as [|k IH]; intros w H.
  - exists [], w. done.
  - destruct (create_kv_list_ok w H) as (w1 & Hc & H1 & He1 & Hs1 & _).
    destruct (IH w1 H1) as (parts & w2 & Hl & -> & H2 & He2 & Hs2).
    eexists _, w2. unfold bind at 1. rewrite Hc.
    unfold bind at 1. rewrite Hl. unfold ret. split; [done|].
    split_and!; [done|done|congruence|congruence].
Qed.

(** The context [init_mapreduce] builds when no allocation fails. *)
Lemma init_mapreduce_ok c0 n f g w :
  allocations_succeed w →
  ∃ w', init_mapreduce (Some c0) n (Some f) (Some g) w
        = Returned
            (mkCtx (mkList (Some []) INITIAL_BUCKET_SIZE)
               (mkList (Some []) INITIAL_BUCKET_SIZE)
               (replicate (Z.to_nat PARTITIONS)
                  (mkPartition (mkList (Some []) INITIAL_BUCKET_SIZE)))
               (Some f) (Some g)
               (if bool_decide (0 < n ∧ n ≤ MAX_THREADS) then n else MAX_THREADS)
               ((if bool_decide (0 < n ∧ n ≤ MAX_THREADS) then n else MAX_THREADS) + 1))
            w'
        ∧ stderr w' = stderr w ∧ spawned w' = spawned w.
Proof.
  intros H. unfold init_mapreduce.
  destruct (create_kv_list_ok w H) as (w1 & Hc1 & H1 & He1 & Hs1 & _).
  destruct (create_kv_list_ok w1 H1) as (w2 & Hc2 & H2 & He2 & Hs2 & _).
  destruct (create_partitions_ok (Z.to_nat PARTITIONS) w2 H2)
    as (parts & w3 & Hp & -> & H3 & He3 & Hs3).
  exists w3. unfold bind at 1. rewrite Hc1. unfold bind at 1. rewrite Hc2.
  unfold bind at 1. rewrite Hp. unfold ret.
  split_and!; [done|congruence|congruence].
Qed.

Lemma init_mapreduce_missing ctx n map reduce w :
  ctx = None ∨ map = None ∨ reduce = None →
  init_mapreduce ctx n map reduce w
  = Exited EXIT_FAILURE
      (mkWorld (alloc_oracle w) (thread_oracle w)
         (stderr w ++ ["Invalid MapReduce initialization"%string]) (spawned w)).
Proof.
  intros [-> | [-> | ->]]; [done| |]; destruct ctx; try done; destruct map; done.
Qed.

(** C10: [add_kv_pair] with a null list, key or value returns at once,
    leaving the list and the program state (stderr included) as they were;
    with three non-null arguments, on a live list, it appends exactly one
    pair (the two strings cut to their buffers) and the size grows by one.
    The second part assumes what the code leaves to its environment: the
    list is live and the reallocation, when the list is full, succeeds. *)
Theorem c10_add_kv_pair :
  (∀ list key value w,
     list = None ∨ key = None ∨ value = None →
     add_kv_pair list key value w = Returned list w)
  ∧ (∀ l k v w,
       kv_list_ok l →
       size l < capacity l ∨ next_ok (alloc_oracle w) = true →
       ∃ l' w', add_kv_pair (Some l) (Some k) (Some v) w
                = Returned (Some l') w'
                ∧ items l' = items l ++ [stored k v]
                ∧ size l' = size l + 1
                ∧ stderr w' = stderr w).
Proof.
  split; [apply add_kv_pair_null|].
  intros l k v w Hok Hroom.
  destruct (add_kv_pair_returns l k v w Hok Hroom) as (l' & w' & Hrun).
  destruct (add_kv_pair_returned _ _ _ _ _ _ Hrun)
    as (l2 & [= <-] & Hitems & Herr & _).
  exists l', w'. split_and!; [done|done| |done].
  unfold size. rewrite Hitems. apply size_app_one.
Qed.

Lemma c10_add_kv_pair_witness :
  add_kv_pair None (Some "k"%string) (Some "v"%string) quiet_world
    = Returned None quiet_world
  ∧ ∃ l' w', add_kv_pair (Some (mkList (Some []) 64)) (Some "k"%string)
               (Some "v"%string) quiet_world = Returned (Some l') w'
             ∧ items l' = [stored "k" "v"] ∧ size l' = 1.
Proof.
  destruct c10_add_kv_pair as [Hnull Happ]. split.
  - apply Hnull. by left.
  - destruct (Happ (mkList (Some []) 64) "k"%string "v"%string quiet_world)
      as (l' & w' & H1 & H2 & H3 & _).
    + unfold kv_list_ok. simpl. split_and!; [eauto|lia|done|done].
    + left. done.
    + exists l', w'. done.
Defined.

(** C6, as the code is: a thread count outside [1, MAX_THREADS] is
    accepted without a word and replaced by MAX_THREADS, and a missing
    callback ends the process. *)
Lemma c6_counterexample :
  (invalid_configuration 0 (Some no_map) (Some no_reduce)
   ∧ ∃ c w', init_mapreduce (Some some_context) 0 (Some no_map)
               (Some no_reduce) quiet_world = Returned c w'
             ∧ num_threads c = MAX_THREADS ∧ stderr w' = [])
  ∧ (invalid_configuration 4 None (Some no_reduce)
     ∧ ∃ w', init_mapreduce (Some some_context) 4 None (Some no_reduce)
               quiet_world = Exited EXIT_FAILURE w').
Proof.
  split; split.
  - left. lia.
  - eexists _, _. split; [vm_compute; reflexivity|]. done.
  - right. by left.
  - eexists. vm_compute. reflexivity.
Qed.

(** C6, amended: [init_mapreduce] with a missing map or reduce callback
    prints "Invalid MapReduce initialization" and exits with EXIT_FAILURE,
    no worker having been created; with both callbacks and a thread count
    outside [1, MAX_THREADS] it returns normally, reports nothing, creates
    no worker and configures MAX_THREADS workers (a count inside the range
    is kept). *)
Theorem c6_init_mapreduce_as_designed ctx n map reduce w :
  (map = None ∨ reduce = None →
   init_mapreduce ctx n map reduce w
   = Exited EXIT_FAILURE
       (mkWorld (alloc_oracle w) (thread_oracle w)
          (stderr w ++ ["Invalid MapReduce initialization"%string])
          (spawned w)))
  ∧ (is_Some ctx → is_Some map → is_Some reduce → allocations_succeed w →
     ∃ c w', init_mapreduce ctx n map reduce w = Returned c w'
             ∧ num_threads c = (if bool_decide (1 ≤ n ≤ MAX_THREADS)
                                then n else MAX_THREADS)
             ∧ barrier_count c = num_threads c + 1
             ∧ stderr w' = stderr w ∧ spawned w' = spawned w).
Proof.
  split.
  - intros H. apply init_mapreduce_missing. by right.
  - intros [c0 ->] [f ->] [g ->] Hw.
    destruct (init_mapreduce_ok c0 n f g w Hw) as (w' & Hrun & He & Hs).
    eexists _, w'. split; [exact Hrun|]. simpl.
    split_and!; [|done|done|done].
    repeat case_bool_decide; lia.
Qed.

Lemma c6_init_mapreduce_as_designed_witness :
  init_mapreduce (Some some_context) 4 None (Some no_reduce) quiet_world
  = Exited EXIT_FAILURE
      (mkWorld [] [] ["Invalid MapReduce initialization"%string] [])
  ∧ ∃ c w', init_mapreduce (Some some_context) 17 (Some no_map)
              (Some no_reduce) quiet_world = Returned c w'
            ∧ num_threads c = 16 ∧ stderr w' = [] ∧ spawned w' = [].
Proof.
  split.
  - apply (c6_init_mapreduce_as_designed (Some some_context) 4 None
             (Some no_reduce) quiet_world). by left.
  - destruct (c6_init_mapreduce_as_designed (Some some_context) 17
                (Some no_map) (Some no_reduce) quiet_world) as [_ H].
    destruct H as (c & w' & H1 & H2 & _ & H3 & H4);
      [eauto|eauto|eauto|constructor|].
    exists c, w'. done.
Defined.

(** C7: [run_mapreduce] on a context whose input list is empty prints
    "No input data for MapReduce" and returns -1; it creates no worker
    thread and hands the context back as it was, so an empty output list
    stays empty. *)
Theorem c7_run_on_empty_input phases c w :
  size (input c) = 0 →
  ∃ c' w', run_mapreduce phases (Some c) w = Returned (-1, Some c') w'
           ∧ c' = c
           ∧ (size (output c) = 0 → size (output c') = 0)
           ∧ spawned w' = spawned w
           ∧ thread_oracle w' = thread_oracle w
           ∧ stderr w' = stderr w ++ ["No input data for MapReduce"%string].
Proof.
  intros Hempty. unfold run_mapreduce.
  destruct (decide (size (input c) = 0)); [|done].
  eexists c, _. split; [reflexivity|]. done.
Qed.

Lemma c7_run_on_empty_input_witness :
  ∃ c w1, init_mapreduce (Some some_context) 4 (Some no_map) (Some no_reduce)
            quiet_world = Returned c w1
          ∧ ∃ c' w', run_mapreduce (λ c, ret c) (Some c) w1
                     = Returned (-1, Some c') w'
                     ∧ size (output c') = 0 ∧ spawned w' = [].
Proof.
  eexists _, _. split; [vm_compute; reflexivity|].
  edestruct (c7_run_on_empty_input (λ c, ret c)) as (c' & w' & H1 & H2 & H3 & H4 & _);
    [|exists c', w'; split; [exact H1|split; [apply H3|exact H4]]];
    reflexivity.
Defined.

(** The partition index is a valid index of [partitions[PARTITIONS]]. *)
Lemma partition_index_range sgn kv :
  0 ≤ partition_index sgn kv < PARTITIONS.
Proof. unfold partition_index, PARTITIONS. apply Z.mod_pos_bound. lia. Qed.

(** The routing loop appends to each partition, in order, the stored
    copies of the pairs whose index is that partition, and nothing else. *)
Lemma route_returned sgn map_output : ∀ parts w parts' w',
  route sgn parts map_output w = Returned parts' w' →
  length parts' = length parts
  ∧ ∀ p part, parts !! p = Some part →
      ∃ part', parts' !! p = Some part'
        ∧ items (kvs part')
          = items (kvs part)
            ++ ((λ kv, stored (key kv) (value kv))
                  <$> filter (λ kv, Z.to_nat (partition_index sgn kv) = p)
                        map_output).
Proof.
  induction map_output as [|kv rest IH]; intros parts w parts' w'.
  - intros [= <- <-]. split; [done|]. intros p part Hp. exists part.
    by rewrite app_nil_r.
  - cbn [route]. intros Hrun.
    apply bind_returned in Hrun as (dest & w0 & Hd & Hrun).
    apply deref_returned in Hd as [Hd <-].
    apply bind_returned in Hrun as (r & w1 & Hadd & Hrun).
    apply add_kv_pair_returned in Hadd as (l' & -> & Hitems & _).
    apply bind_returned in Hrun as (l2 & w2 & Hl & Hrest).
    apply deref_returned in Hl as [[= <-] <-].
    apply IH in Hrest as [Hlen Hrest]. rewrite length_insert in Hlen.
    split; [done|]. intros p part Hp.
    destruct (decide (Z.to_nat (partition_index sgn kv) = p)) as [<-|Hne].
    + destruct (Hrest (Z.to_nat (partition_index sgn kv)) (mkPartition l'))
        as (part' & Hp' & Hit).
      { apply list_lookup_insert_eq. by eapply lookup_lt_Some. }
      exists part'. split; [done|]. rewrite Hit. simpl. rewrite Hitems.
      rewrite filter_cons_True by done. simpl.
      rewrite <- app_assoc. simplify_eq. done.
    + destruct (Hrest p part) as (part' & Hp' & Hit).
      { by rewrite list_lookup_insert_ne. }
      exists part'. split; [done|]. rewrite Hit.
      by rewrite filter_cons_False.
Qed.

End MapReduceFacts.

(** * The phases and the jobs of mapreduce.c *)

Module MapReducePhases.
Import MapReduce MapReduceSpec MapReduceFacts.

(** ** Strings cut to their buffers *)

Lemma substring_0_length n : ∀ s,
  String.length (substring 0 n s) = (n `min` String.length s)%nat.
Proof.
  induction n as [|n IH]; intros [|c s]; cbn [substring String.length]; try done.
  by rewrite IH.
Qed.

Lemma substring_0_all n : ∀ s,
  (String.length s ≤ n)%nat → substring 0 n s = s.
Proof.
  induction n as [|n IH]; intros [|c s]; cbn [substring String.length];
    try done; [lia|]. intros H. rewrite IH; [done|lia].
Qed.

Lemma substring_0_prefix n : ∀ s, String.prefix (substring 0 n s) s = true.
Proof.
  induction n as [|n IH]; intros [|c s]; cbn [substring String.prefix];
    try done.
  destruct (ascii_dec c c); [apply IH|done].
Qed.

Lemma c_str_idemp s : c_str (c_str s) = c_str s.
Proof.
  induction s as [|c s IH]; cbn [c_str]; [done|].
  destruct (Ascii.eqb c zero) eqn:E; [done|]. cbn [c_str]. by rewrite E, IH.
Qed.

(** A prefix of a string without NUL has no NUL. *)
Lemma c_str_substring n : ∀ s,
  c_str s = s → c_str (substring 0 n s) = substring 0 n s.
Proof.
  induction n as [|n IH]; intros [|c s]; cbn [substring c_str]; try done.
  destruct (Ascii.eqb c zero); [done|]. intros [= H]. by rewrite IH.
Qed.

Lemma bounded_copy_length n src :
  (String.length (bounded_copy n src) ≤ n - 1)%nat.
Proof. unfold bounded_copy. rewrite substring_0_length. lia. Qed.

Lemma bounded_copy_short n src :
  (String.length (c_str src) < n)%nat → bounded_copy n src = c_str src.
Proof. intros H. unfold bounded_copy. apply substring_0_all. lia. Qed.

Lemma bounded_copy_c_str n src :
  c_str (bounded_copy n src) = bounded_copy n src.
Proof. unfold bounded_copy. apply c_str_substring, c_str_idemp. Qed.

(** Copying a copy changes nothing. *)
Lemma bounded_copy_idemp n src :
  bounded_copy n (bounded_copy n src) = bounded_copy n src.
Proof.
  unfold bounded_copy at 1. rewrite bounded_copy_c_str.
  apply substring_0_all, bounded_copy_length.
Qed.

Lemma stored_is_stored k v : is_stored (stored k v).
Proof.
  unfold is_stored, stored. cbn [key value]. by rewrite !bounded_copy_idemp.
Qed.

(** X12: the pair [add_kv_pair] appends to a live list holds, for the key
    and for the value, the characters of the argument before its first NUL,
    cut to what fits the buffer with its terminator: the first
    MAX_KEY_LENGTH - 1 and MAX_VALUE_LENGTH - 1 of them, and all of them
    when they are fewer.  The cut is silent: nothing is printed. *)
Theorem add_kv_pair_cuts_to_the_buffers l k v w :
  kv_list_ok l →
  size l < capacity l ∨ next_ok (alloc_oracle w) = true →
  ∃ l' w' kv,
    add_kv_pair (Some l) (Some k) (Some v) w = Returned (Some l') w'
    ∧ items l' = items l ++ [kv]
    ∧ (String.length (key kv) < MAX_KEY_LENGTH)%nat
    ∧ (String.length (value kv) < MAX_VALUE_LENGTH)%nat
    ∧ String.prefix (key kv) (c_str k) = true
    ∧ String.prefix (value kv) (c_str v) = true
    ∧ ((String.length (c_str k) < MAX_KEY_LENGTH)%nat → key kv = c_str k)
    ∧ ((String.length (c_str v) < MAX_VALUE_LENGTH)%nat → value kv = c_str v)
    ∧ c_str (key kv) = key kv ∧ c_str (value kv) = value kv
    ∧ String.length (key kv)
      = ((MAX_KEY_LENGTH - 1) `min` String.length (c_str k))%nat
    ∧ String.length (value kv)
      = ((MAX_VALUE_LENGTH - 1) `min` String.length (c_str v))%nat
    ∧ stderr w' = stderr w.
Proof.
  intros Hok Hroom.
  destruct (add_kv_pair_returns l k v w Hok Hroom) as (l' & w' & Hrun).
  pose proof Hrun as Hret.
  apply add_kv_pair_returned in Hret as (l2 & [= <-] & Hitems & Herr & _).
  exists l', w', (stored k v). split; [done|]. split; [done|].
  unfold stored. cbn [key value].
  pose proof (bounded_copy_length MAX_KEY_LENGTH k).
  pose proof (bounded_copy_length MAX_VALUE_LENGTH v).
  split_and!.
  - unfold MAX_KEY_LENGTH in *. lia.
  - unfold MAX_VALUE_LENGTH in *. lia.
  - apply substring_0_prefix.
  - apply substring_0_prefix.
  - apply bounded_copy_short.
  - apply bounded_copy_short.
  - apply bounded_copy_c_str.
  - apply bounded_copy_c_str.
  - apply substring_0_length.
  - apply substring_0_length.
  - done.
Qed.

Lemma add_kv_pair_cuts_to_the_buffers_witness :
  ∃ l' w' kv,
    add_kv_pair (Some (mkList (Some []) 64)) (Some "key") (Some "a value")
      quiet_world = Returned (Some l') w'
    ∧ items l' = [] ++ [kv] ∧ key kv = "key"%string
    ∧ String.length (value kv) = 7%nat ∧ stderr w' = [].
Proof.
  destruct (add_kv_pair_cuts_to_the_buffers (mkList (Some []) 64) "key" "a value"
              quiet_world)
    as (l' & w' & kv & Hrun & Hitems & _ & _ & _ & _ & Hkey & _ & _ & _ & _
        & Hlen & Herr).
  - unfold kv_list_ok. simpl. split_and!; [eauto|lia|done|done].
  - left. done.
  - exists l', w', kv. split; [exact Hrun|]. split; [exact Hitems|].
    split; [apply Hkey; cbn; unfold MAX_KEY_LENGTH; lia|].
    split; [rewrite Hlen; reflexivity|exact Herr].
Defined.

(** ** Lists that grow *)

Lemma roomy_capacity l :
  roomy l → 0 < capacity l ∧ capacity l ≤ 64 `max` (2 * size l).
Proof.
  intros (_ & Hs & [j Hj] & Hc). unfold INITIAL_BUCKET_SIZE in *.
  assert (0 < 2 ^ Z.of_nat j) by (apply Z.pow_pos_nonneg; lia).
  split; lia.
Qed.

Lemma roomy_fresh : roomy (mkList (Some []) INITIAL_BUCKET_SIZE).
Proof.
  unfold roomy, size, items. cbn. split_and!; [eauto|done| |by left].
  exists O. done.
Qed.

Lemma size_nonneg l : 0 ≤ size l.
Proof. unfold size. lia. Qed.

(** [add_kv_pair] on a list that grew by doubling: the pair is appended
    and the list keeps that form. *)
Lemma add_kv_pair_roomy l k v w :
  roomy l → size l < list_bound → allocations_succeed w →
  ∃ l' w',
    add_kv_pair (Some l) (Some k) (Some v) w = Returned (Some l') w'
    ∧ items l' = items l ++ [stored k v]
    ∧ roomy l' ∧ allocations_succeed w'
    ∧ stderr w' = stderr w ∧ spawned w' = spawned w
    ∧ thread_oracle w' = thread_oracle w.
Proof.
  intros Hroomy Hsize Hok.
  pose proof (roomy_capacity l Hroomy) as [Hpos Hcap].
  destruct Hroomy as (Hd & Hs & [j Hj] & Hc).
  change list_bound with 1125899906842624 in Hsize.
  pose proof (size_nonneg l) as H0.
  pose proof (eq_refl : 2 ^ 64 = 18446744073709551616) as H64.
  assert (capacity l < 2251799813685248) as Hsmall by lia.
  unfold add_kv_pair.
  destruct (decide (capacity l ≤ size l)) as [Hfull|Hfree].
  - (* the list is full: its capacity doubles *)
    destruct (allocate_ok w Hok) as (w1 & Ha & Hok1 & He1 & Hs1 & Ht1).
    rewrite (bind_step _ _ _ (mkList (Some (items l)) (2 * capacity l)) w1).
    2:{ rewrite (bind_step _ _ _ _ _ Ha). unfold wrap64.
        rewrite Z.mod_small by lia. by rewrite (Z.mul_comm 2). }
    rewrite (bind_step _ _ _ tt w1).
    2:{ apply require_step, bool_decide_eq_true_2.
        unfold size, items in *. cbn [data capacity default from_option].
        unfold id in *. rewrite sizeof_KeyValue_eq. split_and!; [lia|lia|eauto]. }
    cbn [ret capacity]. eexists _, w1. split; [done|].
    unfold roomy, size, items in *.
    cbn [data capacity default from_option]. unfold id in *.
    rewrite length_app. cbn [length].
    split_and!; try done; [lia| |right; lia].
    exists (S j). rewrite Hj, Nat2Z.inj_succ, Z.pow_succ_r by lia. lia.
  - rewrite (bind_step _ _ _ l w) by done.
    rewrite (bind_step _ _ _ tt w).
    2:{ apply require_step, bool_decide_eq_true_2.
        rewrite sizeof_KeyValue_eq. split_and!; [lia|lia|done]. }
    cbn [ret]. eexists _, w. split; [done|].
    unfold roomy, size, items in *.
    cbn [data capacity default from_option]. unfold id in *.
    rewrite length_app. cbn [length].
    split_and!; try done; try lia; eauto.
Qed.

Lemma emit_all_roomy pairs : ∀ out w,
  roomy out → size out + Z.of_nat (length pairs) ≤ list_bound →
  allocations_succeed w →
  ∃ out' w',
    emit_all out pairs w = Returned out' w'
    ∧ items out' = items out ++ stored_pairs pairs
    ∧ roomy out' ∧ allocations_succeed w'
    ∧ stderr w' = stderr w ∧ spawned w' = spawned w
    ∧ thread_oracle w' = thread_oracle w.
Proof.
  induction pairs as [|[k v] pairs IH]; intros out w Hroomy Hsize Hok;
    cbn [emit_all].
  - exists out, w. by rewrite app_nil_r.
  - cbn [length] in Hsize.
    destruct (add_kv_pair_roomy out k v w Hroomy ltac:(lia) Hok)
      as (l1 & w1 & Hadd & Hit1 & Hr1 & Hok1 & He1 & Hs1 & Ht1).
    rewrite (bind_step _ _ _ _ _ Hadd). cbn [deref bind ret].
    destruct (IH l1 w1 Hr1) as (out' & w' & Hrun & Hit & Hr & Hok' & He & Hs & Ht);
      [|done|].
    { unfold size in *. rewrite Hit1, length_app. cbn [length]. lia. }
    exists out', w'. split; [done|].
    rewrite Hit, Hit1, <- app_assoc.
    split_and!; try done; congruence.
Qed.

(** X13: a list made by [create_kv_list] and filled by any number of
    [add_kv_pair] calls (fewer than 2^50), no allocation failing, holds
    the pairs in the order of the calls, each cut to the buffers; its
    capacity is INITIAL_BUCKET_SIZE times a power of two, at least its
    size, and less than twice its size once it has grown. *)
Theorem filled_list_keeps_order pairs w :
  allocations_succeed w → Z.of_nat (length pairs) ≤ list_bound →
  ∃ l w',
    (l <- create_kv_list ;; emit_all l pairs) w = Returned l w'
    ∧ items l = stored_pairs pairs
    ∧ size l ≤ capacity l
    ∧ (∃ j : nat, capacity l = INITIAL_BUCKET_SIZE * 2 ^ Z.of_nat j)
    ∧ (capacity l = INITIAL_BUCKET_SIZE ∨ capacity l < 2 * size l)
    ∧ stderr w' = stderr w.
Proof.
  intros Hok Hn.
  destruct (create_kv_list_ok w Hok) as (w1 & Hc & Hok1 & He1 & _).
  rewrite (bind_step _ _ _ _ _ Hc).
  destruct (emit_all_roomy pairs _ w1 roomy_fresh)
    as (l & w' & Hrun & Hit & (_ & Hs & Hj & Hcap) & _ & He & _);
    [by cbn|done|].
  exists l, w'. split_and!; try done. congruence.
Qed.

Lemma filled_list_keeps_order_witness :
  ∃ l w',
    (l <- create_kv_list ;; emit_all l [("b", "1"); ("a", "2")]%string)
      quiet_world = Returned l w'
    ∧ items l = [mkKV "b" "1"; mkKV "a" "2"].
Proof.
  destruct (filled_list_keeps_order [("b", "1"); ("a", "2")]%string quiet_world)
    as (l & w' & Hrun & Hitems & _).
  - constructor.
  - unfold list_bound. cbn. lia.
  - exists l, w'. split; [exact Hrun|exact Hitems].
Defined.

(** ** A list that was freed *)

(** X14: [free_kv_list] on a live list leaves the null list of size and
    capacity 0, and a second call changes nothing (no block is freed
    twice).  [add_kv_pair] on the freed list never appends: its
    [realloc(NULL, 0)] either fails, which ends the process with
    "Failed to reallocate memory for KeyValueList", or gives a block of no
    bytes, and the write of the pair is undefined behaviour. *)
Theorem add_after_free_never_returns l k v w :
  is_Some (data l) →
  free_kv_list (Some l) = Some (mkList None 0)
  ∧ free_kv_list (free_kv_list (Some l)) = free_kv_list (Some l)
  ∧ add_kv_pair (free_kv_list (Some l)) (Some k) (Some v) w
    = if next_ok (alloc_oracle w) then Undefined
      else Exited EXIT_FAILURE
             (mkWorld (tail (alloc_oracle w)) (thread_oracle w)
                (stderr w ++ ["Failed to reallocate memory for KeyValueList"%string])
                (spawned w)).
Proof.
  intros [d Hd]. unfold free_kv_list. rewrite Hd. cbn [data].
  split; [done|]. split; [done|].
  unfold add_kv_pair, size, items. cbn [capacity data default from_option length].
  rewrite decide_True by done.
  unfold bind, allocate, eprint, exit, ret, require.
  destruct (next_ok (alloc_oracle w)); [|done].
  cbn [capacity data default from_option length].
  rewrite bool_decide_eq_false_2; [done|].
  intros [H _]. vm_compute in H. discriminate H.
Qed.

Lemma add_after_free_never_returns_witness :
  add_kv_pair (free_kv_list (Some (mkList (Some []) 64))) (Some "k")
    (Some "v") quiet_world = Undefined.
Proof.
  destruct (add_after_free_never_returns (mkList (Some []) 64) "k" "v"
              quiet_world) as (_ & _ & Hadd).
  - cbn. eauto.
  - exact Hadd.
Defined.

(** ** Allocation failures while the context is set up *)

Lemma create_kv_list_next o t e s :
  create_kv_list (mkWorld (true :: o) t e s)
  = Returned (mkList (Some []) INITIAL_BUCKET_SIZE) (mkWorld o t e s).
Proof. reflexivity. Qed.

Lemma create_kv_list_fails o t e s :
  create_kv_list (mkWorld (false :: o) t e s)
  = Exited EXIT_FAILURE
      (mkWorld o t (e ++ ["Failed to allocate memory for KeyValueList"%string]) s).
Proof. reflexivity. Qed.

(** The loop that creates the partitions, when the request number [j]
    from now is the first to fail. *)
Lemma create_partitions_fail k : ∀ j rest t e s,
  (j < k)%nat →
  (fix loop (k : nat) : M world (list Partition) :=
     match k with
     | O => ret []
     | S k => l <- create_kv_list ;; rest <- loop k ;;
              ret (mkPartition l :: rest)
     end) k (mkWorld (replicate j true ++ false :: rest) t e s)
  = Exited EXIT_FAILURE
      (mkWorld rest t
         (e ++ ["Failed to allocate memory for KeyValueList"%string]) s).
Proof.
  induction k as [|k IH]; intros j rest t e s Hj; [lia|].
  destruct j as [|j]; cbn [replicate app].
  - by rewrite (BTreeInvariants.bind_exited _ _ _ _ _ (create_kv_list_fails rest t e s)).
  - rewrite (bind_step _ _ _ _ _ (create_kv_list_next _ t e s)).
    assert (j < k)%nat as Hj' by lia.
    by rewrite (BTreeInvariants.bind_exited _ _ _ _ _ (IH j rest t e s Hj')).
Qed.

(** X15: [init_mapreduce] with valid arguments asks for 2 + PARTITIONS
    lists; when one of these requests is the first to fail, the process
    ends with EXIT_FAILURE after printing
    "Failed to allocate memory for KeyValueList" and nothing else. *)
Theorem init_mapreduce_allocation_failure c0 n f g w j rest :
  (j < 2 + Z.to_nat PARTITIONS)%nat →
  alloc_oracle w = replicate j true ++ false :: rest →
  init_mapreduce (Some c0) n (Some f) (Some g) w
  = Exited EXIT_FAILURE
      (mkWorld rest (thread_oracle w)
         (stderr w ++ ["Failed to allocate memory for KeyValueList"%string])
         (spawned w)).
Proof.
  destruct w as [o t e s]. cbn [alloc_oracle thread_oracle stderr spawned].
  intros Hj ->. unfold init_mapreduce.
  destruct j as [|j]; cbn [replicate app].
  { by rewrite (BTreeInvariants.bind_exited _ _ _ _ _ (create_kv_list_fails rest t e s)). }
  rewrite (bind_step _ _ _ _ _ (create_kv_list_next _ t e s)).
  destruct j as [|j]; cbn [replicate app].
  { by rewrite (BTreeInvariants.bind_exited _ _ _ _ _ (create_kv_list_fails rest t e s)). }
  rewrite (bind_step _ _ _ _ _ (create_kv_list_next _ t e s)).
  assert (j < Z.to_nat PARTITIONS)%nat as Hj' by lia.
  by rewrite (BTreeInvariants.bind_exited _ _ _ _ _
                (create_partitions_fail (Z.to_nat PARTITIONS) j rest t e s Hj')).
Qed.

Lemma init_mapreduce_allocation_failure_witness :
  init_mapreduce (Some some_context) 4 (Some no_map) (Some no_reduce)
    (mkWorld [true; true; true; false; true] [] [] [])
  = Exited EXIT_FAILURE
      (mkWorld [true] [] ["Failed to allocate memory for KeyValueList"%string] []).
Proof.
  apply (init_mapreduce_allocation_failure some_context 4 no_map no_reduce
           (mkWorld [true; true; true; false; true] [] [] []) 3 [true]).
  - vm_compute. lia.
  - reflexivity.
Defined.

(** ** The first worker of [run_mapreduce] *)

Section Coordinator.

Variable phases : MapReduceContext → M world MapReduceContext.

(** X16: [run_mapreduce] on a context with input and at least one thread
    to create never gets to its phases.  When the [malloc] of the first
    thread id fails, or the first [pthread_create], it prints the matching
    message and returns -1 at once, the context as it was and no worker
    created.  When the first worker is created, [worker_thread] takes the
    block of the thread id, [sizeof(int)] bytes, for the context and waits
    on a barrier outside that block: undefined behaviour. *)
Theorem run_mapreduce_first_worker c w :
  size (input c) ≠ 0 → 0 < num_threads c →
  run_mapreduce phases (Some c) w
  = if next_ok (alloc_oracle w)
    then if next_ok (thread_oracle w)
         then Undefined
         else Returned (-1, Some c)
                (mkWorld (tail (alloc_oracle w)) (tail (thread_oracle w))
                   (stderr w ++ ["Failed to create worker thread %d"%string])
                   (spawned w))
    else Returned (-1, Some c)
           (mkWorld (tail (alloc_oracle w)) (thread_oracle w)
              (stderr w ++ ["Failed to allocate thread ID"%string])
              (spawned w)).
Proof.
  intros Hsize Hthreads. unfold run_mapreduce.
  rewrite decide_False by done.
  destruct (Z.to_nat (num_threads c)) as [|todo] eqn:Htodo; [lia|].
  cbn [spawn_workers]. unfold bind at 1 2, allocate.
  cbn [alloc_oracle thread_oracle stderr spawned].
  destruct (next_ok (alloc_oracle w)); [|done].
  unfold bind at 1, pthread_create.
  cbn [alloc_oracle thread_oracle stderr spawned].
  by destruct (next_ok (thread_oracle w)).
Qed.

End Coordinator.

Lemma run_mapreduce_first_worker_witness :
  run_mapreduce (λ c, ret c)
    (Some (mkCtx (mkList (Some [mkKV "a" "b"]) 64) (mkList (Some []) 64) []
             None None 4 5))
    quiet_world
  = Undefined
  ∧ run_mapreduce (λ c, ret c)
      (Some (mkCtx (mkList (Some [mkKV "a" "b"]) 64) (mkList (Some []) 64) []
               None None 4 5))
      (mkWorld [] [false] [] [])
    = Returned (-1, Some (mkCtx (mkList (Some [mkKV "a" "b"]) 64)
                            (mkList (Some []) 64) [] None None 4 5))
        (mkWorld [] [] ["Failed to create worker thread %d"%string] []).
Proof.
  split.
  - apply (run_mapreduce_first_worker (λ c, ret c)
             (mkCtx (mkList (Some [mkKV "a" "b"]) 64) (mkList (Some []) 64) []
                None None 4 5) quiet_world).
    + vm_compute. discriminate.
    + reflexivity.
  - apply (run_mapreduce_first_worker (λ c, ret c)
             (mkCtx (mkList (Some [mkKV "a" "b"]) 64) (mkList (Some []) 64) []
                None None 4 5) (mkWorld [] [false] [] [])).
    + vm_compute. discriminate.
    + reflexivity.
Defined.

(** ** The map phase *)

Lemma map_range_app sgn f l1 : ∀ parts l2 w,
  map_range sgn f parts (l1 ++ l2) w
  = (parts' <- map_range sgn f parts l1 ;; map_range sgn f parts' l2) w.
Proof.
  induction l1 as [|kv l1 IH]; intros parts l2 w; [done|].
  cbn [app map_range]. unfold bind.
  destruct (map_one sgn f parts kv w) as [parts1 w1| | |]; [|done..].
  by rewrite IH.
Qed.

Lemma with_partitions_twice ctx parts parts' :
  with_partitions (with_partitions ctx parts) parts' = with_partitions ctx parts'.
Proof. done. Qed.

Lemma with_partitions_same ctx : with_partitions ctx (partitions ctx) = ctx.
Proof. by destruct ctx. Qed.

Lemma bind_ret_r {S A} (m : M S A) s : (x <- m ;; ret x) s = m s.
Proof. unfold bind. by destruct (m s). Qed.

Section Slices.

Variable sgn : bool.
Variable ctx : MapReduceContext.
Variable f : map_fn.
Hypothesis Hf : map_function ctx = Some f.
Hypothesis Hthreads : 0 < num_threads ctx.
Hypothesis Hsize : size (input ctx) < 2 ^ 64.

(** The items one worker handles. *)
Lemma slice_bounds i :
  0 ≤ i < num_threads ctx →
  0 ≤ size (input ctx) / num_threads ctx
  ∧ 0 ≤ i * (size (input ctx) / num_threads ctx)
  ∧ (i + 1) * (size (input ctx) / num_threads ctx) ≤ size (input ctx).
Proof.
  intros Hi.
  assert (0 ≤ size (input ctx)) as Hs by (unfold size; lia).
  pose proof (Z.mul_div_le (size (input ctx)) (num_threads ctx) Hthreads).
  pose proof (Z.div_pos (size (input ctx)) (num_threads ctx) Hs Hthreads).
  split; [done|]. split; nia.
Qed.

Lemma run_map_phase_slice parts i w :
  0 ≤ i < num_threads ctx →
  run_map_phase sgn (with_partitions ctx parts) i w
  = (parts' <- map_range sgn f parts
                 (if decide (i = num_threads ctx - 1)
                  then drop (Z.to_nat (i * (size (input ctx) / num_threads ctx)))
                         (items (input ctx))
                  else take (Z.to_nat (size (input ctx) / num_threads ctx))
                         (drop (Z.to_nat (i * (size (input ctx) / num_threads ctx)))
                            (items (input ctx)))) ;;
     ret (with_partitions ctx parts')) w.
Proof.
  intros Hi. destruct (slice_bounds i Hi) as (Hq & Hlo & Hhi).
  unfold run_map_phase.
  cbn [with_partitions input output partitions map_function reduce_function
       num_threads barrier_count].
  rewrite Hf. rewrite (bool_decide_eq_true_2 _ Hthreads).
  set (q := size (input ctx) / num_threads ctx) in *.
  assert (wrap64 (i * q) = i * q) as ->
    by (unfold wrap64; apply Z.mod_small; lia).
  assert (wrap64 ((i + 1) * q) = (i + 1) * q) as ->
    by (unfold wrap64; apply Z.mod_small; lia).
  destruct (decide (i = num_threads ctx - 1)) as [Hlast|Hmid].
  - rewrite (bool_decide_eq_true_2 _ Hlast).
    rewrite (bool_decide_eq_true_2 (size (input ctx) ≤ size (input ctx)))
      by lia.
    rewrite take_ge; [unfold with_partitions; by rewrite Hf|].
    rewrite length_drop. unfold size in *. lia.
  - rewrite (bool_decide_eq_false_2 _ Hmid).
    rewrite (bool_decide_eq_true_2 ((i + 1) * q ≤ size (input ctx))) by lia.
    replace ((i + 1) * q - i * q) with q by lia.
    unfold with_partitions. by rewrite Hf.
Qed.

Lemma run_map_phases_from m : ∀ i parts w,
  0 ≤ i → i + Z.of_nat m = num_threads ctx - 1 →
  run_map_phases sgn (with_partitions ctx parts) (seqZ i (Z.of_nat (S m))) w
  = (parts' <- map_range sgn f parts
                 (drop (Z.to_nat (i * (size (input ctx) / num_threads ctx)))
                    (items (input ctx))) ;;
     ret (with_partitions ctx parts')) w.
Proof.
  induction m as [|m IH]; intros i parts w Hi Him.
  - rewrite (seqZ_cons i) by lia. rewrite seqZ_nil by lia.
    cbn [run_map_phases]. rewrite bind_ret_r.
    rewrite run_map_phase_slice by lia.
    rewrite decide_True by lia. done.
  - rewrite (seqZ_cons i) by lia.
    replace (Z.pred (Z.of_nat (S (S m)))) with (Z.of_nat (S m)) by lia.
    cbn [run_map_phases]. unfold bind.
    rewrite run_map_phase_slice by lia.
    rewrite decide_False by lia.
    destruct (slice_bounds i ltac:(lia)) as (Hq & Hlo & Hhi).
    set (q := size (input ctx) / num_threads ctx) in *.
    rewrite <- (take_drop (Z.to_nat q) (drop (Z.to_nat (i * q)) (items (input ctx)))) at 2.
    rewrite map_range_app. rewrite drop_drop.
    replace (Z.to_nat (i * q) + Z.to_nat q)%nat
      with (Z.to_nat (Z.succ i * q)) by lia.
    unfold bind.
    destruct (map_range sgn f parts _ w) as [parts1 w1| | |]; [|done..].
    cbn [ret]. rewrite IH by lia. done.
Qed.

End Slices.

(** X17: the map phases of the workers 0 .. num_threads - 1, run one after
    the other, are one pass of the map loop over the whole input in
    order: the slices of the workers leave out no input pair and take none
    twice, whatever the remainder of the division. *)
Theorem map_phases_cover_the_input sgn ctx w :
  0 < num_threads ctx → size (input ctx) < 2 ^ 64 →
  run_map_phases sgn ctx (seqZ 0 (num_threads ctx)) w
  = (f <- deref (map_function ctx) ;;
     parts <- map_range sgn f (partitions ctx) (items (input ctx)) ;;
     ret (with_partitions ctx parts)) w.
Proof.
  intros Hthreads Hsize.
  destruct (map_function ctx) as [f|] eqn:Hf.
  - replace (num_threads ctx)
      with (Z.of_nat (S (Z.to_nat (num_threads ctx - 1)))) at 1 by lia.
    rewrite <- (with_partitions_same ctx) at 1.
    rewrite (run_map_phases_from sgn ctx f Hf Hthreads Hsize) by lia.
    done.
  - rewrite (seqZ_cons 0) by lia. cbn [run_map_phases].
    unfold bind at 1, run_map_phase. rewrite Hf.
    unfold bind, require, deref, undefined, ret.
    by repeat case_bool_decide.
Qed.

Lemma map_phases_cover_the_input_witness :
  run_map_phases false
    (mkCtx (mkList (Some [mkKV "a" "1"; mkKV "b" "2"; mkKV "c" "3"]) 64)
       (mkList (Some []) 64) (replicate 16 (mkPartition (mkList (Some []) 64)))
       (Some (λ k v, [(k, v)])) None 2 3)
    [0; 1] quiet_world
  = (parts <- map_range false (λ k v, [(k, v)])
                (replicate 16 (mkPartition (mkList (Some []) 64)))
                [mkKV "a" "1"; mkKV "b" "2"; mkKV "c" "3"] ;;
     ret (mkCtx (mkList (Some [mkKV "a" "1"; mkKV "b" "2"; mkKV "c" "3"]) 64)
            (mkList (Some []) 64) parts (Some (λ k v, [(k, v)])) None 2 3))
      quiet_world.
Proof.
  apply (map_phases_cover_the_input false
           (mkCtx (mkList (Some [mkKV "a" "1"; mkKV "b" "2"; mkKV "c" "3"]) 64)
              (mkList (Some []) 64)
              (replicate 16 (mkPartition (mkList (Some []) 64)))
              (Some (λ k v, [(k, v)])) None 2 3) quiet_world).
  - cbn. lia.
  - vm_compute. reflexivity.
Defined.

(** ** What the map phase leaves in the partitions *)

Lemma restore_stored (l : list KeyValue) :
  Forall is_stored l → (λ kv, stored (key kv) (value kv)) <$> l = l.
Proof.
  induction 1 as [|kv l Hkv _ IH]; [done|].
  cbn [fmap list_fmap]. fold (fmap (M := list) (λ kv, stored (key kv) (value kv)) l).
  by rewrite IH, Hkv.
Qed.

Lemma stored_pairs_stored pairs : Forall is_stored (stored_pairs pairs).
Proof.
  unfold stored_pairs. apply Forall_fmap, Forall_forall.
  intros p _. apply stored_is_stored.
Qed.

Lemma Forall_filter_keep {A} (P : A → Prop) (Q : A → Prop)
    `{∀ x, Decision (Q x)} (l : list A) :
  Forall P l → Forall P (filter Q l).
Proof.
  induction 1 as [|x l Hx _ IH]; [constructor|].
  rewrite filter_cons. destruct (decide (Q x)); [by constructor|done].
Qed.

Lemma emitted_cons f kv inputs :
  emitted f (kv :: inputs)
  = stored_pairs (f (key kv) (value kv)) ++ emitted f inputs.
Proof. done. Qed.

(** The routing loop returns when the partitions have room to grow. *)
Lemma route_roomy sgn out : ∀ parts w,
  length parts = Z.to_nat PARTITIONS →
  Forall (λ part, roomy (kvs part)
                  ∧ size (kvs part) + Z.of_nat (length out) ≤ list_bound)
    parts →
  allocations_succeed w →
  ∃ parts' w',
    route sgn parts out w = Returned parts' w'
    ∧ Forall (λ part, roomy (kvs part)) parts'
    ∧ allocations_succeed w' ∧ stderr w' = stderr w.
Proof.
  induction out as [|kv out IH]; intros parts w Hlen Hparts Hok;
    cbn [route].
  - exists parts, w. split_and!; [done| |done..].
    eapply Forall_impl; [exact Hparts|]. by intros ? [? _].
  - pose proof (partition_index_range sgn kv) as Hidx.
    destruct (lookup_lt_is_Some_2 parts (Z.to_nat (partition_index sgn kv)))
      as [part Hpart]; [lia|].
    rewrite Hpart. cbn [deref]. unfold bind at 1, ret at 1.
    destruct (Forall_lookup_1 _ _ _ _ Hparts Hpart) as [Hroomy Hsize].
    cbn [length] in Hsize.
    destruct (add_kv_pair_roomy (kvs part) (key kv) (value kv) w Hroomy
                ltac:(lia) Hok)
      as (l' & w1 & Hadd & Hitems & Hroomy' & Hok1 & He1 & _).
    rewrite (bind_step _ _ _ _ _ Hadd). cbn [deref].
    unfold bind at 1, ret at 1.
    destruct (IH (<[Z.to_nat (partition_index sgn kv) := mkPartition l']> parts) w1)
      as (parts' & w' & Hrun & Hroomy2 & Hok' & He');
      [by rewrite length_insert| |done|].
    + apply Forall_insert.
      * eapply Forall_impl; [exact Hparts|]. intros p [? ?].
        cbn [length] in *. split; [done|lia].
      * cbn [kvs]. split; [done|]. unfold size in *. rewrite Hitems.
        rewrite length_app. cbn [length] in *. lia.
    + exists parts', w'. split_and!; [done..|congruence].
Qed.

Lemma map_range_fills sgn f inputs : ∀ parts w,
  length parts = Z.to_nat PARTITIONS →
  Forall (λ part, roomy (kvs part)
                  ∧ size (kvs part) + Z.of_nat (length (emitted f inputs))
                    ≤ list_bound)
    parts →
  allocations_succeed w →
  ∃ parts' w',
    map_range sgn f parts inputs w = Returned parts' w'
    ∧ length parts' = length parts
    ∧ Forall (λ part, roomy (kvs part)) parts'
    ∧ allocations_succeed w' ∧ stderr w' = stderr w
    ∧ ∀ p part, parts !! p = Some part →
        ∃ part', parts' !! p = Some part'
          ∧ items (kvs part')
            = items (kvs part)
              ++ filter (λ kv, Z.to_nat (partition_index sgn kv) = p)
                   (emitted f inputs).
Proof.
  induction inputs as [|kv inputs IH]; intros parts w Hlen Hparts Hok;
    cbn [map_range].
  - exists parts, w. split_and!; [done..| |done|done|].
    + eapply Forall_impl; [exact Hparts|]. by intros ? [? _].
    + intros p part Hp. exists part. by rewrite app_nil_r.
  - rewrite emitted_cons in Hparts.
    assert (Z.of_nat (length (f (key kv) (value kv))) ≤ list_bound) as Hf.
    { destruct parts as [|part parts]; [done|].
      apply Forall_cons in Hparts as [[_ Hs] _].
      rewrite length_app in Hs. unfold stored_pairs in Hs.
      rewrite length_fmap in Hs. pose proof (size_nonneg (kvs part)). lia. }
    unfold map_one.
    destruct (create_kv_list_ok w Hok) as (w1 & Hc & Hok1 & He1 & _).
    unfold bind at 1. unfold bind at 1. rewrite Hc.
    destruct (emit_all_roomy (f (key kv) (value kv))
                (mkList (Some []) INITIAL_BUCKET_SIZE) w1 roomy_fresh
                ltac:(unfold size; cbn; lia) Hok1)
      as (out & w2 & Hemit & Hout & _ & Hok2 & He2 & _).
    cbn [items data default from_option app] in Hout. unfold id in Hout.
    cbn [app] in Hout.
    unfold bind at 1. rewrite Hemit. rewrite Hout.
    destruct (route_roomy sgn (stored_pairs (f (key kv) (value kv))) parts w2)
      as (parts1 & w3 & Hroute & Hroomy1 & Hok3 & He3); [done| |done|].
    { eapply Forall_impl; [exact Hparts|]. intros p [? Hs].
      rewrite length_app in Hs. split; [done|lia]. }
    rewrite Hroute.
    destruct (route_returned _ _ _ _ _ _ Hroute) as [Hlen1 Hitems1].
    destruct (IH parts1 w3) as (parts' & w' & Hrun & Hlen' & Hroomy' & Hok' & He' & Hitems');
      [congruence| |done|].
    { apply Forall_lookup_2. intros p part1 Hp1.
      destruct (lookup_lt_is_Some_2 parts p) as [part Hp].
      { rewrite <- Hlen1. by eapply lookup_lt_Some. }
      destruct (Hitems1 p part Hp) as (part1' & Hp1' & Hit).
      assert (part1' = part1) as -> by congruence.
      split; [by eapply Forall_lookup_1 in Hroomy1|].
      destruct (Forall_lookup_1 _ _ _ _ Hparts Hp) as [_ Hs].
      unfold size in *. rewrite Hit. rewrite !length_app in *.
      rewrite length_fmap.
      pose proof (length_filter
                    (λ kv0, Z.to_nat (partition_index sgn kv0) = p)
                    (stored_pairs (f (key kv) (value kv)))).
      lia. }
    exists parts', w'. split_and!; [done|congruence|done|done|congruence|].
    intros p part Hp.
    destruct (Hitems1 p part Hp) as (part1 & Hp1 & Hit1).
    destruct (Hitems' p part1 Hp1) as (part' & Hp' & Hit').
    exists part'. split; [done|].
    rewrite Hit', Hit1, emitted_cons, filter_app, <- app_assoc.
    rewrite restore_stored; [done|].
    apply Forall_filter_keep, stored_pairs_stored.
Qed.

(** X18: the map loop over input pairs, started on 16 partitions that grew
    by doubling, with no allocation failure and sizes far below the
    overflow of the byte count: it returns, prints nothing, and partition
    [p] has gained exactly the emitted pairs (as stored) whose key hashes
    to [p], in input and emission order. *)
Theorem map_loop_fills_the_partitions sgn f inputs parts w :
  length parts = Z.to_nat PARTITIONS →
  Forall (λ part, roomy (kvs part)
                  ∧ size (kvs part) + Z.of_nat (length (emitted f inputs))
                    ≤ list_bound)
    parts →
  allocations_succeed w →
  ∃ parts' w',
    map_range sgn f parts inputs w = Returned parts' w'
    ∧ length parts' = length parts
    ∧ stderr w' = stderr w
    ∧ ∀ p part, parts !! p = Some part →
        ∃ part', parts' !! p = Some part'
          ∧ items (kvs part')
            = items (kvs part)
              ++ filter (λ kv, Z.to_nat (hash_string sgn (key kv) mod PARTITIONS) = p)
                   (emitted f inputs).
Proof.
  intros Hlen Hparts Hok.
  destruct (map_range_fills sgn f inputs parts w Hlen Hparts Hok)
    as (parts' & w' & Hrun & Hlen' & _ & _ & He & Hitems).
  exists parts', w'. split_and!; done.
Qed.

Lemma map_loop_fills_the_partitions_witness :
  ∃ parts' w' part',
    map_range false (λ k v, [(v, k); (k, v)])
      (replicate 16 (mkPartition (mkList (Some []) 64)))
      [mkKV "ab" "b"; mkKV "b" "c"] quiet_world = Returned parts' w'
    ∧ parts' !! 8%nat = Some part'
    ∧ items (kvs part') = [mkKV "ab" "b"; mkKV "c" "b"].
Proof.
  destruct (map_loop_fills_the_partitions false (λ k v, [(v, k); (k, v)])
              [mkKV "ab" "b"; mkKV "b" "c"]
              (replicate 16 (mkPartition (mkList (Some []) 64))) quiet_world)
    as (parts' & w' & Hrun & _ & _ & Hitems).
  - reflexivity.
  - repeat constructor; try (cbn; eauto); try (vm_compute; discriminate).
    all: try (exists O; reflexivity).
  - constructor.
  - destruct (Hitems 8%nat (mkPartition (mkList (Some []) 64)) eq_refl)
      as (part' & Hp & Hit).
    exists parts', w', part'. split; [exact Hrun|]. split; [exact Hp|].
    rewrite Hit. vm_compute. reflexivity.
Defined.

(** ** The hash and the routing of emitted pairs *)

Lemma char_to_int_unsigned c : char_to_int false c = byte_value c.
Proof. done. Qed.

Lemma char_to_int_signed c : char_to_int true c = signed_char_value c.
Proof. done. Qed.

Lemma char_to_int_seven_bit sgn c :
  byte_value c < 128 → char_to_int sgn c = byte_value c.
Proof.
  unfold char_to_int, byte_value. intros H.
  rewrite (proj2 (Z.leb_gt _ _)) by lia. by rewrite andb_false_r.
Qed.

(** C8 (amended): [hash_string] is the djb2 recurrence [h ← 5381;
    h ← h·33 + c] modulo [2^32] over the characters of the key before its
    terminator, where [c] is the value of the plain [char]: the byte where
    [char] is unsigned, the byte minus 256 for a byte of 128 or more where
    [char] is signed; for keys of 7-bit characters it is the recurrence
    on the bytes on every platform.  The routing loop, on 16 partitions
    with room and with no allocation failing, returns, and partition [p]
    gains exactly the pairs of the map output whose key has
    [hash_string(key) mod PARTITIONS = p], in their order. *)
Theorem c8_hash_and_partition :
  (∀ s, hash_string false s
        = djb2 (byte_value <$> list_ascii_of_string (c_str s)))
  ∧ (∀ s, hash_string true s
          = djb2 (signed_char_value <$> list_ascii_of_string (c_str s)))
  ∧ (∀ sgn s,
       Forall (λ c, byte_value c < 128) (list_ascii_of_string (c_str s)) →
       hash_string sgn s
       = djb2 (byte_value <$> list_ascii_of_string (c_str s)))
  ∧ (∀ sgn map_output parts w,
       length parts = Z.to_nat PARTITIONS →
       Forall (λ part, roomy (kvs part)
                       ∧ size (kvs part) + Z.of_nat (length map_output)
                         ≤ list_bound) parts →
       allocations_succeed w →
       ∃ parts' w',
         route sgn parts map_output w = Returned parts' w'
         ∧ length parts' = length parts
         ∧ ∀ p part, parts !! p = Some part →
             ∃ part', parts' !! p = Some part'
               ∧ items (kvs part')
                 = items (kvs part)
                   ++ ((λ kv, stored (key kv) (value kv))
                         <$> filter (λ kv, Z.to_nat (hash_string sgn (key kv)
                                                     mod PARTITIONS) = p)
                               map_output)).
Proof.
  split_and!.
  - intros s. unfold hash_string, djb2. by rewrite hash_loop_fold.
  - intros s. unfold hash_string, djb2. by rewrite hash_loop_fold.
  - intros sgn s Hs. unfold hash_string, djb2. rewrite hash_loop_fold. f_equal.
    apply Forall_fmap_ext_1. eapply Forall_impl; [exact Hs|].
    intros c Hc. by apply char_to_int_seven_bit.
  - intros sgn map_output parts w Hlen Hparts Hok.
    destruct (route_roomy sgn map_output parts w Hlen Hparts Hok)
      as (parts' & w' & Hrun & _).
    exists parts', w'. split; [done|].
    by apply route_returned in Hrun.
Qed.

Lemma c8_hash_and_partition_witness :
  hash_string false "ab" = 5863208
  ∧ ∃ parts' w' part',
      route false (replicate 16 (mkPartition (mkList (Some []) 64)))
        [mkKV "ab" "1"; mkKV "b" "1"; mkKV "ab" "2"] quiet_world
      = Returned parts' w'
      ∧ parts' !! 8%nat = Some part'
      ∧ items (kvs part') = [mkKV "ab" "1"; mkKV "ab" "2"].
Proof.
  destruct c8_hash_and_partition as (Hhash & _ & _ & Hroute). split.
  - rewrite Hhash. reflexivity.
  - destruct (Hroute false [mkKV "ab" "1"; mkKV "b" "1"; mkKV "ab" "2"]
                (replicate 16 (mkPartition (mkList (Some []) 64))) quiet_world)
      as (parts' & w' & Hrun & _ & Hitems).
    + reflexivity.
    + repeat (apply Forall_cons_2; [split; [apply roomy_fresh|vm_compute; discriminate]|]).
      apply Forall_nil_2.
    + constructor.
    + destruct (Hitems 8%nat (mkPartition (mkList (Some []) 64)) eq_refl)
        as (part' & Hp & Hit).
      exists parts', w', part'. split; [exact Hrun|]. split; [exact Hp|].
      rewrite Hit. vm_compute. reflexivity.
Defined.

(** C8, as the claim words it (each byte [c] of the key), fails where
    plain [char] is signed: for the one-byte key 233 the code adds
    233 - 256 and gets 177550, the recurrence on the byte gives 177806. *)
Lemma c8_counterexample :
  hash_string true (String "233"%char EmptyString) = 177550
  ∧ djb2 [233] = 177806
  ∧ hash_string true (String "233"%char EmptyString)
    ≠ djb2 (byte_value
              <$> list_ascii_of_string (c_str (String "233"%char EmptyString))).
Proof.
  split; [vm_compute; reflexivity|]. split; [vm_compute; reflexivity|].
  vm_compute. discriminate.
Qed.

(** ** The order [strcmp] gives *)

Lemma string_compare_refl s : String.compare s s = Eq.
Proof.
  pose proof (String.compare_antisym s s) as H.
  by destruct (String.compare s s).
Qed.

Lemma ascii_compare_lt_trans a b c :
  Ascii.compare a b = Lt → Ascii.compare b c = Lt → Ascii.compare a c = Lt.
Proof.
  unfold Ascii.compare. rewrite !N.compare_lt_iff. apply N.lt_trans.
Qed.

Lemma string_compare_lt_trans s1 : ∀ s2 s3,
  String.compare s1 s2 = Lt → String.compare s2 s3 = Lt →
  String.compare s1 s3 = Lt.
Proof.
  induction s1 as [|a s1 IH]; intros [|b s2] [|c s3]; cbn [String.compare];
    try done.
  destruct (Ascii.compare a b) eqn:Hab; [|clear IH|done].
  - apply Ascii.compare_eq_iff in Hab as ->.
    destruct (Ascii.compare b c); [apply IH|done|done].
  - intros _. destruct (Ascii.compare b c) eqn:Hbc; [| |done].
    + apply Ascii.compare_eq_iff in Hbc as <-. by rewrite Hab.
    + by rewrite (ascii_compare_lt_trans a b c Hab Hbc).
Qed.

Lemma strcmp_refl a : strcmp a a = Eq.
Proof. apply string_compare_refl. Qed.

Lemma strcmp_eq a b : strcmp a b = Eq ↔ c_str a = c_str b.
Proof.
  unfold strcmp. split; [apply String.compare_eq_iff|].
  intros ->. apply string_compare_refl.
Qed.

Lemma strcmp_flip a b : strcmp a b = CompOpp (strcmp b a).
Proof. apply String.compare_antisym. Qed.

Lemma strcmp_lt_trans a b c :
  strcmp a b = Lt → strcmp b c = Lt → strcmp a c = Lt.
Proof. apply string_compare_lt_trans. Qed.

Lemma strcmp_lt_le a b c :
  strcmp a b = Lt → strcmp b c ≠ Gt → strcmp a c = Lt.
Proof.
  intros Hab Hbc. destruct (strcmp b c) eqn:E; [|by eapply strcmp_lt_trans|done].
  apply strcmp_eq in E. unfold strcmp in *. by rewrite <- E.
Qed.

Lemma strcmp_eq_lt a b c :
  strcmp a b = Eq → strcmp b c = Lt → strcmp a c = Lt.
Proof. intros E%strcmp_eq. unfold strcmp. by rewrite E. Qed.

(** ** Runs of equal keys *)

Lemma runs_from_values l : ∀ cur vals,
  concat (snd <$> runs_from cur vals l) = vals ++ (value <$> l).
Proof.
  induction l as [|kv l IH]; intros cur vals; cbn [runs_from].
  - cbn. by rewrite !app_nil_r.
  - destruct (strcmp (key kv) cur).
    + rewrite IH. by rewrite <- app_assoc.
    + cbn [fmap list_fmap concat snd]. rewrite (IH (key kv) [value kv]). done.
    + cbn [fmap list_fmap concat snd]. rewrite (IH (key kv) [value kv]). done.
Qed.

Lemma key_runs_values l : concat (snd <$> key_runs l) = value <$> l.
Proof. destruct l as [|kv l]; [done|]. apply runs_from_values. Qed.

Lemma no_value_of_smaller_key cur l :
  Forall (λ kv, strcmp cur (key kv) = Lt) l →
  filter (λ kv, strcmp (key kv) cur = Eq) l = [].
Proof.
  induction 1 as [|kv l Hkv _ IH]; [done|].
  rewrite filter_cons_False; [done|].
  rewrite strcmp_flip, Hkv. done.
Qed.

Lemma runs_from_sorted l : ∀ cur vals,
  Forall (λ kv, strcmp cur (key kv) ≠ Gt) l → sorted_by_key l →
  ∃ runs,
    runs_from cur vals l
    = (cur, vals ++ (value <$> filter (λ kv, strcmp (key kv) cur = Eq) l))
      :: runs
    ∧ Forall (λ r, strcmp cur r.1 = Lt
                   ∧ r.2 = value <$> filter (λ kv, strcmp (key kv) r.1 = Eq) l
                   ∧ r.2 ≠ [])
        runs
    ∧ StronglySorted (λ r1 r2, strcmp r1.1 r2.1 = Lt) runs.
Proof.
  induction l as [|kv l IH]; intros cur vals Hge Hsorted; cbn [runs_from].
  - exists []. rewrite filter_nil. cbn. rewrite app_nil_r.
    split_and!; [done|constructor|constructor].
  - apply Forall_cons in Hge as [Hkv Hge].
    apply StronglySorted_inv in Hsorted as [Hsorted Hle].
    unfold compare_keys in Hle.
    destruct (strcmp (key kv) cur) eqn:E.
    + destruct (IH cur (vals ++ [value kv]) Hge Hsorted)
        as (runs & -> & Hruns & Hinc).
      exists runs. rewrite filter_cons_True by done.
      split_and!; [by rewrite <- app_assoc| |done].
      eapply Forall_impl; [exact Hruns|]. intros r (Hlt & Hv & Hne).
      split_and!; [done| |done].
      rewrite filter_cons_False; [done|].
      by rewrite (strcmp_eq_lt _ _ _ E Hlt).
    + rewrite strcmp_flip, E in Hkv. done.
    + assert (strcmp cur (key kv) = Lt) as Hlt by (by rewrite strcmp_flip, E).
      destruct (IH (key kv) [value kv] Hle Hsorted)
        as (runs & -> & Hruns & Hinc).
      exists ((key kv, [value kv] ++ (value <$> filter (λ kv0, strcmp (key kv0) (key kv) = Eq) l)) :: runs).
      rewrite filter_cons_False by (by rewrite E).
      rewrite (no_value_of_smaller_key cur l); [|].
      2:{ eapply Forall_impl; [exact Hle|]. intros kv' Hkv'.
          by eapply strcmp_lt_le. }
      split_and!; [by rewrite app_nil_r| |].
      * constructor.
        -- cbn [fst snd]. split_and!; [done| |done].
           rewrite filter_cons_True by apply strcmp_refl. done.
        -- eapply Forall_impl; [exact Hruns|]. intros r (Hr & Hv & Hne).
           split_and!; [by eapply strcmp_lt_trans| |done].
           rewrite filter_cons_False; [done|]. by rewrite Hr.
      * constructor; [done|].
        eapply Forall_impl; [exact Hruns|]. by intros r (Hr & _).
Qed.

Lemma key_runs_sorted l :
  sorted_by_key l →
  Forall (λ r, r.2 = value <$> filter (λ kv, strcmp (key kv) r.1 = Eq) l
               ∧ r.2 ≠ [])
    (key_runs l)
  ∧ StronglySorted (λ r1 r2, strcmp r1.1 r2.1 = Lt) (key_runs l).
Proof.
  destruct l as [|kv l]; [by split; constructor|].
  intros Hsorted. pose proof Hsorted as Hs.
  apply StronglySorted_inv in Hs as [Hs Hle].
  destruct (runs_from_sorted l (key kv) [value kv] Hle Hs)
    as (runs & Hruns & Hall & Hinc).
  cbn [key_runs]. rewrite Hruns. split.
  - constructor.
    + cbn [fst snd]. rewrite filter_cons_True by apply strcmp_refl.
      split; done.
    + eapply Forall_impl; [exact Hall|]. intros r (Hr & Hv & Hne).
      split; [|done]. rewrite filter_cons_False; [done|]. by rewrite Hr.
  - constructor; [done|].
    eapply Forall_impl; [exact Hall|]. by intros r (Hr & _).
Qed.

Lemma runs_from_head cur vals l :
  ∃ vals' runs, runs_from cur vals l = (cur, vals') :: runs.
Proof.
  revert cur vals. induction l as [|kv l IH]; intros cur vals; cbn [runs_from].
  - eauto.
  - destruct (strcmp (key kv) cur); eauto.
Qed.

Lemma runs_from_covers l : ∀ cur vals,
  Forall (λ kv, ∃ r, r ∈ runs_from cur vals l ∧ strcmp (key kv) r.1 = Eq) l.
Proof.
  induction l as [|kv l IH]; intros cur vals; [constructor|].
  cbn [runs_from]. destruct (strcmp (key kv) cur) eqn:E.
  - constructor; [|apply IH].
    destruct (runs_from_head cur (vals ++ [value kv]) l) as (vs & runs & ->).
    exists (cur, vs). split; [left|done].
  - constructor.
    + destruct (runs_from_head (key kv) [value kv] l) as (vs & runs & ->).
      exists (key kv, vs). split; [right; left|apply strcmp_refl].
    + eapply Forall_impl; [apply (IH (key kv) [value kv])|].
      intros kv' (r & Hr & Hk). exists r. split; [by right|done].
  - constructor.
    + destruct (runs_from_head (key kv) [value kv] l) as (vs & runs & ->).
      exists (key kv, vs). split; [right; left|apply strcmp_refl].
    + eapply Forall_impl; [apply (IH (key kv) [value kv])|].
      intros kv' (r & Hr & Hk). exists r. split; [by right|done].
Qed.

Lemma key_runs_covers l :
  Forall (λ kv, ∃ r, r ∈ key_runs l ∧ strcmp (key kv) r.1 = Eq) l.
Proof.
  destruct l as [|kv l]; [constructor|]. cbn [key_runs]. constructor.
  - destruct (runs_from_head (key kv) [value kv] l) as (vs & runs & ->).
    exists (key kv, vs). split; [left|apply strcmp_refl].
  - apply runs_from_covers.
Qed.

(** ** The reduce loop over one partition *)

Lemma stored_pairs_again (l : list KeyValue) :
  Forall is_stored l →
  stored_pairs ((λ kv, (key kv, value kv)) <$> l) = l.
Proof.
  intros Hl. unfold stored_pairs. rewrite <- list_fmap_compose.
  by apply restore_stored.
Qed.

Lemma reduced_cons g r runs :
  reduced g (r :: runs)
  = stored_pairs (g r.1 (bounded_copy MAX_VALUE_LENGTH <$> r.2))
    ++ reduced g runs.
Proof. done. Qed.

(** The grouping loop takes the pairs up to the first whose key differs
    from [current_key]; [vals] are the values collected before. *)
Lemma collect_values_spec cur rest : ∀ values vals w,
  roomy values →
  size values + Z.of_nat (length rest) ≤ list_bound →
  allocations_succeed w →
  value <$> items values = bounded_copy MAX_VALUE_LENGTH <$> vals →
  ∃ values' rest' vals' w',
    collect_values cur values rest w = Returned (values', rest') w'
    ∧ allocations_succeed w' ∧ stderr w' = stderr w
    ∧ (length rest' ≤ length rest)%nat
    ∧ value <$> items values' = bounded_copy MAX_VALUE_LENGTH <$> vals'
    ∧ runs_from cur vals rest = (cur, vals') :: key_runs rest'.
Proof.
  induction rest as [|kv rest IH]; intros values vals w Hroomy Hsize Hok Hvals;
    cbn [collect_values runs_from].
  - exists values, [], vals, w. done.
  - destruct (strcmp (key kv) cur) eqn:E.
    + cbn [length] in Hsize.
      destruct (add_kv_pair_roomy values EmptyString (value kv) w Hroomy
                  ltac:(lia) Hok)
        as (l' & w1 & Hadd & Hitems & Hroomy' & Hok1 & He1 & _).
      rewrite (bind_step _ _ _ _ _ Hadd). cbn [deref].
      unfold bind at 1, ret at 1.
      destruct (IH l' (vals ++ [value kv]) w1)
        as (values' & rest' & vals' & w' & Hrun & Hok' & He' & Hlen & Hv & Hruns);
        [done| |done| |].
      * unfold size in *. rewrite Hitems, length_app. cbn [length]. lia.
      * rewrite Hitems, !fmap_app, Hvals. done.
      * exists values', rest', vals', w'.
        split_and!; [done|done|congruence|cbn [length]; lia|done|done].
    + exists values, (kv :: rest), vals, w. cbn [key_runs].
      split_and!; done.
    + exists values, (kv :: rest), vals, w. cbn [key_runs].
      split_and!; done.
Qed.

Lemma reduce_keys_spec g fuel : ∀ l out w,
  (length l ≤ fuel)%nat →
  roomy out → allocations_succeed w →
  Z.of_nat (length l) ≤ list_bound →
  size out + Z.of_nat (length (reduced g (key_runs l))) ≤ list_bound →
  ∃ out' w',
    reduce_keys fuel (Some g) out l w = Returned out' w'
    ∧ items out' = items out ++ reduced g (key_runs l)
    ∧ roomy out' ∧ allocations_succeed w' ∧ stderr w' = stderr w.
Proof.
  induction fuel as [|fuel IH]; intros [|kv l] out w Hfuel Hroomy Hok Hlen Hsize.
  - exists out, w. cbn. by rewrite app_nil_r.
  - cbn [length] in Hfuel. lia.
  - exists out, w. cbn. by rewrite app_nil_r.
  - cbn [reduce_keys length] in *.
    destruct (create_kv_list_ok w Hok) as (w1 & Hc & Hok1 & He1 & _).
    rewrite (bind_step _ _ _ _ _ Hc).
    (* the first pair belongs to its own run *)
    cbn [collect_values]. rewrite strcmp_refl.
    destruct (add_kv_pair_roomy (mkList (Some []) INITIAL_BUCKET_SIZE)
                EmptyString (value kv) w1 roomy_fresh
                ltac:(unfold size, list_bound; cbn; lia) Hok1)
      as (values1 & w2 & Hadd & Hitems1 & Hroomy1 & Hok2 & He2 & _).
    destruct (collect_values_spec (key kv) l values1 [value kv] w2)
      as (values & rest & vals & w3 & Hcollect & Hok3 & He3 & Hrest & Hvals & Hruns);
      [done| |done| |].
    { unfold size. rewrite Hitems1. cbn. lia. }
    { by rewrite Hitems1. }
    assert ((r <- (l0 <- add_kv_pair (Some (mkList (Some []) INITIAL_BUCKET_SIZE))
                          (Some EmptyString) (Some (value kv)) ;;
                   values0 <- deref l0 ;;
                   collect_values (key kv) values0 l) ;;
             reduce_output <- create_kv_list ;;
             g0 <- deref (Some g) ;;
             reduce_output0 <-
               emit_all reduce_output (g0 (key kv) (value <$> items r.1)) ;;
             out0 <- emit_all out ((λ kv0, (key kv0, value kv0))
                                     <$> items reduce_output0) ;;
             reduce_keys fuel (Some g) out0 r.2) w1
            = (reduce_output <- create_kv_list ;;
               reduce_output0 <-
                 emit_all reduce_output
                   (g (key kv) (bounded_copy MAX_VALUE_LENGTH <$> vals)) ;;
               out0 <- emit_all out ((λ kv0, (key kv0, value kv0))
                                       <$> items reduce_output0) ;;
               reduce_keys fuel (Some g) out0 rest) w3) as ->.
    { unfold bind at 1. unfold bind at 1. rewrite Hadd. cbn [deref].
      unfold bind at 1, ret at 1. rewrite Hcollect. cbn [fst snd].
      rewrite Hvals. done. }
    cbn [key_runs] in Hsize |- *. rewrite Hruns in Hsize |- *.
    rewrite reduced_cons in Hsize |- *. cbn [fst snd] in Hsize |- *.
    rewrite length_app in Hsize.
    pose proof (size_nonneg out) as Hout.
    destruct (create_kv_list_ok w3 Hok3) as (w4 & Hc4 & Hok4 & He4 & _).
    rewrite (bind_step _ _ _ _ _ Hc4).
    destruct (emit_all_roomy
                (g (key kv) (bounded_copy MAX_VALUE_LENGTH <$> vals))
                (mkList (Some []) INITIAL_BUCKET_SIZE) w4 roomy_fresh)
      as (ro & w5 & Hemit & Hro & _ & Hok5 & He5 & _); [|done|].
    { unfold size, stored_pairs in *. rewrite length_fmap in Hsize. cbn. lia. }
    rewrite (bind_step _ _ _ _ _ Hemit).
    cbn [items data default from_option] in Hro. unfold id in Hro.
    cbn [app] in Hro.
    destruct (emit_all_roomy ((λ kv0, (key kv0, value kv0)) <$> items ro)
                out w5 Hroomy)
      as (out1 & w6 & Hemit1 & Hout1 & Hroomy1' & Hok6 & He6 & _); [|done|].
    { rewrite length_fmap, Hro. lia. }
    rewrite (bind_step _ _ _ _ _ Hemit1).
    rewrite Hro, stored_pairs_again in Hout1 by apply stored_pairs_stored.
    destruct (IH rest out1 w6) as (out' & w' & Hrun & Hitems & Hroomy' & Hok' & He');
      [lia|done|done|lia| |].
    { unfold size in *. rewrite Hout1, length_app. lia. }
    exists out', w'. split_and!; [done| |done|done|congruence].
    rewrite Hitems, Hout1. by rewrite <- app_assoc.
Qed.

(** X19: the reduce loop over one partition, with room in the output and
    no allocation failure: it returns and prints nothing; the callback is
    called once for every run of neighbouring pairs with the same key,
    with the key of the run's first pair and the values of the run in
    order (each cut to the value buffer), and what it emits is appended to
    the output in that order.  The runs together hold every value of the
    partition once.  A key that comes back after another key starts a new
    run. *)
Theorem reduce_loop_reduces_each_run g l out w :
  roomy out → allocations_succeed w →
  Z.of_nat (length l) ≤ list_bound →
  size out + Z.of_nat (length (reduced g (key_runs l))) ≤ list_bound →
  ∃ out' w',
    reduce_keys (length l) (Some g) out l w = Returned out' w'
    ∧ items out' = items out ++ reduced g (key_runs l)
    ∧ stderr w' = stderr w
    ∧ concat (snd <$> key_runs l) = value <$> l
    ∧ Forall (λ kv, ∃ r, r ∈ key_runs l ∧ strcmp (key kv) r.1 = Eq) l.
Proof.
  intros Hroomy Hok Hlen Hsize.
  destruct (reduce_keys_spec g (length l) l out w) as (out' & w' & H);
    [done..|].
  exists out', w'. destruct H as (Hrun & Hitems & _ & _ & He).
  split_and!; [done..|apply key_runs_values|apply key_runs_covers].
Qed.

Lemma reduce_loop_reduces_each_run_witness :
  ∃ out' w',
    reduce_keys 3 (Some (λ k vs, [(k, String.concat "+" vs)]))
      (mkList (Some []) 64) [mkKV "a" "1"; mkKV "b" "2"; mkKV "a" "3"]
      quiet_world = Returned out' w'
    ∧ items out' = [mkKV "a" "1"; mkKV "b" "2"; mkKV "a" "3"].
Proof.
  destruct (reduce_loop_reduces_each_run
              (λ k vs, [(k, String.concat "+" vs)])
              [mkKV "a" "1"; mkKV "b" "2"; mkKV "a" "3"]
              (mkList (Some []) 64) quiet_world)
    as (out' & w' & Hrun & Hitems & _).
  - apply roomy_fresh.
  - constructor.
  - vm_compute. discriminate.
  - vm_compute. discriminate.
  - exists out', w'. split; [exact Hrun|]. rewrite Hitems. reflexivity.
Defined.

(** X20: on a partition sorted by [compare_keys] (what [sort_kv_list]
    leaves) the reduce loop calls the callback exactly once per distinct
    key, in increasing key order, and hands it all the values the
    partition holds for that key, in partition order. *)
Theorem reduce_on_sorted_partition g l out w :
  sorted_by_key l →
  roomy out → allocations_succeed w →
  Z.of_nat (length l) ≤ list_bound →
  size out + Z.of_nat (length (reduced g (key_runs l))) ≤ list_bound →
  ∃ runs out' w',
    reduce_keys (length l) (Some g) out l w = Returned out' w'
    ∧ items out' = items out ++ reduced g runs
    ∧ StronglySorted (λ r1 r2, strcmp r1.1 r2.1 = Lt) runs
    ∧ Forall (λ r, r.2 = value <$> filter (λ kv, strcmp (key kv) r.1 = Eq) l
                   ∧ r.2 ≠ [])
        runs
    ∧ Forall (λ kv, ∃ r, r ∈ runs ∧ strcmp (key kv) r.1 = Eq) l.
Proof.
  intros Hsorted Hroomy Hok Hlen Hsize.
  destruct (reduce_keys_spec g (length l) l out w) as (out' & w' & H);
    [done..|].
  destruct H as (Hrun & Hitems & _).
  destruct (key_runs_sorted l Hsorted) as [Hall Hinc].
  exists (key_runs l), out', w'.
  split_and!; [done..|apply key_runs_covers].
Qed.

Lemma reduce_on_sorted_partition_witness :
  ∃ out' w',
    reduce_keys 3 (Some (λ k vs, [(k, String.concat "+" vs)]))
      (mkList (Some []) 64) [mkKV "a" "1"; mkKV "a" "3"; mkKV "b" "2"]
      quiet_world = Returned out' w'.
Proof.
  destruct (reduce_on_sorted_partition
              (λ k vs, [(k, String.concat "+" vs)])
              [mkKV "a" "1"; mkKV "a" "3"; mkKV "b" "2"]
              (mkList (Some []) 64) quiet_world)
    as (runs & out' & w' & Hrun & _).
  - repeat constructor; vm_compute; discriminate.
  - apply roomy_fresh.
  - constructor.
  - vm_compute. discriminate.
  - vm_compute. discriminate.
  - exists out', w'. exact Hrun.
Defined.

(** ** The reduce phases of all workers *)

Lemma reduce_partitions_app reduce parts ps1 : ∀ out ps2 w,
  reduce_partitions reduce parts out (ps1 ++ ps2) w
  = (out' <- reduce_partitions reduce parts out ps1 ;;
     reduce_partitions reduce parts out' ps2) w.
Proof.
  induction ps1 as [|p ps1 IH]; intros out ps2 w; [done|].
  cbn [app reduce_partitions]. unfold bind.
  destruct (deref (parts !! Z.to_nat p) w) as [part w1| | |]; [|done..].
  destruct (reduce_keys _ reduce out _ w1) as [out1 w2| | |]; [|done..].
  by rewrite IH.
Qed.

Lemma with_output_same ctx : with_output ctx (output ctx) = ctx.
Proof. by destruct ctx. Qed.

Section PartitionSlices.

Variable ctx : MapReduceContext.
Hypothesis Hthreads : 0 < num_threads ctx < 2 ^ 31.

Lemma partition_slice_bounds i :
  0 ≤ i < num_threads ctx →
  wrap64 (PARTITIONS ÷ num_threads ctx) = PARTITIONS / num_threads ctx
  ∧ 0 ≤ PARTITIONS / num_threads ctx
  ∧ 0 ≤ i * (PARTITIONS / num_threads ctx)
  ∧ (i + 1) * (PARTITIONS / num_threads ctx) ≤ PARTITIONS.
Proof.
  intros Hi. unfold PARTITIONS.
  pose proof (Z.mul_div_le 16 (num_threads ctx) ltac:(lia)).
  pose proof (Z.div_pos 16 (num_threads ctx) ltac:(lia) ltac:(lia)).
  rewrite Z.quot_div_nonneg by lia.
  split; [|split; [done|split; nia]].
  unfold wrap64. apply Z.mod_small. split; [done|].
  assert (16 / num_threads ctx ≤ 16); [|lia].
  apply Z.div_le_upper_bound; lia.
Qed.

Lemma run_reduce_phase_slice out i w :
  0 ≤ i < num_threads ctx →
  run_reduce_phase (with_output ctx out) i w
  = (out' <- reduce_partitions (reduce_function ctx) (partitions ctx) out
               (if decide (i = num_threads ctx - 1)
                then seqZ (i * (PARTITIONS / num_threads ctx))
                       (PARTITIONS - i * (PARTITIONS / num_threads ctx))
                else seqZ (i * (PARTITIONS / num_threads ctx))
                       (PARTITIONS / num_threads ctx)) ;;
     ret (with_output ctx out')) w.
Proof.
  intros Hi. destruct (partition_slice_bounds i Hi) as (Hw & Hq & Hlo & Hhi).
  unfold run_reduce_phase.
  cbn [with_output input output partitions map_function reduce_function
       num_threads barrier_count].
  rewrite !Hw.
  rewrite (bool_decide_eq_true_2 (num_threads ctx ≠ 0)) by lia.
  rewrite (bool_decide_eq_true_2 (- 2 ^ 31 < num_threads ctx)) by lia.
  rewrite (bool_decide_eq_true_2 (_ ∨ _)) by lia.
  set (q := PARTITIONS / num_threads ctx) in *.
  assert (q ≤ PARTITIONS) by nia.
  assert (wrap64 (i * q) = i * q) as ->
    by (unfold wrap64, PARTITIONS in *; apply Z.mod_small; lia).
  assert (wrap64 ((i + 1) * q) = (i + 1) * q) as ->
    by (unfold wrap64, PARTITIONS in *; apply Z.mod_small; lia).
  destruct (decide (i = num_threads ctx - 1)) as [Hlast|Hmid].
  - by rewrite (bool_decide_eq_true_2 _ Hlast).
  - rewrite (bool_decide_eq_false_2 _ Hmid).
    replace ((i + 1) * q - i * q) with q by lia. done.
Qed.

Lemma run_reduce_phases_from m : ∀ i out w,
  0 ≤ i → i + Z.of_nat m = num_threads ctx - 1 →
  run_reduce_phases (with_output ctx out) (seqZ i (Z.of_nat (S m))) w
  = (out' <- reduce_partitions (reduce_function ctx) (partitions ctx) out
               (seqZ (i * (PARTITIONS / num_threads ctx))
                  (PARTITIONS - i * (PARTITIONS / num_threads ctx))) ;;
     ret (with_output ctx out')) w.
Proof.
  induction m as [|m IH]; intros i out w Hi Him.
  - rewrite (seqZ_cons i) by lia. rewrite seqZ_nil by lia.
    cbn [run_reduce_phases]. rewrite bind_ret_r.
    rewrite run_reduce_phase_slice by lia.
    rewrite decide_True by lia. done.
  - rewrite (seqZ_cons i) by lia.
    replace (Z.pred (Z.of_nat (S (S m)))) with (Z.of_nat (S m)) by lia.
    cbn [run_reduce_phases]. unfold bind.
    rewrite run_reduce_phase_slice by lia.
    rewrite decide_False by lia.
    destruct (partition_slice_bounds i ltac:(lia)) as (_ & Hq & Hlo & Hhi).
    set (q := PARTITIONS / num_threads ctx) in *.
    replace (PARTITIONS - i * q) with (q + (PARTITIONS - Z.succ i * q)) by lia.
    rewrite seqZ_app by lia. rewrite reduce_partitions_app.
    replace (i * q + q) with (Z.succ i * q) by lia.
    unfold bind.
    destruct (reduce_partitions _ _ out _ w) as [out1 w1| | |]; [|done..].
    cbn [ret]. rewrite IH by lia. done.
Qed.

End PartitionSlices.

(** X21: the reduce phases of the workers 0 .. num_threads - 1, run one
    after the other, are one pass of the reduce loop over the partitions
    0 .. PARTITIONS - 1 in order: every partition is reduced by exactly one
    worker, also when PARTITIONS is no multiple of the number of workers
    or there are more workers than partitions. *)
Theorem reduce_phases_cover_the_partitions ctx w :
  0 < num_threads ctx < 2 ^ 31 →
  run_reduce_phases ctx (seqZ 0 (num_threads ctx)) w
  = (out <- reduce_partitions (reduce_function ctx) (partitions ctx)
              (output ctx) (seqZ 0 PARTITIONS) ;;
     ret (with_output ctx out)) w.
Proof.
  intros Hthreads.
  replace (num_threads ctx)
    with (Z.of_nat (S (Z.to_nat (num_threads ctx - 1)))) at 1 by lia.
  rewrite <- (with_output_same ctx) at 1.
  rewrite (run_reduce_phases_from ctx Hthreads) by lia.
  rewrite Z.mul_0_l, Z.sub_0_r. done.
Qed.

Lemma reduce_phases_cover_the_partitions_witness :
  run_reduce_phases
    (mkCtx (mkList (Some []) 64) (mkList (Some []) 64)
       (replicate 16 (mkPartition (mkList (Some [mkKV "a" "1"]) 64)))
       None (Some (λ k vs, [(k, k)])) 3 4)
    [0; 1; 2] quiet_world
  = (out <- reduce_partitions (Some (λ k vs, [(k, k)]))
              (replicate 16 (mkPartition (mkList (Some [mkKV "a" "1"]) 64)))
              (mkList (Some []) 64) (seqZ 0 16) ;;
     ret (mkCtx (mkList (Some []) 64) out
            (replicate 16 (mkPartition (mkList (Some [mkKV "a" "1"]) 64)))
            None (Some (λ k vs, [(k, k)])) 3 4)) quiet_world.
Proof.
  apply (reduce_phases_cover_the_partitions
           (mkCtx (mkList (Some []) 64) (mkList (Some []) 64)
              (replicate 16 (mkPartition (mkList (Some [mkKV "a" "1"]) 64)))
              None (Some (λ k vs, [(k, k)])) 3 4) quiet_world).
  cbn. lia.
Defined.

(** ** The reduce callbacks *)

Lemma digits_value_acc d : ∀ p,
  digits_value (Z.pos p) (NilEmpty.string_of_uint d)
  = Z.pos (Pos.of_uint_acc d p).
Proof.
  induction d as [|d IH|d IH|d IH|d IH|d IH|d IH|d IH|d IH|d IH|d IH];
    intros p; [done|..];
    cbn [NilEmpty.string_of_uint Pos.of_uint_acc];
    unfold digits_value; fold digits_value;
    match goal with
    | |- context [digit_value ?c] =>
        let v := eval vm_compute in (digit_value c) in
        change (digit_value c) with v; cbv iota
    end;
    rewrite <- IH; f_equal; lia.
Qed.

Lemma digits_value_uint d :
  digits_value 0 (NilEmpty.string_of_uint d) = Z.of_N (Pos.of_uint d).
Proof.
  induction d as [|d IH|d IH|d IH|d IH|d IH|d IH|d IH|d IH|d IH|d IH];
    [done|exact IH|..];
    cbn [NilEmpty.string_of_uint Pos.of_uint];
    unfold digits_value; fold digits_value;
    match goal with
    | |- context [digit_value ?c] =>
        let v := eval vm_compute in (digit_value c) in
        change (digit_value c) with v; cbv iota
    end;
    cbn [Z.of_N]; rewrite <- digits_value_acc; f_equal.
Qed.

Lemma decimal_value_uint d :
  d ≠ Decimal.Nil →
  NilZero.string_of_uint d = NilEmpty.string_of_uint d
  ∧ decimal_value (NilEmpty.string_of_uint d)
    = digits_value 0 (NilEmpty.string_of_uint d).
Proof. by destruct d. Qed.

(** [atoi] reads back what [sprintf] with "%d" wrote. *)
Lemma decimal_value_sprintf_d z : decimal_value (sprintf_d z) = z.
Proof.
  unfold sprintf_d. destruct z as [|p|p]; [done|..]; cbn [Z.to_int NilZero.string_of_int].
  - destruct (decimal_value_uint (Pos.to_uint p)) as [-> ->];
      [apply DecimalPos.Unsigned.to_uint_nonnil|].
    by rewrite digits_value_uint, DecimalPos.Unsigned.of_to.
  - destruct (decimal_value_uint (Pos.to_uint p)) as [-> _];
      [apply DecimalPos.Unsigned.to_uint_nonnil|].
    unfold decimal_value. cbn [skip_spaces].
    change (isspace "-") with false. cbv iota.
    change (Ascii.eqb "-" "-") with true. cbv iota.
    by rewrite digits_value_uint, DecimalPos.Unsigned.of_to.
Qed.

Lemma atoi_sprintf_d z :
  INT_MIN ≤ z ≤ INT_MAX → atoi (sprintf_d z) = Some z.
Proof.
  intros Hz. unfold atoi. rewrite decimal_value_sprintf_d.
  unfold int_range. by rewrite !(proj2 (Z.leb_le _ _)) by lia.
Qed.

Lemma sum_counts_of_counts counts : ∀ count,
  0 ≤ count ≤ INT_MAX →
  Forall (λ c, 0 ≤ c ≤ INT_MAX) counts →
  sum_counts count (sprintf_d <$> counts)
  = if decide (count + foldr Z.add 0 counts ≤ INT_MAX)
    then Some (count + foldr Z.add 0 counts) else None.
Proof.
  induction counts as [|c counts IH]; intros count Hcount Hcounts.
  - cbn. rewrite Z.add_0_r. by rewrite decide_True by lia.
  - apply Forall_cons in Hcounts as [Hc Hcounts].
    assert (0 ≤ foldr Z.add 0 counts) as Hsum.
    { clear -Hcounts. induction Hcounts; cbn; lia. }
    cbn [fmap list_fmap sum_counts foldr].
    rewrite atoi_sprintf_d by (unfold INT_MIN, INT_MAX in *; lia).
    cbn [mbind option_bind]. unfold int_range.
    destruct (decide (count + c ≤ INT_MAX)) as [Hle|Hgt].
    + rewrite !(proj2 (Z.leb_le _ _)) by (unfold INT_MIN, INT_MAX in *; lia).
      cbn [andb].
      fold (fmap (M := list) sprintf_d counts).
      rewrite IH by (done || lia).
      repeat case_decide; try lia; f_equal; lia.
    + rewrite (proj2 (Z.leb_gt (count + c) INT_MAX)) by lia.
      rewrite andb_false_r.
      rewrite decide_False by lia. done.
Qed.

(** X22: [word_count_reduce] and [char_freq_reduce] on values that are
    the decimal numerals of counts between 0 and INT_MAX: when the total
    is an [int] they emit one pair, the key with the decimal numeral of
    the total (so their output can be reduced again); when the total
    passes INT_MAX the sum overflows, which is undefined behaviour. *)
Theorem count_reducers_add_up key counts :
  Forall (λ c, 0 ≤ c ≤ INT_MAX) counts →
  (foldr Z.add 0 counts ≤ INT_MAX →
   word_count_reduce key (sprintf_d <$> counts)
   = Some [(key, sprintf_d (foldr Z.add 0 counts))]
   ∧ char_freq_reduce key (sprintf_d <$> counts)
     = Some [(key, sprintf_d (foldr Z.add 0 counts))])
  ∧ (INT_MAX < foldr Z.add 0 counts →
     word_count_reduce key (sprintf_d <$> counts) = None
     ∧ char_freq_reduce key (sprintf_d <$> counts) = None).
Proof.
  intros Hcounts. unfold word_count_reduce, char_freq_reduce.
  rewrite (sum_counts_of_counts counts 0) by (done || (unfold INT_MAX; lia)).
  rewrite Z.add_0_l. split; intros H.
  - by rewrite decide_True.
  - by rewrite decide_False by lia.
Qed.

Lemma count_reducers_add_up_witness :
  word_count_reduce "the" ["1"; "1"; "40"]%string = Some [("the", "42")]%string.
Proof.
  destruct (count_reducers_add_up "the" [1; 1; 40]) as [Hsum _].
  - repeat constructor; vm_compute; discriminate.
  - destruct Hsum as [Hword _]; [vm_compute; discriminate|exact Hword].
Defined.

(** ** Loading the input file *)

Lemma append_nil_l s : EmptyString +:+ s = s.
Proof. done. Qed.

Lemma append_cons c s1 s2 : String c s1 +:+ s2 = String c (s1 +:+ s2).
Proof. done. Qed.

Lemma string_length_append s1 s2 :
  String.length (s1 +:+ s2) = (String.length s1 + String.length s2)%nat.
Proof.
  induction s1 as [|c s1 IH]; [done|].
  rewrite append_cons. cbn [String.length]. by rewrite IH.
Qed.

Lemma fgets_chars_line l : ∀ room rest,
  no_newline l → (String.length l < room)%nat →
  fgets_chars room (l +:+ String newline rest) = (l +:+ String newline EmptyString, rest).
Proof.
  unfold no_newline.
  induction l as [|c l IH]; intros room rest Hl Hroom; cbn [String.length] in Hroom;
    (destruct room as [|room]; [lia|]);
    rewrite ?append_nil_l, ?append_cons; cbn [fgets_chars].
  - by rewrite Ascii.eqb_refl.
  - cbn [list_ascii_of_string] in Hl. apply not_elem_of_cons in Hl as [Hc Hl].
    rewrite (proj2 (Ascii.eqb_neq c newline)) by done.
    rewrite IH by (done || lia). done.
Qed.

Lemma fgets_chars_last l : ∀ room,
  no_newline l → (String.length l ≤ room)%nat →
  fgets_chars room l = (l, EmptyString).
Proof.
  unfold no_newline.
  induction l as [|c l IH]; intros room Hl Hroom; cbn [String.length] in Hroom.
  - by destruct room.
  - destruct room as [|room]; [lia|]. cbn [fgets_chars].
    cbn [list_ascii_of_string] in Hl. apply not_elem_of_cons in Hl as [Hc Hl].
    rewrite (proj2 (Ascii.eqb_neq c newline)) by done.
    rewrite IH by (done || lia). done.
Qed.

Lemma chop_newline_line l :
  no_newline l → chop_newline (c_str (l +:+ String newline EmptyString)) = c_str l.
Proof.
  unfold no_newline. induction l as [|c l IH]; intros Hl; [done|].
  cbn [list_ascii_of_string] in Hl. apply not_elem_of_cons in Hl as [Hc Hl].
  rewrite append_cons. cbn [c_str]. destruct (Ascii.eqb c zero); [done|].
  specialize (IH Hl). cbn [chop_newline].
  destruct (c_str (l +:+ String newline EmptyString)) as [|c' s'] eqn:E.
  - rewrite (proj2 (Ascii.eqb_neq c newline)) by done.
    cbn in IH. by rewrite <- IH.
  - by rewrite IH.
Qed.

Lemma chop_newline_last l :
  no_newline l → chop_newline (c_str l) = c_str l.
Proof.
  unfold no_newline. induction l as [|c l IH]; intros Hl; [done|].
  cbn [list_ascii_of_string] in Hl. apply not_elem_of_cons in Hl as [Hc Hl].
  cbn [c_str]. destruct (Ascii.eqb c zero); [done|].
  specialize (IH Hl). cbn [chop_newline].
  destruct (c_str l) as [|c' s'] eqn:E.
  - by rewrite (proj2 (Ascii.eqb_neq c newline)).
  - by rewrite IH.
Qed.

Lemma stored_c_str k v : stored k (c_str v) = stored k v.
Proof. unfold stored, bounded_copy. by rewrite c_str_idemp. Qed.

Lemma load_lines_spec last lines : ∀ fuel inp n w,
  (length (lines_of lines last) ≤ fuel)%nat →
  Forall (λ l, no_newline l ∧ (String.length l < MAX_LINE_LENGTH - 1)%nat) lines →
  no_newline last → (String.length last < MAX_LINE_LENGTH)%nat →
  0 ≤ n → n + Z.of_nat (length lines) + 1 < INT_MAX →
  roomy inp → size inp + Z.of_nat (length lines) + 1 ≤ list_bound →
  allocations_succeed w →
  ∃ inp' w',
    load_lines fuel inp n (text_of lines last) w = Returned inp' w'
    ∧ items inp'
      = items inp
        ++ imap (λ i l, stored (sprintf_d (n + Z.of_nat i)) l)
             (lines_of lines last)
    ∧ stderr w' = stderr w.
Proof.
  induction lines as [|l lines IH];
    intros fuel inp n w Hfuel Hlines Hlast Hlen Hn Hint Hroomy Hsize Hok;
    cbn [text_of foldr lines_of app length] in *.
  - destruct last as [|c last].
    { exists inp, w. destruct fuel; cbn; by rewrite app_nil_r. }
    destruct fuel as [|fuel]; [cbn [length] in Hfuel; lia|].
    cbn [load_lines fgets].
    rewrite (fgets_chars_last (String c last)) by (done || unfold MAX_LINE_LENGTH in *; lia).
    cbn [fst snd]. rewrite chop_newline_last by done.
    rewrite (bool_decide_eq_true_2 (n < INT_MAX)) by lia.
    cbn [require]. unfold bind at 1, ret at 1.
    destruct (add_kv_pair_roomy inp (sprintf_d n) (c_str (String c last)) w
                Hroomy ltac:(lia) Hok)
      as (l' & w1 & Hadd & Hitems & _ & _ & He1 & _).
    rewrite (bind_step _ _ _ _ _ Hadd). cbn [deref].
    unfold bind at 1, ret at 1.
    exists l', w1. destruct fuel; cbn [load_lines fgets];
      (split_and!; [done| |done]);
      rewrite Hitems, stored_c_str; cbn [imap]; by rewrite Z.add_0_r.
  - apply Forall_cons in Hlines as [[Hl Hll] Hlines].
    fold (text_of lines last). fold (lines_of lines last) in *.
    destruct fuel as [|fuel]; [lia|].
    assert (fgets MAX_LINE_LENGTH (l +:+ String newline (text_of lines last))
            = Some (l +:+ String newline EmptyString, text_of lines last)) as Hget.
    { unfold fgets.
      rewrite fgets_chars_line by (done || unfold MAX_LINE_LENGTH in *; lia).
      by destruct l. }
    cbn [load_lines]. rewrite Hget. cbn [fst snd].
    rewrite chop_newline_line by done.
    rewrite (bool_decide_eq_true_2 (n < INT_MAX)) by lia.
    cbn [require]. unfold bind at 1, ret at 1.
    destruct (add_kv_pair_roomy inp (sprintf_d n) (c_str l) w
                Hroomy ltac:(lia) Hok)
      as (l' & w1 & Hadd & Hitems & Hroomy' & Hok1 & He1 & _).
    rewrite (bind_step _ _ _ _ _ Hadd). cbn [deref].
    unfold bind at 1, ret at 1.
    destruct (IH fuel l' (n + 1) w1) as (inp' & w' & Hrun & Hitems' & He');
      [lia|done|done|done|lia|lia|done| |done|].
    { unfold size in *. rewrite Hitems, length_app. cbn [length]. lia. }
    exists inp', w'. split_and!; [done| |congruence].
    rewrite Hitems', Hitems, stored_c_str, <- app_assoc. cbn [app imap].
    rewrite Z.add_0_r. f_equal. f_equal.
    apply imap_ext. intros i x _. cbn. do 2 f_equal. lia.
Qed.

Lemma text_of_length lines last :
  (length (lines_of lines last) ≤ String.length (text_of lines last))%nat.
Proof.
  unfold lines_of. rewrite length_app.
  induction lines as [|l lines IH]; cbn [text_of foldr length].
  - destruct last; cbn; lia.
  - fold (text_of lines last).
    rewrite string_length_append. cbn [String.length]. lia.
Qed.

(** X23: [load_data_from_file] when the file cannot be opened prints one
    message and leaves the context as it was.  For a file of lines
    shorter than the line buffer it appends one pair per line, in order:
    the key is the decimal number of the line counted from 0 (whatever the
    input list held before), the value is the line without its newline,
    cut as [add_kv_pair] cuts it; characters after the last newline count
    as a line. *)
Theorem load_numbers_the_lines ctx lines last w :
  (load_data_from_file ctx None w
   = Returned ctx
       (mkWorld (alloc_oracle w) (thread_oracle w)
          (stderr w ++ ["Failed to open input file: %s"%string]) (spawned w)))
  ∧ (Forall (λ l, no_newline l
                  ∧ (String.length l < MAX_LINE_LENGTH - 1)%nat) lines →
     no_newline last → (String.length last < MAX_LINE_LENGTH)%nat →
     Z.of_nat (length lines) + 1 < INT_MAX →
     roomy (input ctx) →
     size (input ctx) + Z.of_nat (length lines) + 1 ≤ list_bound →
     allocations_succeed w →
     ∃ ctx' w',
       load_data_from_file ctx (Some (text_of lines last)) w = Returned ctx' w'
       ∧ items (input ctx')
         = items (input ctx)
           ++ imap (λ i l, stored (sprintf_d (Z.of_nat i)) l)
                (lines_of lines last)
       ∧ output ctx' = output ctx ∧ partitions ctx' = partitions ctx
       ∧ stderr w' = stderr w).
Proof.
  split; [done|].
  intros Hlines Hlast Hlen Hint Hroomy Hsize Hok.
  unfold load_data_from_file.
  destruct (load_lines_spec last lines
              (String.length (text_of lines last)) (input ctx) 0 w)
    as (inp' & w' & Hrun & Hitems & He);
    [apply text_of_length|done|done|done|done|lia|done|done|done|].
  rewrite (bind_step _ _ _ _ _ Hrun). eexists _, w'.
  split_and!; [done| |done|done|done].
  cbn [input]. rewrite Hitems. f_equal.
Qed.

Lemma load_numbers_the_lines_witness :
  ∃ ctx' w',
    load_data_from_file
      (mkCtx (mkList (Some [mkKV "9" "old"]) 64) (mkList (Some []) 64) []
         None None 1 2)
      (Some (text_of ["to be"; "or not"]%string "to be")) quiet_world
    = Returned ctx' w'
    ∧ items (input ctx')
      = [mkKV "9" "old"; mkKV "0" "to be"; mkKV "1" "or not"; mkKV "2" "to be"].
Proof.
  destruct (load_numbers_the_lines
              (mkCtx (mkList (Some [mkKV "9" "old"]) 64) (mkList (Some []) 64) []
                 None None 1 2)
              ["to be"; "or not"]%string "to be"%string quiet_world)
    as [_ Hload].
  destruct Hload as (ctx' & w' & Hrun & Hitems & _).
  - repeat first [apply Forall_nil_2 | apply Forall_cons_2; [split|]];
      try (apply Nat.ltb_lt; vm_compute; reflexivity);
      unfold no_newline; apply (bool_decide_unpack _); vm_compute; exact I.
  - unfold no_newline; apply (bool_decide_unpack _); vm_compute; exact I.
  - apply Nat.ltb_lt. vm_compute. reflexivity.
  - vm_compute. reflexivity.
  - unfold roomy, size. cbn. split_and!; [eauto|lia|by exists O|by left].
  - vm_compute. discriminate.
  - constructor.
  - exists ctx', w'. split; [exact Hrun|]. rewrite Hitems. reflexivity.
Defined.

End MapReducePhases.
